(** * LibMeshCtrl: protocol engine of the MeshCentral client library

    A shallow embedding of the protocol core of [libmeshctrl.mjs] (v2.2.1):
    the upload chunker and frame encoder, the download handler, the request
    queue of the file tunnel, the correlated-request table of the session,
    the structural event filter, the relay handshake and the shell buffer.

    Conventions.  A Node [Buffer] is a [list Z] of byte values, a JavaScript
    string is a [string], an EventEmitter is the list of its listeners in
    registration order, a promise or [_Deferred] is a cell holding its state,
    and every [_sock.send] is appended to a log. *)

From Stdlib Require Import ZArith List String Ascii Lia Bool.
From stdpp Require Import base option list sorting gmap sets strings pretty.

#[local] Set Warnings "-clear-no-such-hyp".

Local Open Scope string_scope.
Local Open Scope list_scope.
Local Open Scope Z_scope.

(** ** JavaScript values *)

Module JS.

(** The values the engine handles: what [JSON.parse] returns, plus
    [undefined] and [Set] objects, which a caller may put in a filter.
    Numbers are the integer-valued ones.  An object is the list of its own
    enumerable properties in enumeration order; property names inherited
    from the prototypes (such as [constructor]) are not modelled, and
    distinct positions hold distinct objects (no shared references). *)
#[local] Set Warnings "-register-all".
Inductive value : Type :=
| Undefined
| Null
| Bool (b : bool)
| Num (n : Z)
| Str (s : string)
| Arr (elems : list value)
| Obj (props : list (string * value))
| SetOf (elems : list value).

(** How a call ends: it returns, it throws, or the model ran out of fuel. *)
Inductive completion (A : Type) : Type :=
| Return (a : A)
| Throw
| OutOfFuel.
Arguments Return {A} a.
Arguments Throw {A}.
Arguments OutOfFuel {A}.

#[global] Instance completion_eq_dec {A : Type} `{EqDecision A} :
  EqDecision (completion A).
Proof. solve_decision. Defined.

(** [!!v] *)
Definition truthy (v : value) : bool :=
  match v with
  | Undefined | Null => false
  | Bool b => b
  | Num n => negb (n =? 0)
  | Str s => negb (String.eqb s "")
  | Arr _ | Obj _ | SetOf _ => true
  end.

(** [v == null]: [null] or [undefined] *)
Definition nullish (v : value) : bool :=
  match v with Undefined | Null => true | _ => false end.

Definition instanceof_Object (v : value) : bool :=
  match v with
  | Arr _ | Obj _ | SetOf _ => true
  | _ => false
  end.

Definition instanceof_Set (v : value) : bool :=
  match v with SetOf _ => true | _ => false end.

Definition instanceof_Array (v : value) : bool :=
  match v with Arr _ => true | _ => false end.

(** [a === b].  Two objects are equal only when they are the same object,
    which no two positions of the modelled values are. *)
Definition strict_eq (a b : value) : bool :=
  match a, b with
  | Undefined, Undefined => true
  | Null, Null => true
  | Bool x, Bool y => Bool.eqb x y
  | Num x, Num y => x =? y
  | Str x, Str y => String.eqb x y
  | _, _ => false
  end.

(** The element whose index prints as [key], counting from [i]. *)
Fixpoint index_get {A : Type} (l : list A) (i : nat) (key : string) : option A :=
  match l with
  | [] => None
  | x :: l' => if String.eqb (pretty i) key then Some x else index_get l' (S i) key
  end.

(** The code units of a string, each as a one-character string. *)
Fixpoint chars (s : string) : list value :=
  match s with
  | EmptyString => []
  | String c s' => Str (String c EmptyString) :: chars s'
  end.

Fixpoint assoc (props : list (string * value)) (key : string) : option value :=
  match props with
  | [] => None
  | (k, v) :: props' => if String.eqb k key then Some v else assoc props' key
  end.

(** [v[key]]: [Throw] on [null] and [undefined], [undefined] for a missing
    property.  The properties are those of the value itself: the methods
    that a value inherits are no values here, and a key that names one of
    them ([constructor], [toString] and the like) is outside this
    function. *)
Definition get (v : value) (key : string) : completion value :=
  match v with
  | Undefined | Null => Throw
  | Bool _ | Num _ => Return Undefined
  | Str s =>
      if String.eqb key "length" then Return (Num (Z.of_nat (String.length s)))
      else Return (default Undefined (index_get (chars s) 0 key))
  | Arr elems =>
      if String.eqb key "length" then Return (Num (Z.of_nat (length elems)))
      else Return (default Undefined (index_get elems 0 key))
  | SetOf elems =>
      if String.eqb key "size" then Return (Num (Z.of_nat (length elems)))
      else Return Undefined
  | Obj props => Return (default Undefined (assoc props key))
  end.

(** [Object.entries(v)] *)
Definition Object_entries (v : value) : completion (list (string * value)) :=
  match v with
  | Undefined | Null => Throw
  | Bool _ | Num _ | SetOf _ => Return []
  | Str s => Return (imap (fun i c => (pretty i, c)) (chars s))
  | Arr elems => Return (imap (fun i x => (pretty i, x)) elems)
  | Obj props => Return props
  end.

(** The values [for (let x of v)] visits; [Throw] when [v] is not iterable. *)
Definition iterate (v : value) : completion (list value) :=
  match v with
  | Arr elems | SetOf elems => Return elems
  | Str s => Return (chars s)
  | _ => Throw
  end.

(** A loop body either goes on ([None]) or leaves the enclosing function. *)
Fixpoint for_of {A B : Type} (l : list A) (body : A -> option B) : option B :=
  match l with
  | [] => None
  | x :: l' =>
      match body x with
      | Some r => Some r
      | None => for_of l' body
      end
  end.

(** [Array.prototype.toString], [String(v)]: what [==] compares a string
    with. *)
Fixpoint toString (v : value) : string :=
  match v with
  | Undefined => "undefined"
  | Null => "null"
  | Bool true => "true"
  | Bool false => "false"
  | Num n => pretty n
  | Str s => s
  | Arr elems =>
      (fix join (l : list value) : string :=
         match l with
         | [] => ""
         | [x] => match x with Undefined | Null => "" | _ => toString x end
         | x :: l' =>
             (match x with Undefined | Null => "" | _ => toString x end)
             +:+ "," +:+ join l'
         end) elems
  | Obj _ => "[object Object]"
  | SetOf _ => "[object Set]"
  end.

(** Whether turning [v] into a primitive throws a [TypeError].  The
    values here hold no functions.  An object with a property [toString]
    of its own has lost the inherited method, and the inherited [valueOf]
    returns the object itself: no primitive is found.  An array is printed
    through its elements. *)
Fixpoint unprintable (v : value) : bool :=
  match v with
  | Arr elems =>
      (fix any (l : list value) : bool :=
         match l with
         | [] => false
         | x :: l' => unprintable x || any l'
         end) elems
  | Obj props => match assoc props "toString" with Some _ => true | None => false end
  | _ => false
  end.

(** [v == s] evaluates to [true], for a string [s] that is not the text
    of a number (every string the engine compares with starts with a
    letter): a string compares by content, an array or object through
    [toString], and a number, boolean, [null] or [undefined] never equals
    it. *)
Definition loose_eq_str (v : value) (s : string) : bool :=
  match v with
  | Str _ | Arr _ | Obj _ | SetOf _ => negb (unprintable v) && String.eqb (toString v) s
  | _ => false
  end.

(** [v == s] as the engine evaluates it: the comparison throws when [v]
    cannot be turned into a primitive. *)
Definition loose_eq (v : value) (s : string) : completion bool :=
  if unprintable v then Throw else Return (loose_eq_str v s).

(** [v === s] for a string [s]. *)
Definition strict_eq_str (v : value) (s : string) : bool := strict_eq v (Str s).

(** The nesting depth of a value. *)
Fixpoint depth (v : value) : nat :=
  match v with
  | Arr elems | SetOf elems =>
      S ((fix go (l : list value) : nat :=
            match l with [] => O | x :: l' => Nat.max (depth x) (go l') end) elems)
  | Obj props =>
      S ((fix go (l : list (string * value)) : nat :=
            match l with [] => O | (_, x) :: l' => Nat.max (depth x) (go l') end) props)
  | _ => O
  end.

End JS.

(** ** The structural event filter *)

Module Filter.
Import JS.

(** [_compare_obj(obj1, obj2)], with fuel for the recursion. *)
Fixpoint compare_fuel (fuel : nat) (obj1 obj2 : value) : completion bool :=
  match fuel with
  | O => OutOfFuel
  | S fuel' =>
      match Object_entries obj1 with
      | Return entries =>
          let body (kv : string * value) : option (completion bool) :=
            let '(key, val) := kv in
            match get obj2 key with
            | Return obj2_key =>
                if negb (truthy obj2_key) then Some (Return false)
                else if instanceof_Object val then
                  match compare_fuel fuel' val obj2_key with
                  | Return true => None
                  | other => Some other
                  end
                else if instanceof_Set val then
                  match iterate val with
                  | Return vs =>
                      for_of vs (fun v =>
                        (* try { ... } catch (err) { return false } *)
                        match iterate obj2_key with
                        | Return v2s =>
                            let step (v2 : value) : option (completion bool) :=
                              match compare_fuel fuel' v v2 with
                              | Return true => Some (Return true)
                              | Return false => None
                              | Throw => Some (Return false)
                              | OutOfFuel => Some OutOfFuel
                              end in
                            match for_of v2s step with
                            | Some (Return true) => None
                            | Some other => Some other
                            | None => Some (Return false)
                            end
                        | _ => Some (Return false)
                        end)
                  | _ => Some Throw
                  end
                else if instanceof_Array val then
                  match iterate val with
                  | Return vs =>
                      let step (v : value) : option (completion bool) :=
                        match compare_fuel fuel' v obj2_key with
                        | Return true => None
                        | Return false => Some (Return false)
                        | Throw => Some (Return false)
                        | OutOfFuel => Some OutOfFuel
                        end in
                      match for_of vs step with
                      | Some r => Some r
                      | None =>
                          match get val "length", get obj2_key "length" with
                          | Return l1, Return l2 =>
                              if negb (strict_eq l1 l2) then Some (Return false)
                              else None
                          | _, _ => Some (Return false)
                          end
                      end
                  | _ => Some Throw
                  end
                else if negb (strict_eq obj2_key val) then Some (Return false)
                else None
            | _ => Some Throw
            end in
          match for_of entries body with
          | Some r => r
          | None => Return true
          end
      | _ => Throw
      end
  end.

Definition _compare_obj (obj1 obj2 : value) : completion bool :=
  compare_fuel (S (depth obj1)) obj1 obj2.

(** The filter as the documentation of [listen_to_events] states it:
    every key of the predicate is present in the candidate and matches; a
    set matches when each of its elements matches some element of the
    candidate's collection; an array matches element by element against an
    array of the same length; anything else matches by equality. *)
Fixpoint deep_match (fuel : nat) (pred cand : value) : bool :=
  match fuel with
  | O => false
  | S fuel' =>
      match pred with
      | Obj props =>
          match cand with
          | Obj cprops =>
              forallb (fun kv : string * value =>
                match assoc cprops (fst kv) with
                | Some c => deep_match fuel' (snd kv) c
                | None => false
                end) props
          | _ => false
          end
      | SetOf elems =>
          match iterate cand with
          | Return cs =>
              forallb (fun v => existsb (fun c => deep_match fuel' v c) cs) elems
          | _ => false
          end
      | Arr elems =>
          match cand with
          | Arr cs =>
              (length elems =? length cs)%nat
              && forallb (fun vc : value * value => deep_match fuel' (fst vc) (snd vc))
                         (zip elems cs)
          | _ => false
          end
      | _ => strict_eq pred cand
      end
  end.

Definition documented_match (pred cand : value) : bool :=
  deep_match (S (depth pred)) pred cand.

(** The filter of the specification's example. *)
Definition ugrp_filter : value := Obj [("event", Obj [("etype", Str "ugrp")])].

End Filter.

(** ** Node buffers *)

Module Buffer.

(** [Buffer.alloc(n)]: [n] zero bytes. *)
Definition alloc (n : nat) : list Z := replicate n 0.

(** [src.copy(target, targetStart)]: writes the bytes of [src] into
    [target] from [targetStart] on, as many as fit. *)
Definition copy (src target : list Z) (targetStart : nat) : list Z :=
  let n := Nat.min (length src) (length target - targetStart) in
  take targetStart target ++ take n src ++ drop (targetStart + n) target.

(** Node's [adjustOffset]: a negative offset counts from the end, and the
    result is clamped to [0, len]. *)
Definition adjustOffset (offset len : Z) : Z :=
  if offset <? 0 then Z.max (offset + len) 0 else Z.min offset len.

(** [buf.slice(start, end)]. *)
Definition slice (b : list Z) (start end_ : Z) : list Z :=
  let len := Z.of_nat (length b) in
  let s := adjustOffset start len in
  let e := adjustOffset end_ len in
  take (Z.to_nat (e - s)) (drop (Z.to_nat s) b).

(** [buf.slice(start)]: [end] defaults to the length. *)
Definition slice_from (b : list Z) (start : Z) : list Z :=
  slice b start (Z.of_nat (length b)).

(** [buf[i] == v] for a number [v]: an index out of range reads
    [undefined], which equals no number. *)
Definition byte_is (b : list Z) (i : nat) (v : Z) : bool :=
  match b !! i with
  | Some x => x =? v
  | None => false
  end.

(** [buf[i] = v]: a write out of range is ignored by a typed array. *)
Definition set (b : list Z) (i : nat) (v : Z) : list Z := <[i:=v]> b.

End Buffer.

(** ** The upload chunker and the frame encoder *)

Module Upload.

(** [_SizeChunker]: the state is the [_buffer] field. *)

(** The [while] loop of [_transform]: while
    [chunk_start + chunksize < buffer.length] it pushes
    [buffer.slice(chunk_start, chunk_start + chunksize)] and advances
    [chunk_start].  [None] when the fuel runs out. *)
Fixpoint transform_loop (fuel : nat) (chunksize : nat) (buffer : list Z)
    (chunk_start : nat) (pushed : list (list Z)) : option (list (list Z) * nat) :=
  match fuel with
  | O => None
  | S fuel' =>
      if (chunk_start + chunksize <? length buffer)%nat then
        let chunk := Buffer.slice buffer (Z.of_nat chunk_start)
                                  (Z.of_nat (chunk_start + chunksize)) in
        transform_loop fuel' chunksize buffer (chunk_start + chunksize)
                       (pushed ++ [chunk])
      else Some (pushed, chunk_start)
  end.

(** [_transform(chunk)]: returns the pushed chunks and the new [_buffer]. *)
Definition _transform (chunksize : nat) (_buffer chunk : list Z)
    : option (list (list Z) * list Z) :=
  let buffer := _buffer ++ chunk in
  match transform_loop (S (length buffer)) chunksize buffer 0 [] with
  | Some (pushed, chunk_start) =>
      Some (pushed, Buffer.slice_from buffer (Z.of_nat chunk_start))
  | None => None
  end.

(** [_flush]: pushes what is left. *)
Definition _flush (_buffer : list Z) : list (list Z) := [_buffer].

(** The chunks pushed while the source delivers [inputs] and then ends. *)
Fixpoint chunker_run (chunksize : nat) (_buffer : list Z)
    (inputs : list (list Z)) : option (list (list Z)) :=
  match inputs with
  | [] => Some (_flush _buffer)
  | chunk :: inputs' =>
      match _transform chunksize _buffer chunk with
      | Some (pushed, _buffer') =>
          match chunker_run chunksize _buffer' inputs' with
          | Some later => Some (pushed ++ later)
          | None => None
          end
      | None => None
      end
  end.

(** [new _SizeChunker(65564)], as [_Files.upload] builds it. *)
Definition UPLOAD_CHUNK_SIZE : nat := Z.to_nat 65564.
Definition UPLOAD_FRAME_ALLOC : nat := Z.to_nat 65565.

Definition upload_chunks (inputs : list (list Z)) : option (list (list Z)) :=
  chunker_run UPLOAD_CHUNK_SIZE (Buffer.alloc 0) inputs.

(** The ["data"] listener of [_handle_upload], for a frame buffer of
    [alloc] bytes: the frame handed to [_sock.send], or [None] when the
    chunk is empty and nothing is sent. *)
Definition encode_chunk (alloc : nat) (new_buf : list Z) : option (list Z) :=
  let buf := Buffer.alloc alloc in
  let len := length new_buf in
  let start := 1%nat in
  let buf := Buffer.copy new_buf buf start in
  if (0 <? len)%nat then
    let '(start, buf, len) :=
      if Buffer.byte_is buf 1 0 || Buffer.byte_is buf 1 123
      then (0%nat, Buffer.set buf 0 0, S len)
      else (start, buf, len) in
    Some (Buffer.slice buf (Z.of_nat start) (Z.of_nat (start + len)))
  else None.

Definition upload_frame (new_buf : list Z) : option (list Z) :=
  encode_chunk UPLOAD_FRAME_ALLOC new_buf.

(** The frame of a non-empty chunk as the specification words it: a
    leading zero byte in every case. *)
Definition frame_as_specified (chunk frame : list Z) : Prop :=
  match chunk with
  | [] => True
  | b :: _ =>
      if (b =? 0) || (b =? 123)
      then frame = 0 :: chunk
      else frame !! 0%nat = Some 0 /\ frame !! 1%nat = Some b
           /\ length frame = length chunk
  end.

(** The chunk a frame stands for: the frame without the zero byte that
    escapes it. *)
Definition unescaped (frame : list Z) : list Z :=
  match frame with
  | 0 :: rest => rest
  | _ => frame
  end.

End Upload.

(** ** The primary session: correlated requests and the event bus *)

Module Session.
Import JS.

Definition bind {A B : Type} (c : completion A) (k : A -> completion B) : completion B :=
  match c with
  | Return a => k a
  | Throw => Throw
  | OutOfFuel => OutOfFuel
  end.

(** The error classes of the library. *)
Inductive error : Type :=
| ServerError (message : string)
| SocketError (message : string)
| ValueError (message : string)
| TimeoutError (message : string).

(** What an [emit] hands to the listeners: parsed data or an [Error]. *)
Inductive payload : Type :=
| Data (v : value)
| Failure (e : error).

(** [data instanceof Error] *)
Definition instanceof_Error (d : payload) : bool :=
  match d with Failure _ => true | Data _ => false end.

(** The payload as a filter sees it; of an [Error] only [message] is kept. *)
Definition payload_value (d : payload) : value :=
  match d with
  | Data v => v
  | Failure (ServerError m) | Failure (SocketError m)
  | Failure (ValueError m) | Failure (TimeoutError m) => Obj [("message", Str m)]
  end.

(** [_Deferred] *)
Inductive deferred : Type :=
| Pending
| Resolved (v : value)
| Rejected (reason : value).

Definition resolve (v : value) (d : deferred) : deferred :=
  match d with Pending => Resolved v | _ => d end.

Definition reject (reason : value) (d : deferred) : deferred :=
  match d with Pending => Rejected reason | _ => d end.

Definition resolved (d : deferred) : bool :=
  match d with Resolved _ => true | _ => false end.

(** The promise [p] that [_send_command] returns. *)
Inductive promise : Type :=
| Unsettled
| Fulfilled (v : value)
| Failed (e : error).

(** The listeners of [_eventer].  A waiter is the [once] listener of a
    request and names the promise it settles; a callback is a function of
    the caller, named by a number, whose calls are logged. *)
Inductive listener : Type :=
| CommandWaiter (id : string) (p : nat)
| ActionWaiter (action : string) (p : nat)
| CloseCallback (f : nat)
| EventCallback (f : nat) (filter : value).

Definition topic_of (l : listener) : string :=
  match l with
  | CommandWaiter id _ => id
  | ActionWaiter action _ => action
  | CloseCallback _ => "close"
  | EventCallback _ _ => "server_event"
  end.

Definition is_once (l : listener) : bool :=
  match l with
  | CommandWaiter _ _ | ActionWaiter _ _ => true
  | _ => false
  end.

(** Whether [l] is the [once] listener that settles promise [p]. *)
Definition waits_for (p : nat) (l : listener) : bool :=
  match l with
  | CommandWaiter _ q | ActionWaiter _ q => (p =? q)%nat
  | _ => false
  end.

Record session : Type := mk_session {
  alive : bool;
  initialized : deferred;
  _socket_open : deferred;
  _command_id : Z;
  _inflight : gset string;
  _eventer : list listener;
  promises : list promise;
  _currentDomain : value;
  _server_info : value;
  _user_info : value;
  _file_tunnels : list (string * nat);
  _shell_tunnels : list (string * nat);
  _smart_shell_tunnels : list (string * nat);
  sent : list value;
  called : list (nat * payload);
  closed_tunnels : list nat
}.

Definition set_alive (b : bool) (s : session) : session :=
  mk_session b (initialized s) (_socket_open s) (_command_id s) (_inflight s)
    (_eventer s) (promises s) (_currentDomain s) (_server_info s) (_user_info s)
    (_file_tunnels s) (_shell_tunnels s) (_smart_shell_tunnels s)
    (sent s) (called s) (closed_tunnels s).

Definition set_initialized (d : deferred) (s : session) : session :=
  mk_session (alive s) d (_socket_open s) (_command_id s) (_inflight s)
    (_eventer s) (promises s) (_currentDomain s) (_server_info s) (_user_info s)
    (_file_tunnels s) (_shell_tunnels s) (_smart_shell_tunnels s)
    (sent s) (called s) (closed_tunnels s).

Definition set_socket_open (d : deferred) (s : session) : session :=
  mk_session (alive s) (initialized s) d (_command_id s) (_inflight s)
    (_eventer s) (promises s) (_currentDomain s) (_server_info s) (_user_info s)
    (_file_tunnels s) (_shell_tunnels s) (_smart_shell_tunnels s)
    (sent s) (called s) (closed_tunnels s).

Definition set_command_id (n : Z) (s : session) : session :=
  mk_session (alive s) (initialized s) (_socket_open s) n (_inflight s)
    (_eventer s) (promises s) (_currentDomain s) (_server_info s) (_user_info s)
    (_file_tunnels s) (_shell_tunnels s) (_smart_shell_tunnels s)
    (sent s) (called s) (closed_tunnels s).

Definition set_inflight (i : gset string) (s : session) : session :=
  mk_session (alive s) (initialized s) (_socket_open s) (_command_id s) i
    (_eventer s) (promises s) (_currentDomain s) (_server_info s) (_user_info s)
    (_file_tunnels s) (_shell_tunnels s) (_smart_shell_tunnels s)
    (sent s) (called s) (closed_tunnels s).

Definition set_eventer (e : list listener) (s : session) : session :=
  mk_session (alive s) (initialized s) (_socket_open s) (_command_id s) (_inflight s)
    e (promises s) (_currentDomain s) (_server_info s) (_user_info s)
    (_file_tunnels s) (_shell_tunnels s) (_smart_shell_tunnels s)
    (sent s) (called s) (closed_tunnels s).

Definition set_promises (ps : list promise) (s : session) : session :=
  mk_session (alive s) (initialized s) (_socket_open s) (_command_id s) (_inflight s)
    (_eventer s) ps (_currentDomain s) (_server_info s) (_user_info s)
    (_file_tunnels s) (_shell_tunnels s) (_smart_shell_tunnels s)
    (sent s) (called s) (closed_tunnels s).

Definition set_server_info (domain info : value) (s : session) : session :=
  mk_session (alive s) (initialized s) (_socket_open s) (_command_id s) (_inflight s)
    (_eventer s) (promises s) domain info (_user_info s)
    (_file_tunnels s) (_shell_tunnels s) (_smart_shell_tunnels s)
    (sent s) (called s) (closed_tunnels s).

Definition set_user_info (info : value) (s : session) : session :=
  mk_session (alive s) (initialized s) (_socket_open s) (_command_id s) (_inflight s)
    (_eventer s) (promises s) (_currentDomain s) (_server_info s) info
    (_file_tunnels s) (_shell_tunnels s) (_smart_shell_tunnels s)
    (sent s) (called s) (closed_tunnels s).

Definition set_sent (l : list value) (s : session) : session :=
  mk_session (alive s) (initialized s) (_socket_open s) (_command_id s) (_inflight s)
    (_eventer s) (promises s) (_currentDomain s) (_server_info s) (_user_info s)
    (_file_tunnels s) (_shell_tunnels s) (_smart_shell_tunnels s)
    l (called s) (closed_tunnels s).

Definition set_called (l : list (nat * payload)) (s : session) : session :=
  mk_session (alive s) (initialized s) (_socket_open s) (_command_id s) (_inflight s)
    (_eventer s) (promises s) (_currentDomain s) (_server_info s) (_user_info s)
    (_file_tunnels s) (_shell_tunnels s) (_smart_shell_tunnels s)
    (sent s) l (closed_tunnels s).

Definition set_closed_tunnels (l : list nat) (s : session) : session :=
  mk_session (alive s) (initialized s) (_socket_open s) (_command_id s) (_inflight s)
    (_eventer s) (promises s) (_currentDomain s) (_server_info s) (_user_info s)
    (_file_tunnels s) (_shell_tunnels s) (_smart_shell_tunnels s)
    (sent s) (called s) l.

(** The state the constructor leaves, with the caches it is given. *)
Definition constructed (files shells smart_shells : list (string * nat)) : session :=
  mk_session false Pending Pending 0 ∅ [] [] Undefined (Obj []) (Obj [])
             files shells smart_shells [] [] [].

(** The ["open"] handler of the socket. *)
Definition on_open (s : session) : session :=
  set_alive true (set_socket_open (resolve Undefined (_socket_open s)) s).

(** [2**32-1] *)
Definition ID_LIMIT : Z := 2 ^ 32 - 1.

(** [_get_command_id]: [this._command_id = (this._command_id+1)%(2**32-1)]. *)
Definition _get_command_id (s : session) : Z * session :=
  let n := Z.rem (_command_id s + 1) ID_LIMIT in
  (n, set_command_id n s).

(** The template literal [`meshctrl_${name}_${n}`]. *)
Definition command_id_text (name : string) (n : Z) : string :=
  "meshctrl_" +:+ name +:+ "_" +:+ pretty n.

(** The loop
    [while (this._inflight.has(id = `meshctrl_${name}_${this._get_command_id()}`)){}]. *)
Fixpoint fresh_id (fuel : nat) (name : string) (s : session) : option (string * session) :=
  match fuel with
  | O => None
  | S fuel' =>
      let '(n, s1) := _get_command_id s in
      let id := command_id_text name n in
      if decide (id ∈ _inflight s1) then fresh_id fuel' name s1 else Some (id, s1)
  end.

(** [if (data instanceof Error) { reject(data) } else { resolve(data) }] *)
Definition settled_with (d : payload) : promise :=
  match d with Data v => Fulfilled v | Failure e => Failed e end.

(** Settling promise [p]; a settled promise stays as it is. *)
Definition settle (p : nat) (d : payload) (ps : list promise) : list promise :=
  match ps !! p with
  | Some Unsettled => <[p := settled_with d]> ps
  | _ => ps
  end.

(** Drops the first listener that waits for promise [p]. *)
Fixpoint remove_waiter (p : nat) (ls : list listener) : list listener :=
  match ls with
  | [] => []
  | l :: ls' => if waits_for p l then ls' else l :: remove_waiter p ls'
  end.

(** One listener called with [data]; a [once] listener is first taken off
    the emitter. *)
Definition call (l : listener) (data : payload) (s : session) : completion session :=
  match l with
  | CommandWaiter id p =>
      let s := set_eventer (remove_waiter p (_eventer s)) s in
      let s := set_inflight (_inflight s ∖ {[id]}) s in
      Return (set_promises (settle p data (promises s)) s)
  | ActionWaiter _ p =>
      let s := set_eventer (remove_waiter p (_eventer s)) s in
      Return (set_promises (settle p data (promises s)) s)
  | CloseCallback f => Return (set_called (called s ++ [(f, data)]) s)
  | EventCallback f filter =>
      if truthy filter then
        match Filter._compare_obj filter (payload_value data) with
        | Return true => Return (set_called (called s ++ [(f, data)]) s)
        | Return false => Return s
        | Throw => Throw
        | OutOfFuel => OutOfFuel
        end
      else Return (set_called (called s ++ [(f, data)]) s)
  end.

Fixpoint call_all (ls : list listener) (data : payload) (s : session) : completion session :=
  match ls with
  | [] => Return s
  | l :: ls' => bind (call l data s) (call_all ls' data)
  end.

(** The listeners registered under [topic] when the call starts are
    called in registration order. *)
Definition call_topic (topic : string) (data : payload) (s : session)
    : completion session :=
  call_all (filter (fun l => topic_of l = topic) (_eventer s)) data s.

(** [this._eventer.emit(topic, data)] for a string [topic].  An
    [EventEmitter] throws when it is told to emit ["error"] and has no
    listener for it. *)
Definition emit (topic : string) (data : payload) (s : session) : completion session :=
  if String.eqb topic "error"
     && bool_decide (filter (fun l => topic_of l = topic) (_eventer s) = [])
  then Throw
  else call_topic topic data s.

(** [this._eventer.emit(key, data)] for a [key] taken from a message.  The
    emitter compares the key with ["error"] by [===], so only the string
    itself is the special event, and looks the listeners up under the key
    as a property name, which throws for a key that has no text. *)
Definition emit_key (key : value) (data : payload) (s : session) : completion session :=
  match key with
  | Str topic => emit topic data s
  | _ => if unprintable key then Throw else call_topic (toString key) data s
  end.

(** [Object.assign({}, data, {tag: id, responseid: id})] *)
Fixpoint set_prop (props : list (string * value)) (key : string) (v : value)
    : list (string * value) :=
  match props with
  | [] => [(key, v)]
  | (k, x) :: props' =>
      if String.eqb k key then (k, v) :: props' else (k, x) :: set_prop props' key v
  end.

Definition stamp (data : value) (id : string) : value :=
  match Object_entries data with
  | Return props => Obj (set_prop (set_prop props "tag" (Str id)) "responseid" (Str id))
  | _ => Obj [("tag", Str id); ("responseid", Str id)]
  end.

(** How [_send_command] ends: the request went out under [id] and promise
    [p] waits for the reply; or the call was refused; or the probing loop
    does not end. *)
Inductive sending : Type :=
| Sent (id : string) (p : nat) (s : session)
| Refused (e : error)
| Probing.

(** [_send_command(data, name)].  The race of [p] against a timer, when a
    timeout is given, is left out: it does not touch [p]. *)
Definition _send_command (data : value) (name : string) (s : session) : sending :=
  if negb (alive s) then Refused (SocketError "Socket Closed")
  else
    match fresh_id (S (size (_inflight s))) name s with
    | None => Probing
    | Some (id, s) =>
        let s := set_inflight ({[id]} ∪ _inflight s) s in
        let p := length (promises s) in
        let s := set_promises (promises s ++ [Unsettled]) s in
        let s := set_eventer (_eventer s ++ [CommandWaiter id p]) s in
        let s := set_sent (sent s ++ [stamp data id]) s in
        Sent id p s
    end.

(** [_send_command_no_response_id(data)]: the waiter is keyed by
    [data.action] alone. *)
Definition _send_command_no_response_id (data : value) (s : session)
    : completion (nat * session) :=
  if negb (alive s) then Throw
  else
    bind (get data "action") (fun action =>
      let p := length (promises s) in
      let s := set_promises (promises s ++ [Unsettled]) s in
      let s := set_eventer (_eventer s ++ [ActionWaiter (toString action) p]) s in
      let s := set_sent (sent s ++ [data]) s in
      Return (p, s)).

(** [on_close(f)] and [listen_to_events(f, filter)] *)
Definition on_close_subscribe (f : nat) (s : session) : session :=
  set_eventer (_eventer s ++ [CloseCallback f]) s.

Definition listen_to_events (f : nat) (filter : value) (s : session) : session :=
  set_eventer (_eventer s ++ [EventCallback f filter]) s.

(** [v == s1 || v == s2 || ...], from left to right up to the first that
    holds. *)
Fixpoint any_loose_eq (v : value) (names : list string) : completion bool :=
  match names with
  | [] => Return false
  | name :: names' =>
      bind (loose_eq v name) (fun b => if b then Return true else any_loose_eq v names')
  end.

Section Receive.

(** [JSON.parse] on the bytes of a frame; [None] when it throws. *)
Variable JSON_parse : list Z -> option value.

(** [_receive_message(raw_data)] *)
Definition _receive_message (raw_data : list Z) (s : session) : completion session :=
  bind (emit "raw" (Data Null) s) (fun s =>
  match JSON_parse raw_data with
  | None => Return s
  | Some data =>
      bind (get data "action") (fun action =>
      bind (loose_eq action "serverinfo") (fun is_serverinfo =>
      if is_serverinfo then
        bind (get data "serverinfo") (fun info =>
        bind (get info "domain") (fun domain =>
        Return (set_server_info domain info s)))
      else
        bind (loose_eq action "userinfo") (fun is_userinfo =>
        if is_userinfo then
          bind (get data "userinfo") (fun info =>
          let s := set_user_info info s in
          Return (set_initialized (resolve Undefined (initialized s)) s))
        else
          bind (any_loose_eq action ["event"; "msg"; "interuser"]) (fun is_event =>
          bind (if is_event then emit "server_event" (Data data) s else Return s) (fun s =>
          bind (get data "responseid") (fun responseid =>
          bind (get data "tag") (fun tag =>
          if truthy responseid || truthy tag then
            emit_key (if truthy responseid then responseid else tag) (Data data) s
          else
            emit_key action (Data data) s)))))))
  end).

End Receive.

(** The ids of the in-flight set, as [for (let id of this._inflight)]
    visits them. *)
Fixpoint emit_each (ids : list string) (data : payload) (s : session) : completion session :=
  match ids with
  | [] => Return s
  | id :: ids' => bind (emit id data s) (emit_each ids' data)
  end.

(** [tunnel.close()] for every entry of the three caches. *)
Definition close_tunnels (s : session) : session :=
  set_closed_tunnels
    (closed_tunnels s
       ++ map snd (_file_tunnels s ++ _shell_tunnels s ++ _smart_shell_tunnels s)) s.

(** The ["close"] handler of the socket. *)
Definition on_socket_close (s : session) : completion session :=
  let s := if negb (resolved (initialized s))
           then set_initialized (reject (Str "Closed") (initialized s)) s else s in
  let s := set_alive false s in
  bind (emit_each (elements (_inflight s)) (Failure (SocketError "Socket Closed")) s) (fun s =>
  bind (emit "close" (Failure (SocketError "Socket Closed")) s) (fun s =>
  Return (close_tunnels s))).

(** The requests that wait for a reply: id and promise. *)
Definition waiting (s : session) : list (string * nat) :=
  omap (fun l => match l with CommandWaiter id p => Some (id, p) | _ => None end)
       (_eventer s).

(** The promise a [once] listener settles. *)
Definition handle_of (l : listener) : option nat :=
  match l with
  | CommandWaiter _ p | ActionWaiter _ p => Some p
  | _ => None
  end.

Definition handles (ls : list listener) : list nat := omap handle_of ls.

Definition command_id_of (l : listener) : option string :=
  match l with CommandWaiter id _ => Some id | _ => None end.

Definition command_ids (ls : list listener) : list string := omap command_id_of ls.

(** A listener that does not wait for any of the promises [ps]. *)
Definition kept (ps : list nat) (l : listener) : Prop :=
  match handle_of l with
  | Some p => p ∉ ps
  | None => True
  end.

#[global] Instance kept_dec ps l : Decision (kept ps l).
Proof. unfold kept. destruct (handle_of l); apply _. Defined.

(** The callbacks of the caller that a round of calls reaches. *)
Definition notifications (ls : list listener) (data : payload) : list (nat * payload) :=
  flat_map (fun l =>
    match l with
    | CloseCallback f => [(f, data)]
    | EventCallback f filter =>
        if truthy filter then
          match Filter._compare_obj filter (payload_value data) with
          | Return true => [(f, data)]
          | _ => []
          end
        else [(f, data)]
    | _ => []
    end) ls.

(** The session after the listeners [ls] have all been called with [data]:
    their waiters are gone from the emitter and from the in-flight set,
    and their promises are settled. *)
Definition fired (ls : list listener) (data : payload) (s : session) : session :=
  mk_session (alive s) (initialized s) (_socket_open s) (_command_id s)
    (_inflight s ∖ list_to_set (command_ids ls))
    (filter (kept (handles ls)) (_eventer s))
    (foldl (fun ps p => settle p data ps) (promises s) (handles ls))
    (_currentDomain s) (_server_info s) (_user_info s)
    (_file_tunnels s) (_shell_tunnels s) (_smart_shell_tunnels s)
    (sent s) (called s ++ notifications ls data) (closed_tunnels s).

(** The bookkeeping of the correlation table is in order: no two
    listeners settle the same promise, the promise of every waiter is
    unsettled, no two waiting requests share an id, the in-flight set holds
    exactly the ids of the waiting requests, every id has the shape the
    template gives it, and the counter is in range. *)
Record consistent (s : session) : Prop := mk_consistent {
  handles_nodup : NoDup (handles (_eventer s));
  handles_unsettled :
    forall p, p ∈ handles (_eventer s) -> promises s !! p = Some Unsettled;
  ids_nodup : NoDup (command_ids (_eventer s));
  inflight_ids : forall id, id ∈ _inflight s <-> id ∈ command_ids (_eventer s);
  ids_shape :
    forall id, id ∈ command_ids (_eventer s) ->
    exists name n, id = command_id_text name n;
  counter_range : 0 <= _command_id s < ID_LIMIT
}.

(** The listeners registered for [topic]. *)
Definition listening (topic : string) (s : session) : list listener :=
  filter (fun l => topic_of l = topic) (_eventer s).

(** The topic [_receive_message] emits a parsed message on: [responseid],
    else [tag], else [action]. *)
Definition reply_topic (data : value) : completion string :=
  bind (get data "action") (fun action =>
  bind (get data "responseid") (fun responseid =>
  bind (get data "tag") (fun tag =>
  Return (toString (if truthy responseid || truthy tag
                    then (if truthy responseid then responseid else tag)
                    else action))))).

(** The key [_receive_message] emits a parsed message on, as a value. *)
Definition reply_key (data : value) : completion value :=
  bind (get data "action") (fun action =>
  bind (get data "responseid") (fun responseid =>
  bind (get data "tag") (fun tag =>
  Return (if truthy responseid || truthy tag
          then (if truthy responseid then responseid else tag)
          else action)))).

(** The session a [_send_command] leaves when the request goes out. *)
Definition after_send (data : value) (name : string) (s : session) : session :=
  match _send_command data name s with
  | Sent _ _ s' => s'
  | _ => s
  end.

(** An open session with two requests waiting for their replies. *)
Definition two_pending : session :=
  after_send (Obj [("action", Str "meshes")]) "list_device_groups"
    (after_send (Obj [("action", Str "nodes")]) "list_devices"
       (on_open (constructed [("node//a", 0%nat)] [("node//b", 1%nat)] []))).

Definition three_pending : session :=
  after_send (Obj [("action", Str "ping")]) "ping" two_pending.

(** A parser that knows one reply, for the examples. *)
Definition one_reply (raw : list Z) : option value :=
  if decide (raw = [123; 125]) then
    Some (Obj [("action", Str "nodes"); ("responseid", Str "meshctrl_list_devices_1")])
  else None.

(** The ["error"] handler of the socket; [code] is [err.code]. *)
Definition on_socket_error (code : value) (s : session) : completion session :=
  let s := set_socket_open (reject code (_socket_open s)) s in
  let s := set_initialized (reject code (initialized s)) s in
  let s := set_alive false s in
  bind (emit_each (elements (_inflight s)) (Failure (SocketError "Socket Error")) s) (fun s =>
  emit "close" (Failure (SocketError "Socket Error")) s).

(** The callbacks registered with [listen_to_events] that take [data]:
    those without a filter and those whose filter matches. *)
Definition subscribers (data : value) (ls : list listener) : list (nat * payload) :=
  omap (fun l =>
    match l with
    | EventCallback f filter =>
        if negb (truthy filter)
           || match Filter._compare_obj filter data with
              | Return matches => matches
              | _ => false
              end
        then Some (f, Data data) else None
    | _ => None
    end) ls.

(** The session a [_send_command_no_response_id] leaves when the request
    goes out. *)
Definition after_send_no_response_id (data : value) (s : session) : session :=
  match _send_command_no_response_id data s with
  | Return (_, s') => s'
  | _ => s
  end.

(** An open session with two requests for the device groups waiting,
    both keyed by the action alone. *)
Definition two_unnamespaced : session :=
  after_send_no_response_id (Obj [("action", Str "meshes")])
    (after_send_no_response_id (Obj [("action", Str "meshes")])
       (on_open (constructed [] [] []))).

(** An open session with three subscribers: one for console messages,
    one without a filter, one for the events of user groups. *)
Definition three_subscribers : session :=
  listen_to_events 1 Filter.ugrp_filter
    (listen_to_events 2 Null
       (listen_to_events 3 (Obj [("action", Str "msg"); ("type", Str "console")])
          (on_open (constructed [] [] [])))).

Definition example_event : value :=
  Obj [("action", Str "event");
       ("event", Obj [("etype", Str "ugrp"); ("action", Str "createusergroup")])].

Definition example_meshes : value :=
  Obj [("action", Str "meshes"); ("meshes", Arr [])].

(** A parser that knows these two messages, for the examples. *)
Definition two_messages (raw : list Z) : option value :=
  if decide (raw = [1]) then Some example_event
  else if decide (raw = [2]) then Some example_meshes
  else None.

(** What [fs.readFileSync(path)] does: it returns the contents, or
    throws an error whose code is [ENOENT], or throws another error. *)
Inductive file_read : Type :=
| FileContents (bytes : list Z)
| ENOENT
| ReadError.

(** [url.endsWith('/')] *)
Definition ends_with_slash (url : string) : bool :=
  match last (list_ascii_of_string url) with
  | Some c => Ascii.eqb c "/"
  | None => false
  end.

Section Constructor.

Variable readFileSync : string -> file_read.

(** The constructor of [Session] up to [this.url = url]: the checks of
    the URL and of the credentials and the handling of the login key.
    With a login key of 160 characters the constructor goes on to read
    [ckey], a variable that is declared nowhere, which throws a
    [ReferenceError]; a login key that is no string makes [readFileSync]
    throw a [TypeError]. *)
Definition constructor_url (url : string) (user password loginkey : value)
    : completion string :=
  if (String.length url <? 5)%nat
     || (negb (String.prefix "wss://" url) && negb (String.prefix "ws://" url))
  then Throw
  else
    let url := if Bool.eqb (ends_with_slash url) false then url +:+ "/" else url in
    let url := url +:+ "control.ashx" in
    if nullish user || (nullish password && nullish loginkey) then Throw
    else if truthy loginkey then
      match loginkey with
      | Str path =>
          match readFileSync path with
          | FileContents bytes =>
              if negb (length bytes =? 160)%nat then Throw else Throw
          | ENOENT =>
              if negb (String.length path =? 160)%nat then Throw else Throw
          | ReadError => Throw
          end
      | _ => Throw
      end
    else Return url.

(** The options [_initialize] builds for the socket: the certificate
    checks are off when [_ignoreSSL] is set, the agent is made from the
    proxy, and the header [x-meshauth] carries the credentials. *)
Record socket_options : Type := mk_socket_options {
  rejectUnauthorized : bool;
  agent : option value;
  x_meshauth : option string
}.

(** What the constructor leaves in [this.url], [this._token] and
    [this._sock]. *)
Record connection : Type := mk_connection {
  connection_url : string;
  connection_token : value;
  connection_options : socket_options
}.

(** Library code: [Buffer.from(text).toString('base64')]; whether
    [new https_proxy_agent(urllib.parse(proxy))] returns, which it does not
    for a proxy that is no string; whether [new ws(url, options)] returns,
    which it does not for a URL the library cannot parse. *)
Variable base64 : string -> string.
Variable https_proxy_agent : value -> bool.
Variable ws : string -> socket_options -> bool.

(** ['' + v] *)
Definition concat_text (v : value) : completion string :=
  if unprintable v then Throw else Return (toString v).

(** [new Session(url, {user, password, loginkey, proxy, token,
    ignoreSSL})]: the constructor, through [_initialize()], which opens
    the socket.  What follows [_initialize()] in the constructor are
    assignments. *)
Definition constructor (url : string) (user password loginkey proxy token : value)
    (ignoreSSL : bool) : completion connection :=
  bind (constructor_url url user password loginkey) (fun url =>
  bind (if negb (nullish token)
        then bind (concat_text token) (fun text => Return (Str ("," +:+ base64 text)))
        else Return token) (fun token =>
  bind (if negb (nullish proxy)
        then if https_proxy_agent proxy then Return (Some proxy) else Throw
        else Return None) (fun agent =>
  bind (if truthy password
        then
          bind (concat_text user) (fun user_text =>
          bind (concat_text password) (fun password_text =>
          Return (Some (base64 user_text +:+ "," +:+ base64 password_text
                        +:+ (if truthy token then toString token else "")))))
        else Return None) (fun header =>
  let options := mk_socket_options (negb ignoreSSL) agent header in
  if ws url options then Return (mk_connection url token options) else Throw)))).

End Constructor.

End Session.

(** ** Enumerations *)

Module Enum.
Import JS.
Export Session(bind, set_prop).

(** [ToInt32]: the 32-bit two's complement value of an integer. *)
Definition int32 (z : Z) : Z := (z + 2 ^ 31) mod 2 ^ 32 - 2 ^ 31.

(** [value << 1], [value >> count] and [a | b] on numbers. *)
Definition shl1 (value : Z) : Z := int32 (Z.shiftl (int32 value) 1).
Definition sar (value count : Z) : Z := Z.shiftr (int32 value) count.
Definition bor (a b : Z) : Z := Z.lor (int32 a) (int32 b).

(** [e[key] = v] for a primitive [v].  An object inherits the accessor
    [__proto__], whose setter takes objects and [null] only: under that
    key nothing is stored. *)
Definition assign (e : list (string * value)) (key : string) (v : value)
    : list (string * value) :=
  if String.eqb key "__proto__" then e else set_prop e key v.

(** [value++] on a number that is an integer.  Numbers are doubles: the
    sum is exact up to [2^53], and beyond it is rounded to the nearest
    number a double holds, to the even one of two. *)
Definition double_succ (value : Z) : Z :=
  if (- 2 ^ 53 <=? value) && (value <? 2 ^ 53) then value + 1
  else if Z.abs value <? 2 ^ 54 then
    (if Z.even (value / 2) then value else value + 2)
  else value.

(** One round of the loop of [_make_enum], on [e] and [value]. *)
Definition enum_round (use_string : bool) (st : list (string * value) * Z)
    (prop : string) : list (string * value) * Z :=
  let '(e, value) := st in
  let e := assign e prop (Num value) in
  let e := if use_string then assign e prop (Str prop) else e in
  (e, double_succ value).

(** [_make_enum(properties, {start_value, use_string})]: the object [e],
    for a [start_value] that is an integer. *)
Definition _make_enum (properties : list string) (start_value : Z) (use_string : bool)
    : value :=
  Obj (fst (fold_left (enum_round use_string) properties ([], start_value))).

(** The loop [while (value>>=1 >= start_value) { all_value |= value }].
    The comparison binds tighter than the assignment: [value] is shifted
    by [1 >= start_value] taken as a number, and the loop goes on while the
    shifted value is not zero.  [None] when the fuel runs out. *)
Fixpoint all_loop (fuel : nat) (start_value value all_value : Z) : option Z :=
  match fuel with
  | O => None
  | S fuel' =>
      let value := sar value (if 1 >=? start_value then 1 else 0) in
      if value =? 0 then Some all_value
      else all_loop fuel' start_value value (bor all_value value)
  end.

(** One round of the first loop of [_make_bitwise_enum]. *)
Definition flag_round (st : list (string * value) * Z) (prop : string)
    : list (string * value) * Z :=
  let '(e, value) := st in (assign e prop (Num value), shl1 value).

(** [_make_bitwise_enum(properties, {all_prop, none_prop, start_value})],
    for a [start_value] that is an integer.  A name [all_prop] or
    [none_prop] that has no text cannot be a property key: the assignment
    throws. *)
Definition _make_bitwise_enum (fuel : nat) (properties : list string)
    (all_prop none_prop : value) (start_value : Z) : completion value :=
  let '(e, value) := fold_left flag_round properties ([], start_value) in
  bind (if truthy all_prop then
          match all_loop fuel start_value value (sar value 1) with
          | Some all_value =>
              if unprintable all_prop then Throw
              else Return (assign e (toString all_prop) (Num all_value))
          | None => OutOfFuel
          end
        else Return e) (fun e =>
  if truthy none_prop then
    if unprintable none_prop then Throw
    else Return (Obj (assign e (toString none_prop) (Num 0)))
  else Return (Obj e)).

(** The enumerations the library exports. *)
Definition PROTOCOL : value :=
  _make_enum ["terminal"; ""; ""; ""; "files"] 1 false.

Definition SHARINGTYPE : value := _make_enum ["desktop"; "terminal"] 0 true.

Definition MESHFEATURES : completion value :=
  _make_bitwise_enum 33 ["autoremove"; "hostnamesync"; "recordsessions"]
                     (Str "all") (Str "none") 1.

End Enum.

(** ** The file tunnel: request queue, upload and download handlers *)

Module Files.
Import JS.
Export Session(deferred, Pending, Resolved, Rejected, resolve, reject, resolved, bind).

(** What the upload handlers keep on a request: [complete], [inflight],
    how many times the stream listeners were attached, and the [_buffer]
    of its chunker. *)
Record upload_state : Type := mk_upload_state {
  complete : bool;
  inflight : Z;
  piped : nat;
  chunker : list Z
}.

(** The [target] stream of a download: the bytes written, and whether
    [end()] was called. *)
Record sink : Type := mk_sink {
  written : list Z;
  ended : bool
}.

(** A request object.  The queue and the closures of the handlers share
    it, so the tunnel keeps every request in a store and refers to it by
    its position there. *)
Record request : Type := mk_request {
  id : string;
  type : string;
  finished : deferred;
  size : Z;
  up : upload_state;
  target : sink
}.

Definition with_finished (d : deferred) (r : request) : request :=
  mk_request (id r) (type r) d (size r) (up r) (target r).
Definition with_size (n : Z) (r : request) : request :=
  mk_request (id r) (type r) (finished r) n (up r) (target r).
Definition with_up (u : upload_state) (r : request) : request :=
  mk_request (id r) (type r) (finished r) (size r) u (target r).
Definition with_target (t : sink) (r : request) : request :=
  mk_request (id r) (type r) (finished r) (size r) (up r) t.

Definition new_request (id type : string) : request :=
  mk_request id type Pending 0 (mk_upload_state false 0 0 []) (mk_sink [] false).

(** What went to [_sock.send]: a stringified object or a buffer. *)
Inductive frame : Type :=
| Json (v : value)
| Binary (bytes : list Z).

(** Why a frame was sent: it opens request [h] (the frame a queued
    continuation sends), or a handler sent it. *)
Inductive origin : Type :=
| Dispatch (h : nat)
| Handler.

(** A continuation on the chain [_download_finished]: the closures [r] of
    [_send_command] and [f] of [upload] and [download].  [listen] says
    whether it registers a [once] listener for the request id. *)
Record thunk : Type := mk_thunk {
  thunk_request : nat;
  thunk_frame : value;
  thunk_listen : option string
}.

Record files : Type := mk_files {
  alive : bool;
  initialized : deferred;
  recorded : option bool;
  _request_id : Z;
  _request_queue : list nat;
  store : list request;
  chain : list thunk;
  awaiting : option nat;
  _eventer : list string;
  wire : list (origin * frame)
}.

Definition set_alive (b : bool) (t : files) : files :=
  mk_files b (initialized t) (recorded t) (_request_id t) (_request_queue t)
    (store t) (chain t) (awaiting t) (_eventer t) (wire t).
Definition set_initialized (d : deferred) (t : files) : files :=
  mk_files (alive t) d (recorded t) (_request_id t) (_request_queue t)
    (store t) (chain t) (awaiting t) (_eventer t) (wire t).
Definition set_recorded (r : option bool) (t : files) : files :=
  mk_files (alive t) (initialized t) r (_request_id t) (_request_queue t)
    (store t) (chain t) (awaiting t) (_eventer t) (wire t).
Definition set_request_id (n : Z) (t : files) : files :=
  mk_files (alive t) (initialized t) (recorded t) n (_request_queue t)
    (store t) (chain t) (awaiting t) (_eventer t) (wire t).
Definition set_queue (q : list nat) (t : files) : files :=
  mk_files (alive t) (initialized t) (recorded t) (_request_id t) q
    (store t) (chain t) (awaiting t) (_eventer t) (wire t).
Definition set_store (s : list request) (t : files) : files :=
  mk_files (alive t) (initialized t) (recorded t) (_request_id t) (_request_queue t)
    s (chain t) (awaiting t) (_eventer t) (wire t).
Definition set_chain (c : list thunk) (t : files) : files :=
  mk_files (alive t) (initialized t) (recorded t) (_request_id t) (_request_queue t)
    (store t) c (awaiting t) (_eventer t) (wire t).
Definition set_awaiting (a : option nat) (t : files) : files :=
  mk_files (alive t) (initialized t) (recorded t) (_request_id t) (_request_queue t)
    (store t) (chain t) a (_eventer t) (wire t).
Definition set_eventer (e : list string) (t : files) : files :=
  mk_files (alive t) (initialized t) (recorded t) (_request_id t) (_request_queue t)
    (store t) (chain t) (awaiting t) e (wire t).
Definition set_wire (w : list (origin * frame)) (t : files) : files :=
  mk_files (alive t) (initialized t) (recorded t) (_request_id t) (_request_queue t)
    (store t) (chain t) (awaiting t) (_eventer t) w.

(** [this._sock.send(...)] *)
Definition send (o : origin) (f : frame) (t : files) : files :=
  set_wire (wire t ++ [(o, f)]) t.

(** A change to the request object [h]. *)
Definition update (h : nat) (f : request -> request) (t : files) : files :=
  set_store (alter f h (store t)) t.

(** The constructor: the chain starts resolved, nothing is queued. *)
Definition constructed : files :=
  mk_files false Pending None 0 [] [] [] None [] [].

(** [PROTOCOL.files] *)
Definition PROTOCOL_files : Z := 5.

(** [_get_request_id]:
    [this._request_id = this._request_id++%(2**32-1); return this._request_id].
    The postfix increment yields the old value and stores the old value
    plus one; the assignment then stores the remainder of the old value. *)
Definition _get_request_id (t : files) : Z * files :=
  let old := _request_id t in
  let t := set_request_id (old + 1) t in
  let t := set_request_id (Z.rem old Session.ID_LIMIT) t in
  (_request_id t, t).

(** Whether the chain is held up: the promise it follows is unsettled. *)
Definition blocked (t : files) : bool :=
  match awaiting t with
  | Some h =>
      match store t !! h with
      | Some r => match finished r with Pending => true | _ => false end
      | None => false
      end
  | None => false
  end.

(** One continuation runs: when the tunnel is alive it sends the frame of
    its request, registers the listener, and returns [request.finished],
    which the chain then follows; otherwise it returns [undefined]. *)
Definition run_thunk (k : thunk) (t : files) : files :=
  if alive t then
    let t := send (Dispatch (thunk_request k)) (Json (thunk_frame k)) t in
    let t := match thunk_listen k with
             | Some topic => set_eventer (_eventer t ++ [topic]) t
             | None => t
             end in
    set_awaiting (Some (thunk_request k)) t
  else set_awaiting None t.

(** The continuations run in order, each once the promise before it has
    settled. *)
Fixpoint run_chain (pending : list thunk) (t : files) : files :=
  match pending with
  | [] => set_chain [] t
  | k :: rest =>
      if blocked t then set_chain pending t
      else run_chain rest (run_thunk k t)
  end.

(** The promise jobs that run before the next event. *)
Definition drain (t : files) : files := run_chain (chain t) t.

(** Queueing: the request is pushed and its continuation is chained with
    [this._download_finished = this._download_finished.then(f, f)]. *)
Definition enqueue (r : request) (frame : value) (listen : option string)
    (t : files) : files :=
  let h := length (store t) in
  let t := set_store (store t ++ [r]) t in
  let t := set_queue (_request_queue t ++ [h]) t in
  set_chain (chain t ++ [mk_thunk h frame listen]) t.

(** [_send_command(data, name)] *)
Definition _send_command (data : value) (name : string) (t : files) : completion files :=
  if negb (alive t) then Throw
  else
    let '(n, t) := _get_request_id t in
    let id := "meshctrl_" +:+ name +:+ "_" +:+ pretty n in
    let frame :=
      match Object_entries data with
      | Return props => Obj (Session.set_prop props "responseid" (Str id))
      | _ => Obj [("responseid", Str id)]
      end in
    Return (enqueue (new_request id name) frame None t).

(** [upload(source, target, {name})]; [readableEnded] is the flag of the
    source stream. *)
Definition upload (readableEnded : bool) (target name : value) (t : files)
    : completion files :=
  if readableEnded then Throw
  else
    let '(n, t) := _get_request_id t in
    let request_id := "upload_" +:+ pretty n in
    let frame := Obj [("action", Str "upload"); ("reqid", Str request_id);
                      ("path", target); ("name", name)] in
    Return (enqueue (new_request request_id "upload") frame (Some request_id) t).

(** [download(source, target)] *)
Definition download (source : value) (t : files) : files :=
  let '(n, t) := _get_request_id t in
  let request_id := "download_" +:+ pretty n in
  let frame := Obj [("action", Str "download"); ("sub", Str "start");
                    ("id", Str request_id); ("path", source)] in
  enqueue (new_request request_id "download") frame (Some request_id) t.

(** The listener that [upload] and [download] register:
    [req = this._request_queue.shift()], then [req.finished] is resolved
    when [data.result == "success"] and rejected otherwise. *)
Definition settle_head (data : value) (t : files) : completion files :=
  match _request_queue t with
  | [] => Throw
  | h :: q =>
      let t := set_queue q t in
      bind (get data "result") (fun result =>
        if loose_eq_str result "success"
        then Return (update h (fun r => with_finished (resolve data (finished r)) r) t)
        else Return (update h (fun r => with_finished (reject data (finished r)) r) t))
  end.

Fixpoint remove_first (topic : string) (ls : list string) : list string :=
  match ls with
  | [] => []
  | l :: ls' => if String.eqb l topic then ls' else l :: remove_first topic ls'
  end.

(** [this._eventer.emit(topic, data)]: every listener registered for the
    topic is taken off and called. *)
Fixpoint call_listeners (n : nat) (topic : string) (data : value) (t : files)
    : completion files :=
  match n with
  | O => Return t
  | S n' =>
      bind (settle_head data (set_eventer (remove_first topic (_eventer t)) t))
           (call_listeners n' topic data)
  end.

Definition emit (topic : string) (data : value) (t : files) : completion files :=
  call_listeners (length (filter (fun l => l = topic) (_eventer t))) topic data t.

Definition outcome (result : string) (r : request) : value :=
  Obj [("result", Str result); ("size", Num (size r))].

Definition uploaddone (r : request) : frame :=
  Json (Obj [("action", Str "uploaddone"); ("reqid", Str (id r))]).

(** The ["data"] listener of the chunker, attached by [uploadstart], on
    the request [h] it closes over. *)
Definition on_chunk (h : nat) (new_buf : list Z) (t : files) : files :=
  match Upload.upload_frame new_buf with
  | Some frame =>
      let t := update h (fun r => with_size (size r + Z.of_nat (length new_buf)) r) t in
      let t := send Handler (Binary frame) t in
      update h (fun r =>
        with_up (mk_upload_state (complete (up r)) (inflight (up r) + 1)
                                 (piped (up r)) (chunker (up r))) r) t
  | None => t
  end.

(** The ["end"] listener of the chunker. *)
Definition on_chunker_end (h : nat) (t : files) : files :=
  let t := update h (fun r =>
             with_up (mk_upload_state true (inflight (up r))
                                      (piped (up r)) (chunker (up r))) r) t in
  match store t !! h with
  | Some r => if inflight (up r) =? 0 then send Handler (uploaddone r) t else t
  | None => t
  end.

Fixpoint repeat_on {A : Type} (n : nat) (f : A -> A) (a : A) : A :=
  match n with
  | O => a
  | S n' => repeat_on n' f (f a)
  end.

(** The chunks [pushed] reach each attached ["data"] listener. *)
Definition deliver (h : nat) (listeners : nat) (pushed : list (list Z)) (t : files) : files :=
  fold_left (fun t c => repeat_on listeners (on_chunk h c) t) pushed t.

(** The source of upload [h] delivers a chunk: each pipe writes it to the
    chunker. *)
Fixpoint source_data (pipes : nat) (h : nat) (chunk : list Z) (t : files)
    : completion files :=
  match pipes with
  | O => Return t
  | S pipes' =>
      match store t !! h with
      | Some r =>
          match Upload._transform Upload.UPLOAD_CHUNK_SIZE (chunker (up r)) chunk with
          | Some (pushed, buffer) =>
              let t := update h (fun r =>
                         with_up (mk_upload_state (complete (up r)) (inflight (up r))
                                                  (piped (up r)) buffer) r) t in
              source_data pipes' h chunk (deliver h (piped (up r)) pushed t)
          | None => OutOfFuel
          end
      | None => Return t
      end
  end.

(** The source of upload [h] ends: the chunker flushes and ends. *)
Definition source_end (h : nat) (t : files) : files :=
  match store t !! h with
  | Some r =>
      if (0 <? piped (up r))%nat then
        let t := deliver h (piped (up r)) (Upload._flush (chunker (up r))) t in
        repeat_on (piped (up r)) (on_chunker_end h) t
      else t
  | None => t
  end.

Section Handlers.

(** [JSON.parse] on the text of a frame; [None] when it throws. *)
Variable JSON_parse : list Z -> option value.

(** [_handle_upload(raw_data, req)] with [req] the request [h]. *)
Definition _handle_upload (raw_data : list Z) (h : nat) (t : files) : completion files :=
  match JSON_parse raw_data, store t !! h with
  | Some cmd, Some req =>
      bind (get cmd "reqid") (fun reqid =>
      bind (loose_eq reqid (id req)) (fun same_id =>
      if same_id then
        bind (get cmd "action") (fun action =>
        bind (loose_eq action "uploaddone") (fun is_done =>
        if is_done then
          emit (id req) (outcome "success" req) t
        else if strict_eq_str action "uploadstart" then
          Return (update h (fun r =>
            with_up (mk_upload_state (complete (up r)) (inflight (up r))
                                     (S (piped (up r))) (chunker (up r))) r) t)
        else if strict_eq_str action "uploadack" then
          let t := update h (fun r =>
                     with_up (mk_upload_state (complete (up r)) (inflight (up r) - 1)
                                              (piped (up r)) (chunker (up r))) r) t in
          if complete (up req) && (inflight (up req) - 1 =? 0)
          then Return (send Handler (uploaddone req) t)
          else Return t
        else
          bind (loose_eq action "uploaderror") (fun is_error =>
          if is_error then emit (id req) (outcome "error" req) t
          else Return t)))
      else Return t))
  | _, _ => Return t
  end.

(** The acknowledgment of a download frame. *)
Definition download_ack (req : request) : frame :=
  Json (Obj [("action", Str "download"); ("sub", Str "ack"); ("id", Str (id req))]).

Definition download_startack (req : request) : frame :=
  Json (Obj [("action", Str "download"); ("sub", Str "startack"); ("id", Str (id req))]).

(** [raw_data[3] & 1]; a missing byte reads [undefined], which [&] takes
    as 0. *)
Definition end_flag (raw_data : list Z) : Z :=
  match raw_data !! 3%nat with
  | Some b => Z.land b 1
  | None => 0
  end.

(** [req.target.end()] *)
Definition end_target (r : request) : request :=
  with_target (mk_sink (written (target r)) true) r.

(** [_handle_download(raw_data, req)] with [req] the request [h].  A frame
    that does not parse, or that parses to [null], is data. *)
Definition _handle_download (raw_data : list Z) (h : nat) (t : files) : completion files :=
  match store t !! h with
  | None => Return t
  | Some req =>
      match JSON_parse raw_data with
      | None | Some Null =>
          let t :=
            if (4 <? length raw_data)%nat then
              update h (fun r =>
                with_size (size r + (Z.of_nat (length raw_data) - 4))
                  (with_target (mk_sink (written (target r) ++ Buffer.slice_from raw_data 4)
                                        (ended (target r))) r)) t
            else t in
          if negb (end_flag raw_data =? 0) then
            let t := update h end_target t in
            match store t !! h with
            | Some req => emit (id req) (outcome "success" req) t
            | None => Return t
            end
          else Return (send Handler (download_ack req) t)
      | Some cmd =>
          bind (get cmd "action") (fun action =>
          bind (loose_eq action "download") (fun is_download =>
          if is_download then
            bind (get cmd "id") (fun cid =>
            bind (loose_eq cid (id req)) (fun same_id =>
            if negb same_id then Return t
            else
              bind (get cmd "sub") (fun sub =>
              bind (loose_eq sub "start") (fun is_start =>
              if is_start then
                Return (send Handler (download_startack req) t)
              else
                bind (loose_eq sub "cancel") (fun is_cancel =>
                if is_cancel then
                  let t := update h end_target t in
                  emit (id req) (outcome "canceled" req) t
                else Return t)))))
          else Return t))
      end
  end.

(** [_handle_action(raw_data)] *)
Definition _handle_action (raw_data : list Z) (t : files) : completion files :=
  match JSON_parse raw_data with
  | None => Throw
  | Some data =>
      match _request_queue t with
      | [] => Throw
      | h :: q =>
          Return (update h (fun r => with_finished (resolve data (finished r)) r)
                         (set_queue q t))
      end
  end.

(** [raw_data.toString() == "cr"] *)
Definition is_cr (raw_data : list Z) : bool :=
  bool_decide (raw_data = [99; 114]).

(** [_receive_message(raw_data)], with [flag] what
    [this.initialized.resolved] reads.  [_Deferred] sets that flag in a
    reaction of its promise, which is a promise job: during one turn of
    the event loop the flag keeps the value it had when the turn began,
    also when [resolve()] is called in that turn. *)
Definition receive (flag : bool) (raw_data : list Z) (t : files) : completion files :=
  if flag then
    match _request_queue t with
    | [] => Return t
    | h :: _ =>
        let head_type := default "" (type <$> store t !! h) in
        if Buffer.byte_is raw_data 0 123
           && negb (String.eqb head_type "upload" || String.eqb head_type "download")
        then _handle_action raw_data t
        else if String.eqb head_type "upload" then _handle_upload raw_data h t
        else if String.eqb head_type "download" then _handle_download raw_data h t
        else Return t
    end
  else
    let t := set_recorded (Some (is_cr raw_data)) t in
    let t := send Handler (Binary [53]) t in
    let t := set_initialized (resolve Undefined (initialized t)) t in
    Return (set_alive true t).

(** [_receive_message(raw_data)] on a frame that arrives in a turn of its
    own: the promise jobs of the turns before have run, so the flag is
    set exactly when [initialized] is resolved. *)
Definition _receive_message (raw_data : list Z) (t : files) : completion files :=
  receive (resolved (initialized t)) raw_data t.

(** The frames that the socket hands over in one turn, one call of
    [_receive_message] after the other with no promise job in between. *)
Fixpoint receive_turn (flag : bool) (frames : list (list Z)) (t : files)
    : completion files :=
  match frames with
  | [] => Return t
  | raw_data :: rest => bind (receive flag raw_data t) (receive_turn flag rest)
  end.

(** [_on_close]: every queued request is rejected. *)
Definition _on_close (t : files) : files :=
  fold_left (fun t h =>
               update h (fun r => with_finished
                                    (reject (Str "Socket closed") (finished r)) r) t)
            (_request_queue t) (set_queue [] t).

(** What can happen to a file tunnel, one turn of the event loop each.
    [Message] is a frame that arrives alone, [Frames] are the frames that
    arrive together (the socket read several of them at once). *)
Inductive event : Type :=
| CallCommand (data : value) (name : string)
| CallUpload (readableEnded : bool) (target name : value)
| CallDownload (source : value)
| Message (raw_data : list Z)
| Frames (frames : list (list Z))
| SocketClose
| SocketError
| SessionSettles (ok : bool) (data : value)
| SourceData (h : nat) (chunk : list Z)
| SourceEnd (h : nat).

(** The listeners that [mkdir], [rm] and [rename] put on the session:
    on the event they wait for they shift the queue and settle that
    request. *)
Definition session_settles (ok : bool) (data : value) (t : files) : completion files :=
  match _request_queue t with
  | [] => Throw
  | h :: q =>
      Return (update h (fun r =>
                with_finished ((if ok then resolve else reject) data (finished r)) r)
              (set_queue q t))
  end.

(** The frames an event delivers. *)
Definition frames_of (e : event) : list (list Z) :=
  match e with
  | Message raw_data => [raw_data]
  | Frames frames => frames
  | _ => []
  end.

(** One event, which is one turn of the event loop; the promise jobs
    that follow it run in [step]. *)
Definition handle (e : event) (t : files) : completion files :=
  match e with
  | CallCommand data name =>
      (* a rejected call leaves the tunnel as it is *)
      match _send_command data name t with Return t' => Return t' | _ => Return t end
  | CallUpload readableEnded target name =>
      match upload readableEnded target name t with Return t' => Return t' | _ => Return t end
  | CallDownload source => Return (download source t)
  | Message raw_data => _receive_message raw_data t
  | Frames frames => receive_turn (resolved (initialized t)) frames t
  | SocketClose =>
      let t := set_alive false t in
      Return (if resolved (initialized t) then _on_close t else t)
  | SocketError => Return (set_alive false t)
  | SessionSettles ok data => session_settles ok data t
  | SourceData h chunk =>
      match store t !! h with
      | Some r => source_data (piped (up r)) h chunk t
      | None => Return t
      end
  | SourceEnd h => Return (source_end h t)
  end.

Definition step (e : event) (t : files) : completion files :=
  bind (handle e t) (fun t => Return (drain t)).

(** A run of events; an uncaught exception ends it. *)
Fixpoint run (es : list event) (t : files) : completion files :=
  match es with
  | [] => Return t
  | e :: es' => bind (step e t) (run es')
  end.

End Handlers.

(** The requests whose opening frame is on the wire, in the order sent. *)
Definition dispatched (t : files) : list nat :=
  omap (fun sf => match fst sf with Dispatch h => Some h | Handler => None end) (wire t).

(** The frames that handlers sent, in the order sent. *)
Definition handler_frames (w : list (origin * frame)) : list frame :=
  omap (fun sf => match fst sf with Handler => Some (snd sf) | Dispatch _ => None end) w.

(** The request's promise has settled. *)
Definition settled (t : files) (h : nat) : Prop :=
  exists r, store t !! h = Some r /\ finished r <> Pending.

(** [r'] is a later state of the request object [r]: same id and type,
    and a settled promise stays as it is. *)
Definition later_request (r r' : request) : Prop :=
  id r' = id r /\ type r' = type r
  /\ (finished r <> Pending -> finished r' = finished r).

(** The footprint of a handler: it leaves the chain, the dispatched
    frames and the counter alone and only moves request objects on. *)
Record quiet (t t' : files) : Prop := mk_quiet {
  quiet_chain : chain t' = chain t;
  quiet_awaiting : awaiting t' = awaiting t;
  quiet_dispatched : dispatched t' = dispatched t;
  quiet_counter : _request_id t' = _request_id t;
  quiet_length : length (store t') = length (store t);
  quiet_store :
    forall h r, store t !! h = Some r ->
    exists r', store t' !! h = Some r' /\ later_request r r'
}.

(** The order the queue keeps, for the continuations [pending]: the
    requests whose frame went out, followed by those still chained, are
    numbered in increasing order and are in the store; every dispatched
    request but the last has settled; and the chain follows the last
    dispatched request, or nothing once all have settled. *)
Record orderly_with (pending : list thunk) (t : files) : Prop := mk_orderly {
  orderly_sorted :
    StronglySorted lt (dispatched t ++ map thunk_request pending);
  orderly_bound :
    Forall (fun h => (h < length (store t))%nat)
           (dispatched t ++ map thunk_request pending);
  orderly_settled :
    forall h, h ∈ dispatched t -> last (dispatched t) <> Some h -> settled t h;
  orderly_awaiting :
    match awaiting t with
    | Some h => last (dispatched t) = Some h
    | None => forall h, h ∈ dispatched t -> settled t h
    end
}.

Definition orderly (t : files) : Prop := orderly_with (chain t) t.

(** The ids a file tunnel gives its requests. *)
Definition stuck_id (r : request) : Prop :=
  id r = "upload_0" \/ id r = "download_0"
  \/ id r = "meshctrl_" +:+ type r +:+ "_0".

(** The counter of a file tunnel and the ids it has given. *)
Definition stuck (t : files) : Prop :=
  _request_id t = 0 /\ Forall stuck_id (store t).

(** The low bit of the fourth header byte of a frame is set. *)
Definition is_final (raw_data : list Z) : bool :=
  match raw_data !! 3%nat with
  | Some b => Z.odd b
  | None => false
  end.

(** The download [req], request [h], is the active request of the tunnel:
    it heads the queue, the chain follows its promise, which is unsettled,
    and the listener of its dispatch is the only one under its id. *)
Record downloading (h : nat) (req : request) (t : files) : Prop := mk_downloading {
  dl_initialized : resolved (initialized t) = true;
  dl_head : exists q, _request_queue t = h :: q;
  dl_request : store t !! h = Some req;
  dl_type : type req = "download";
  dl_pending : finished req = Pending;
  dl_awaiting : awaiting t = Some h;
  dl_listener : filter (fun l => l = id req) (_eventer t) = [id req]
}.

(** A parser under which no frame is JSON text, and a run for the
    examples: the tunnel is initialised, a download and a directory
    listing are queued, and the download receives three data frames and a
    final one. *)
Definition binary_only (raw_data : list Z) : option value := None.

Definition example_frames : list (list Z) :=
  [[1; 0; 0; 0; 104; 101]; [1; 0; 0; 0; 108]; [1; 0; 0; 0; 108; 111; 32]].

Definition example_final : list Z := [1; 0; 0; 1; 33].

Definition example_queue : list event :=
  [Message [99]; CallDownload (Str "/tmp/a");
   CallCommand (Obj [("action", Str "ls"); ("path", Str "/tmp")]) "ls"].

Definition example_downloading : files :=
  match run binary_only example_queue constructed with
  | Return t => t
  | _ => constructed
  end.

Definition example_done : files :=
  match run binary_only (map Message (example_frames ++ [example_final]))
            example_downloading with
  | Return t => t
  | _ => constructed
  end.

(** Request [h] is rejected as [_on_close] does it. *)
Definition closed_out (r : request) : request :=
  with_finished (reject (Str "Socket closed") (finished r)) r.

(** The simple request [req], request [h], is the active request of the
    tunnel: it heads the queue, it is neither an upload nor a download,
    its promise is unsettled and the chain follows it, and the requests
    whose continuations are chained behind it are unsettled. *)
Record acting (h : nat) (req : request) (t : files) : Prop := mk_acting {
  act_initialized : resolved (initialized t) = true;
  act_alive : alive t = true;
  act_head : exists q, _request_queue t = h :: q;
  act_request : store t !! h = Some req;
  act_type : type req <> "upload" /\ type req <> "download";
  act_pending : finished req = Pending;
  act_awaiting : awaiting t = Some h;
  act_chain :
    Forall (fun k => thunk_request k <> h
                     /\ exists r, store t !! thunk_request k = Some r
                                  /\ finished r = Pending) (chain t)
}.

(** What a state shares with an earlier one when only request objects
    and the wire have changed. *)
Record steady (t t' : files) : Prop := mk_steady {
  steady_alive : alive t' = alive t;
  steady_initialized : initialized t' = initialized t;
  steady_queue : _request_queue t' = _request_queue t;
  steady_chain : chain t' = chain t;
  steady_awaiting : awaiting t' = awaiting t;
  steady_eventer : _eventer t' = _eventer t
}.

(** [r'] is the upload [r] after [bytes] more bytes in [frames] more
    frames. *)
Definition moved_on (bytes frames : Z) (r r' : request) : Prop :=
  id r' = id r /\ type r' = type r /\ finished r' = finished r
  /\ target r' = target r
  /\ size r' = size r + bytes
  /\ inflight (up r') = inflight (up r) + frames
  /\ complete (up r') = complete (up r)
  /\ piped (up r') = piped (up r)
  /\ chunker (up r') = chunker (up r).

(** The upload [req], request [h], is the active request of the tunnel
    and its source is piped into its chunker, once. *)
Record uploading (h : nat) (req : request) (t : files) : Prop := mk_uploading {
  ul_initialized : resolved (initialized t) = true;
  ul_head : exists q, _request_queue t = h :: q;
  ul_request : store t !! h = Some req;
  ul_type : type req = "upload";
  ul_pending : finished req = Pending;
  ul_awaiting : awaiting t = Some h;
  ul_listener : filter (fun l => l = id req) (_eventer t) = [id req];
  ul_piped : piped (up req) = 1%nat
}.

(** A parser for the examples: [{}] is an empty listing, [{c}] cancels
    the download of the examples, [{s}], [{a}] and [{d}] start, acknowledge
    and finish the upload of the examples; anything else is no JSON
    text. *)
Definition example_replies (raw_data : list Z) : option value :=
  if decide (raw_data = [123; 125]) then Some (Obj [("dir", Arr [])])
  else if decide (raw_data = [123; 99; 125]) then
    Some (Obj [("action", Str "download"); ("sub", Str "cancel");
               ("id", Str "download_0")])
  else if decide (raw_data = [123; 115; 125]) then
    Some (Obj [("action", Str "uploadstart"); ("reqid", Str "upload_0")])
  else if decide (raw_data = [123; 97; 125]) then
    Some (Obj [("action", Str "uploadack"); ("reqid", Str "upload_0")])
  else if decide (raw_data = [123; 100; 125]) then
    Some (Obj [("action", Str "uploaddone"); ("reqid", Str "upload_0")])
  else None.

(** A tunnel with two directory listings queued, the first one out. *)
Definition example_listing : files :=
  match run binary_only
            [Message [99];
             CallCommand (Obj [("action", Str "ls"); ("path", Str "/tmp")]) "ls";
             CallCommand (Obj [("action", Str "ls"); ("path", Str "/etc")]) "ls"]
            constructed with
  | Return t => t
  | _ => constructed
  end.

(** A tunnel with an upload started: the agent has answered with
    [uploadstart] and the source is piped into the chunker. *)
Definition example_uploading : files :=
  match run example_replies
            [Message [99]; CallUpload false (Str "/tmp/x") Null; Message [123; 115; 125]]
            constructed with
  | Return t => t
  | _ => constructed
  end.

(** The same once the source has delivered three bytes and ended. *)
Definition example_streamed : files :=
  match run example_replies (map (SourceData 0) [[123; 1]; [2]] ++ [SourceEnd 0])
            example_uploading with
  | Return t => t
  | _ => constructed
  end.

(** What an initialised tunnel keeps for good: [initialized] and
    [recorded] stay, and the wire only grows. *)
Record settled_in (t t' : files) : Prop := mk_settled_in {
  kept_initialized : initialized t' = initialized t;
  kept_recorded : recorded t' = recorded t;
  kept_wire : exists w, wire t' = wire t ++ w
}.

(** The text of the frame by which the agent starts the upload of the
    examples: an object with [action] [uploadstart] and [reqid]
    [upload_0]; and the text of the frame by which it reports that the
    upload failed, with [action] [uploaderror]. *)
Definition uploadstart_text : list Z :=
  [123; 34; 97; 99; 116; 105; 111; 110; 34; 58; 34; 117; 112; 108; 111; 97;
  100; 115; 116; 97; 114; 116; 34; 44; 34; 114; 101; 113; 105; 100; 34; 58;
  34; 117; 112; 108; 111; 97; 100; 95; 48; 34; 125].

Definition uploaderror_text : list Z :=
  [123; 34; 97; 99; 116; 105; 111; 110; 34; 58; 34; 117; 112; 108; 111; 97;
  100; 101; 114; 114; 111; 114; 34; 44; 34; 114; 101; 113; 105; 100; 34; 58;
  34; 117; 112; 108; 111; 97; 100; 95; 48; 34; 125].

(** A parser that knows these two texts. *)
Definition error_replies (raw_data : list Z) : option value :=
  if decide (raw_data = uploadstart_text) then
    Some (Obj [("action", Str "uploadstart"); ("reqid", Str "upload_0")])
  else if decide (raw_data = uploaderror_text) then
    Some (Obj [("action", Str "uploaderror"); ("reqid", Str "upload_0")])
  else None.

(** An upload that the agent starts and then refuses, with a download
    queued behind it. *)
Definition example_refused : list event :=
  [Message [99]; CallUpload false (Str "/tmp/x") Null; Message uploadstart_text;
   CallDownload (Str "/tmp/a"); Message uploaderror_text].

(** A parser that knows the empty object [{}] and takes nothing else for
    JSON text. *)
Definition empty_reply (raw_data : list Z) : option value :=
  if decide (raw_data = [123; 125]) then Some (Obj []) else None.

(** A download that a listener of [mkdir] settles, the reply to the
    [mkdir], and a second download. *)
Definition example_stale : list event :=
  [Message [99]; CallDownload (Str "/tmp/a");
   CallCommand (Obj [("action", Str "mkdir"); ("path", Str "/tmp/d")]) "mkdir";
   SessionSettles true (Bool true); Message [123; 125];
   CallDownload (Str "/tmp/b")].

End Files.
(** ** The relay handshake of a tunnel *)

Module Tunnel.
Import JS.
Export Session(deferred, Pending, Resolved, Rejected, resolve, reject, resolved, bind).

(** A secondary socket, as [new ws(url, options)] builds it. *)
Record socket : Type := mk_socket {
  socket_url : string;
  rejectUnauthorized : bool;
  agent : option string
}.

(** What the handshake reads from the session object. *)
Record session_settings : Type := mk_settings {
  session_url : string;
  _ignoreSSL : bool;
  _proxy : option string
}.

(** Where [_initialize] stands: which promise of the session its next
    callback waits for.  [Stalled] is a rejected promise without a handler:
    no callback will run. *)
Inductive stage : Type :=
| Created
| AwaitingCookie (p : nat)
| AwaitingRelayAck (p : nat) (data : value)
| Connecting
| Stalled.

Record tunnel : Type := mk_tunnel {
  node_id : string;
  _protocol : Z;
  _tunnel_id : option string;
  url : option string;
  _socket_open : deferred;
  initialized : deferred;
  alive : bool;
  _sock : option socket;
  progress : stage
}.

(** The constructor of [_Tunnel]. *)
Definition constructed (node_id : string) (protocol : Z) : tunnel :=
  mk_tunnel node_id protocol None None Pending Pending false None Created.

Definition set_progress (st : stage) (t : tunnel) : tunnel :=
  mk_tunnel (node_id t) (_protocol t) (_tunnel_id t) (url t) (_socket_open t)
            (initialized t) (alive t) (_sock t) st.

(** What a replacement text stands for when the pattern is a string,
    which has no captures: [$$] is a dollar sign, [$&] the match, [$`] the
    text before the match and [$'] the text after it; a dollar sign before
    anything else, a digit too, stands for itself. *)
Fixpoint get_substitution (matched before after template : string) : string :=
  match template with
  | EmptyString => EmptyString
  | String c rest =>
      if negb (Ascii.eqb c "$") then
        String c (get_substitution matched before after rest)
      else
        match rest with
        | EmptyString => String c EmptyString
        | String d rest' =>
            if Ascii.eqb d "$" then
              String "$" (get_substitution matched before after rest')
            else if Ascii.eqb d "&" then
              matched +:+ get_substitution matched before after rest'
            else if Ascii.eqb d "`" then
              before +:+ get_substitution matched before after rest'
            else if Ascii.eqb d "'" then
              after +:+ get_substitution matched before after rest'
            else String c (get_substitution matched before after rest)
        end
  end.

(** [s.replace(pattern, replacement)] for a pattern that is a string, from
    the position that [before] runs up to: the first occurrence is
    replaced by what the replacement stands for there. *)
Fixpoint replace_from (pattern replacement before s : string) : string :=
  if String.prefix pattern s
  then
    let after := String.substring (String.length pattern)
                   (String.length s - String.length pattern) s in
    get_substitution pattern before after replacement +:+ after
  else match s with
       | EmptyString => EmptyString
       | String c s' =>
           String c (replace_from pattern replacement
                       (before +:+ String c EmptyString) s')
       end.

Definition replace_first (pattern replacement s : string) : string :=
  replace_from pattern replacement "" s.

(** No dollar sign occurs in the text. *)
Fixpoint no_dollar (s : string) : bool :=
  match s with
  | EmptyString => true
  | String c s' => negb (Ascii.eqb c "$") && no_dollar s'
  end.

Fixpoint contains_slash (s : string) : bool :=
  match s with
  | EmptyString => false
  | String c s' => Ascii.eqb c "/" || contains_slash s'
  end.

Section Handshake.

(** Whether a text without a slash converts to the number 3, which is
    when [node_id.split('/') != 3] is false. *)
Variable is_three : string -> bool.

Variable settings : session_settings.

(** [_initialize]: the request for the auth cookie goes out. *)
Definition _initialize (s : Session.session) (t : tunnel) : Session.session * tunnel :=
  match Session._send_command_no_response_id (Obj [("action", Str "authcookie")]) s with
  | Return (p, s') => (s', set_progress (AwaitingCookie p) t)
  | _ => (s, set_progress Stalled t)
  end.

(** The callback on the cookie reply [data]; [random_hex] is what
    [_getRandomHex(6)] returns. *)
Definition on_authcookie (random_hex : string) (data : value)
    (s : Session.session) (t : tunnel) : completion (Session.session * tunnel) :=
  let node :=
    if negb (negb (contains_slash (node_id t)) && is_three (node_id t))
       && negb (nullish (Session._currentDomain s))
    then "node/" +:+ toString (Session._currentDomain s) +:+ "/" +:+ node_id t
    else node_id t in
  bind (get data "rcookie") (fun rcookie =>
    let request :=
      Obj [("action", Str "msg"); ("nodeid", Str node); ("type", Str "tunnel");
           ("usage", Num 1);
           ("value", Str ("*/meshrelay.ashx?p=" +:+ pretty (_protocol t)
                          +:+ "&nodeid=" +:+ node +:+ "&id=" +:+ random_hex
                          +:+ "&rauth=" +:+ toString rcookie))] in
    let t := mk_tunnel node (_protocol t) (Some random_hex) (url t) (_socket_open t)
                       (initialized t) (alive t) (_sock t) (progress t) in
    match Session._send_command request "initialize_shell" s with
    | Session.Sent _ p s' => Return (s', set_progress (AwaitingRelayAck p data) t)
    | _ => Return (s, set_progress Stalled t)
    end).

(** The callback on the reply [data2] to the relay request; [data] is the
    cookie reply. *)
Definition on_relay_reply (data data2 : value) (t : tunnel) : completion tunnel :=
  bind (get data2 "result") (fun result =>
    if negb (strict_eq_str result "OK") then
      Return (mk_tunnel (node_id t) (_protocol t) (_tunnel_id t) (url t)
                        (reject data2 (_socket_open t)) (reject data2 (initialized t))
                        (alive t) (_sock t) Stalled)
    else
      bind (get data "cookie") (fun cookie =>
        let u := replace_first "/control.ashx"
                   ("/meshrelay.ashx?browser=1&p=" +:+ pretty (_protocol t)
                    +:+ "&nodeid=" +:+ node_id t
                    +:+ "&id=" +:+ default "null" (_tunnel_id t)
                    +:+ "&auth=" +:+ toString cookie)
                   (session_url settings) in
        Return (mk_tunnel (node_id t) (_protocol t) (_tunnel_id t) (Some u)
                          (_socket_open t) (initialized t) (alive t)
                          (Some (mk_socket u (negb (_ignoreSSL settings)) (_proxy settings)))
                          Connecting))).

(** The promise jobs of the handshake: the callback of the stage runs
    once the promise it waits for is fulfilled. *)
Definition advance (random_hex : string) (s : Session.session) (t : tunnel)
    : completion (Session.session * tunnel) :=
  match progress t with
  | AwaitingCookie p =>
      match Session.promises s !! p with
      | Some (Session.Fulfilled data) => on_authcookie random_hex data s t
      | Some (Session.Failed _) => Return (s, set_progress Stalled t)
      | _ => Return (s, t)
      end
  | AwaitingRelayAck p data =>
      match Session.promises s !! p with
      | Some (Session.Fulfilled data2) =>
          bind (on_relay_reply data data2 t) (fun t => Return (s, t))
      | Some (Session.Failed _) => Return (s, set_progress Stalled t)
      | _ => Return (s, t)
      end
  | _ => Return (s, t)
  end.

End Handshake.

(** An example: the server hands out the cookies and then refuses the
    relay. *)
Definition example_settings : session_settings :=
  mk_settings "wss://mesh.example/control.ashx" false None.

Definition example_cookie : value :=
  Obj [("action", Str "authcookie"); ("cookie", Str "c1"); ("rcookie", Str "r1")].

Definition example_refusal : value :=
  Obj [("action", Str "msg"); ("type", Str "tunnel"); ("result", Str "Denied");
       ("responseid", Str "meshctrl_initialize_shell_1")].

Definition example_parse (raw : list Z) : option value :=
  if decide (raw = [1]) then Some example_cookie
  else if decide (raw = [2]) then Some example_refusal
  else None.

Definition example_is_three (s : string) : bool := String.eqb s "3".

(** The session and the tunnel once the relay request is out. *)
Definition example_awaiting_ack : completion (Session.session * tunnel) :=
  let s := Session.on_open (Session.constructed [] [] []) in
  let '(s, t) := _initialize s (constructed "abc" 1) in
  bind (Session._receive_message example_parse [1] s) (fun s =>
  advance example_is_three example_settings "0a1b2c3d4e5f" s t).

(** The same after the refusal has arrived. *)
Definition example_refused : completion (Session.session * tunnel) :=
  bind example_awaiting_ack (fun st =>
  bind (Session._receive_message example_parse [2] (fst st)) (fun s =>
  advance example_is_three example_settings "0a1b2c3d4e5f" s (snd st))).

(** Whether [pattern] is absent from [base ++ tail] at every position
    of [base]. *)
Fixpoint clear_before (pattern base tail : string) : bool :=
  match base with
  | EmptyString => true
  | String c base' =>
      negb (String.prefix pattern (base +:+ tail)) && clear_before pattern base' tail
  end.

(** A cookie reply and an acceptance, for the examples. *)
Definition example_acceptance : value :=
  Obj [("action", Str "msg"); ("type", Str "tunnel"); ("result", Str "OK");
       ("responseid", Str "meshctrl_initialize_shell_1")].

(** The session and the tunnel once the cookie reply has arrived. *)
Definition example_cookie_session : Session.session :=
  let s := Session.on_open (Session.constructed [] [] []) in
  match Session._receive_message example_parse [1]
          (fst (_initialize s (constructed "abc" 1))) with
  | Return s' => s'
  | _ => s
  end.

Definition example_cookie_tunnel : tunnel :=
  snd (_initialize (Session.on_open (Session.constructed [] [] []))
                   (constructed "abc" 1)).

End Tunnel.

(** ** The shell: buffered reads and expect *)

Module Shell.

(** *** [Buffer.toString()]: UTF-8 bytes to UTF-16 code units *)

(** The decoder between characters, or inside one: the bits read so far,
    how many continuation bytes are still due, and the range the next one
    must lie in. *)
Record partial : Type := mk_partial {
  code_point : Z;
  needed : nat;
  lower : Z;
  upper : Z
}.

(** A code point as UTF-16: itself, or a surrogate pair. *)
Definition code_units (cp : Z) : list Z :=
  if cp <? 65536 then [cp]
  else [55296 + Z.shiftr (cp - 65536) 10; 56320 + Z.land (cp - 65536) 1023].

Definition REPLACEMENT : Z := 65533.

(** A byte met between characters. *)
Definition lead (b : Z) : list Z * option partial :=
  if b <=? 127 then ([b], None)
  else if (194 <=? b) && (b <=? 223) then ([], Some (mk_partial (Z.land b 31) 1 128 191))
  else if (224 <=? b) && (b <=? 239) then
    ([], Some (mk_partial (Z.land b 15) 2
                 (if b =? 224 then 160 else 128) (if b =? 237 then 159 else 191)))
  else if (240 <=? b) && (b <=? 244) then
    ([], Some (mk_partial (Z.land b 7) 3
                 (if b =? 240 then 144 else 128) (if b =? 244 then 143 else 191)))
  else ([REPLACEMENT], None).

(** The decoder: an ill-formed sequence becomes one U+FFFD and the byte
    that broke it is read again as a first byte. *)
Fixpoint decode (bytes : list Z) (st : option partial) : list Z :=
  match bytes with
  | [] => match st with Some _ => [REPLACEMENT] | None => [] end
  | b :: rest =>
      match st with
      | None => let '(out, st') := lead b in out ++ decode rest st'
      | Some p =>
          if (lower p <=? b) && (b <=? upper p) then
            let cp := Z.lor (Z.shiftl (code_point p) 6) (Z.land b 63) in
            match needed p with
            | S (S n) => decode rest (Some (mk_partial cp (S n) 128 191))
            | _ => code_units cp ++ decode rest None
            end
          else
            let '(out, st') := lead b in REPLACEMENT :: out ++ decode rest st'
      end
  end.

Definition toString (buffer : list Z) : list Z := decode buffer None.

(** *** Regular expressions *)

(** A regular expression without the global flag, by what
    [text.match(regex)] finds: [index] and the length of [m[0]], both in
    code units. *)
Definition regex : Type := list Z -> option (nat * nat).

Fixpoint starts_with (pattern text : list Z) : bool :=
  match pattern, text with
  | [], _ => true
  | p :: pattern', c :: text' => (p =? c) && starts_with pattern' text'
  | _ :: _, [] => false
  end.

Fixpoint search_from (pattern text : list Z) (index : nat) : option (nat * nat) :=
  if starts_with pattern text then Some (index, length pattern)
  else match text with
       | [] => None
       | _ :: text' => search_from pattern text' (S index)
       end.

(** The regular expression that matches the text [pattern] literally. *)
Definition literal (pattern : list Z) : regex :=
  fun text => search_from pattern text 0.

(** *** [read] *)

(** How a promise of the shell settles. *)
Inductive settlement : Type :=
| Resolve (data : list Z)
| Reject (reason : string) (data : option (list Z)).

(** What one run of [check_data] does: it settles the promise or calls
    [setTimeout(check_data, 100)]. *)
Inductive polled : Type :=
| Settled (s : settlement)
| Again.

(** A [length] handed to [slice]: [null] counts as 0. *)
Definition slice_arg (length : option Z) : Z := default 0 length.

(** [(timeout !== null && new Date() - start > timeout) || this._sock.readyState > 1] *)
Definition gives_up (timeout : option Z) (elapsed readyState : Z) : bool :=
  match timeout with
  | Some limit => (limit <? elapsed) || (1 <? readyState)
  | None => 1 <? readyState
  end.

Definition reason_of (readyState : Z) : string :=
  if readyState <? 2 then "timeout" else "closed".

(** [check_data] of [read(length, timeout, return_intermediate)], run
    [elapsed] milliseconds after the call with the socket in [readyState]:
    the outcome and the new [_buffer]. *)
Definition read_check (length timeout : option Z) (return_intermediate : bool)
    (elapsed readyState : Z) (_buffer : list Z) : polled * list Z :=
  if gives_up timeout elapsed readyState then
    if return_intermediate then
      (Settled (Reject (reason_of readyState)
                       (Some (Buffer.slice _buffer 0 (slice_arg length)))),
       Buffer.slice_from _buffer (slice_arg length))
    else (Settled (Reject (reason_of readyState) None), _buffer)
  else
    match length with
    | Some n =>
        if Z.of_nat (List.length _buffer) <? n then (Again, _buffer)
        else (Settled (Resolve (Buffer.slice _buffer 0 n)), Buffer.slice_from _buffer n)
    | None => (Settled (Resolve _buffer), Buffer.alloc 0)
    end.

(** What a run of [check_data] finds: the time since the call, the state
    of the socket, and the bytes that reached the buffer since the run
    before. *)
Record tick : Type := mk_tick {
  elapsed : Z;
  readyState : Z;
  arrived : list Z
}.

(** [read] over the runs of [check_data] that [ticks] describes; [None]
    while the promise is still unsettled after the last of them. *)
Fixpoint read (ticks : list tick) (length timeout : option Z)
    (return_intermediate : bool) (_buffer : list Z) : option (settlement * list Z) :=
  match ticks with
  | [] => None
  | k :: ticks' =>
      match read_check length timeout return_intermediate (elapsed k) (readyState k)
                       (_buffer ++ arrived k) with
      | (Settled s, b) => Some (s, b)
      | (Again, b) => read ticks' length timeout return_intermediate b
      end
  end.

(** *** [expect] *)

(** What one run of the [check_data] of [expect] does: it settles, it
    polls again, or its promise now hangs on a [read] that is still
    polling ([Reads n] on [this.read(n)], [Drains reason] on
    [this.read(1024, 100, true)]), or on a [read] that was rejected and
    has no handler ([Stuck]). *)
Inductive expect_polled : Type :=
| ExpectSettled (s : settlement)
| ExpectAgain
| Reads (n : Z)
| Drains (reason : string)
| Stuck.

Definition expect_check (pattern : regex) (timeout : option Z)
    (return_intermediate : bool) (elapsed readyState : Z) (_buffer : list Z)
    : expect_polled * list Z :=
  if gives_up timeout elapsed readyState then
    if return_intermediate then
      match read_check (Some 1024) (Some 100) true 0 readyState _buffer with
      | (Settled (Resolve data), b) =>
          (ExpectSettled (Reject (reason_of readyState) (Some data)), b)
      | (Settled (Reject _ data), b) =>
          (ExpectSettled (Reject (reason_of readyState) data), b)
      | (Again, b) => (Drains (reason_of readyState), b)
      end
    else (ExpectSettled (Reject (reason_of readyState) None), _buffer)
  else
    match pattern (toString _buffer) with
    | Some (index, len) =>
        let n := Z.of_nat (index + len) in
        match read_check (Some n) None false 0 readyState _buffer with
        | (Settled (Resolve data), b) => (ExpectSettled (Resolve data), b)
        | (Settled (Reject _ _), b) => (Stuck, b)
        | (Again, b) => (Reads n, b)
        end
    | None => (ExpectAgain, _buffer)
    end.

(** The bytes of the buffer through the end of the match: the UTF-8
    length of the text up to there. *)
Fixpoint utf8_length (units : list Z) : nat :=
  match units with
  | [] => O
  | u :: units' =>
      (if u <? 128 then 1
       else if u <? 2048 then 2
       else if (55296 <=? u) && (u <? 57344) then 2
       else 3) + utf8_length units'
  end.

Definition through_match (_buffer : list Z) (index len : nat) : list Z :=
  take (utf8_length (take (index + len) (toString _buffer))) _buffer.

(** Examples: the text of the specification, and a prompt in French. *)
Definition READY : list Z := [82; 69; 65; 68; 89; 10].

Definition foo_READY_bar : list Z :=
  [102; 111; 111; 32; 82; 69; 65; 68; 89; 10; 98; 97; 114].

(** The UTF-8 bytes of "é READY", a line feed, and "bar". *)
Definition e_acute_READY_bar : list Z :=
  [195; 169; 32; 82; 69; 65; 68; 89; 10; 98; 97; 114].

(** *** [Buffer.from(string)]: UTF-16 code units to UTF-8 bytes *)

(** A lone surrogate becomes U+FFFD. *)
Fixpoint encode (units : list Z) : list Z :=
  match units with
  | [] => []
  | u :: rest =>
      if u <? 128 then u :: encode rest
      else if u <? 2048 then
        (192 + Z.shiftr u 6) :: (128 + Z.land u 63) :: encode rest
      else if (55296 <=? u) && (u <? 56320) then
        match rest with
        | low :: rest' =>
            if (56320 <=? low) && (low <? 57344) then
              let cp := 65536 + Z.shiftl (u - 55296) 10 + (low - 56320) in
              (240 + Z.shiftr cp 18) :: (128 + Z.land (Z.shiftr cp 12) 63)
              :: (128 + Z.land (Z.shiftr cp 6) 63) :: (128 + Z.land cp 63)
              :: encode rest'
            else 239 :: 191 :: 189 :: encode rest
        | [] => [239; 191; 189]
        end
      else if (56320 <=? u) && (u <? 57344) then 239 :: 191 :: 189 :: encode rest
      else
        (224 + Z.shiftr u 12) :: (128 + Z.land (Z.shiftr u 6) 63)
        :: (128 + Z.land u 63) :: encode rest
  end.

(** The code units of a text of 7-bit characters. *)
Definition units_of (s : string) : list Z :=
  map (fun c => Z.of_nat (nat_of_ascii c)) (list_ascii_of_string s).

(** *** The shell object *)

Record shell : Type := mk_shell {
  initialized : Session.deferred;
  alive : bool;
  recorded : option bool;
  _protocol : Z;
  _buffer : list Z;
  sent : list (list Z)
}.

(** The constructor, with [PROTOCOL.terminal]. *)
Definition constructed : shell := mk_shell Session.Pending false None 1 [] [].

(** [write(command)]: [this._sock.send(Buffer.from(command))] *)
Definition write (command : list Z) (t : shell) : shell :=
  mk_shell (initialized t) (alive t) (recorded t) (_protocol t) (_buffer t)
           (sent t ++ [encode command]).

(** The text that a control command starts with:
    an opening brace, then [ctrlChannel] and [102938], both quoted, a
    comma, and [type], quoted, a colon and a quote. *)
Definition CONTROL_PREFIX : list Z :=
  [123; 34; 99; 116; 114; 108; 67; 104; 97; 110; 110; 101; 108; 34; 58; 34;
   49; 48; 50; 57; 51; 56; 34; 44; 34; 116; 121; 112; 101; 34; 58; 34].

(** [v == '102938']: a string compares by content, a number by value, an
    array or object through its text, and the comparison throws when there
    is no such text. *)
Definition loose_eq_102938 (v : JS.value) : JS.completion bool :=
  match v with
  | JS.Str s => JS.Return (String.eqb s "102938")
  | JS.Num n => JS.Return (n =? 102938)
  | JS.Arr _ | JS.Obj _ | JS.SetOf _ =>
      if JS.unprintable v then JS.Throw
      else JS.Return (String.eqb (JS.toString v) "102938")
  | _ => JS.Return false
  end.

Section Receive.

(** [JSON.parse] on a text; [None] when it throws. *)
Variable JSON_parse : list Z -> option JS.value.

(** Whether [_receive_message] takes the text [data] for a control
    command: it starts like one, and [(ctrlCmd != null) &&
    (ctrlCmd.ctrlChannel == '102938') && (ctrlCmd.type != null)]. *)
Definition is_control (data : list Z) : JS.completion bool :=
  if starts_with CONTROL_PREFIX data then
    match JSON_parse data with
    | Some ctrlCmd =>
        if JS.nullish ctrlCmd then JS.Return false
        else
          Session.bind (JS.get ctrlCmd "ctrlChannel") (fun channel =>
          Session.bind (loose_eq_102938 channel) (fun same_channel =>
          if same_channel then
            Session.bind (JS.get ctrlCmd "type") (fun type =>
            JS.Return (negb (JS.nullish type)))
          else JS.Return false))
    | None => JS.Return false
    end
  else JS.Return false.

(** [_receive_message(raw_data)], with [flag] what
    [this.initialized.resolved] reads.  [_Deferred] sets that flag in a
    reaction of its promise, which is a promise job: during one turn of
    the event loop the flag keeps the value it had when the turn began,
    also when [resolve()] is called in that turn. *)
Definition receive (flag : bool) (raw_data : list Z) (t : shell) : JS.completion shell :=
  let data := toString raw_data in
  if flag then
    Session.bind (is_control data) (fun control =>
    if control then JS.Return t
    else JS.Return (mk_shell (initialized t) (alive t) (recorded t) (_protocol t)
                             (_buffer t ++ encode data) (sent t)))
  else
    let t := mk_shell (initialized t) (alive t)
                      (Some (bool_decide (data = units_of "cr")))
                      (_protocol t) (_buffer t) (sent t) in
    let t := write (units_of (pretty (_protocol t))) t in
    JS.Return (mk_shell (Session.resolve JS.Undefined (initialized t)) true (recorded t)
                        (_protocol t) (_buffer t) (sent t)).

(** [_receive_message(raw_data)] on a frame that arrives in a turn of its
    own: the promise jobs of the turns before have run, so the flag is
    set exactly when [initialized] is resolved. *)
Definition _receive_message (raw_data : list Z) (t : shell) : JS.completion shell :=
  receive (Session.resolved (initialized t)) raw_data t.

(** The shell after the frames have arrived, in order, each in a turn of
    its own.  A handler that throws has not touched the shell. *)
Definition receive_all (frames : list (list Z)) (t : shell) : shell :=
  fold_left (fun t raw_data =>
               match _receive_message raw_data t with
               | JS.Return t' => t'
               | _ => t
               end) frames t.

(** The frames that the socket hands over in one turn, with no promise
    job in between. *)
Fixpoint receive_frames (flag : bool) (frames : list (list Z)) (t : shell)
    : JS.completion shell :=
  match frames with
  | [] => JS.Return t
  | raw_data :: frames' =>
      Session.bind (receive flag raw_data t) (receive_frames flag frames')
  end.

Definition receive_turn (frames : list (list Z)) (t : shell) : JS.completion shell :=
  receive_frames (Session.resolved (initialized t)) frames t.

(** The turns in which frames arrive, in order. *)
Fixpoint receive_turns (turns : list (list (list Z))) (t : shell)
    : JS.completion shell :=
  match turns with
  | [] => JS.Return t
  | frames :: turns' => Session.bind (receive_turn frames t) (receive_turns turns')
  end.

End Receive.

(** *** The smart shell *)

(** [command.endsWith("\n")] and the command that is written. *)
Definition ends_with_newline (command : list Z) : bool :=
  match last command with
  | Some u => u =? 10
  | None => false
  end.

Definition command_line (command : list Z) : list Z :=
  if ends_with_newline command then command else command ++ [10].

(** The callback of [send_command] on the data that [expect] resolved
    with: [data.slice(0, m.index)], a [TypeError] when the text of the
    data has no match. *)
Definition before_prompt (pattern : regex) (data : list Z) : JS.completion (list Z) :=
  match pattern (toString data) with
  | Some (index, _) => JS.Return (Buffer.slice data 0 (Z.of_nat index))
  | None => JS.Throw
  end.

(** [send_command(command)] up to the first run of the [check_data] of
    its [expect], made with the socket in [readyState]: the command is
    written, and when that run resolves the promise the callback gives
    the result; [None] while the promise is unsettled. *)
Definition send_command (pattern : regex) (command : list Z) (readyState : Z)
    (t : shell) : option (JS.completion (list Z)) * shell :=
  let t := write (command_line command) t in
  match expect_check pattern None false 0 readyState (_buffer t) with
  | (ExpectSettled (Resolve data), b) =>
      (Some (before_prompt pattern data),
       mk_shell (initialized t) (alive t) (recorded t) (_protocol t) b (sent t))
  | (ExpectSettled (Reject _ _), b) =>
      (Some JS.Throw,
       mk_shell (initialized t) (alive t) (recorded t) (_protocol t) b (sent t))
  | (_, b) =>
      (None, mk_shell (initialized t) (alive t) (recorded t) (_protocol t) b (sent t))
  end.

(** The prompt of the examples, a dollar sign and a space, and a terminal
    that shows the output of [pwd] and the prompt. *)
Definition PROMPT : list Z := [36; 32].

Definition example_terminal : list (list Z) :=
  [[99; 114]; [47; 116; 109; 112; 10]; [36; 32]].

End Shell.

(** * Values *)

Module JSFacts.
Import JS.
Export Session(bind).

Lemma loose_eq_printable v s :
  unprintable v = false -> loose_eq v s = Return (loose_eq_str v s).
Proof. intros Hv. unfold loose_eq. by rewrite Hv. Qed.

Lemma loose_eq_str_printable v s : loose_eq_str v s = true -> unprintable v = false.
Proof.
  destruct v; try done; unfold loose_eq_str; intros Hv;
    apply andb_true_iff in Hv as [Hv _]; by apply negb_true_iff in Hv.
Qed.

Lemma loose_eq_holds v s : loose_eq_str v s = true -> loose_eq v s = Return true.
Proof.
  intros Hv. rewrite loose_eq_printable by (by eapply loose_eq_str_printable).
  by rewrite Hv.
Qed.

Lemma loose_eq_returns v s b : loose_eq v s = Return b -> loose_eq_str v s = b.
Proof.
  unfold loose_eq. destruct (unprintable v); [done|]. by intros [= <-].
Qed.

Lemma primitive_printable v : instanceof_Object v = false -> unprintable v = false.
Proof. by destruct v. Qed.

Lemma loose_eq_Str x s : loose_eq (Str x) s = Return (String.eqb x s).
Proof. done. Qed.

End JSFacts.
(** * Properties *)

(** ** Buffers *)

Module BufferFacts.
Import Buffer.

Lemma length_alloc n : length (alloc n) = n.
Proof. apply length_replicate. Qed.

Lemma slice_nonneg (b : list Z) (s e : nat) :
  (s <= e)%nat -> (e <= length b)%nat ->
  slice b (Z.of_nat s) (Z.of_nat e) = take (e - s) (drop s b).
Proof.
  intros Hse He. unfold slice, adjustOffset.
  destruct (Z.ltb_spec (Z.of_nat s) 0); [lia|].
  destruct (Z.ltb_spec (Z.of_nat e) 0); [lia|].
  rewrite !Z.min_l by lia.
  replace (Z.to_nat (Z.of_nat e - Z.of_nat s)) with (e - s)%nat by lia.
  by rewrite Nat2Z.id.
Qed.

Lemma slice_from_nonneg (b : list Z) (s : nat) :
  slice_from b (Z.of_nat s) = drop s b.
Proof.
  unfold slice_from, slice, adjustOffset.
  destruct (Z.ltb_spec (Z.of_nat s) 0); [lia|].
  destruct (Z.ltb_spec (Z.of_nat (length b)) 0); [lia|].
  rewrite Z.min_id.
  destruct (Nat.le_gt_cases s (length b)) as [Hle|Hgt].
  - rewrite Z.min_l by lia. rewrite Nat2Z.id.
    apply take_ge. rewrite length_drop. lia.
  - rewrite Z.min_r by lia. rewrite Nat2Z.id.
    rewrite !drop_ge by lia. by rewrite take_nil.
Qed.

(** Copying at offset 1 into a longer zeroed buffer. *)
Lemma copy_alloc_1 (src : list Z) (n : nat) :
  (length src < n)%nat ->
  copy src (alloc n) 1 = 0 :: src ++ replicate (n - 1 - length src) 0.
Proof.
  intros Hlen. unfold copy, alloc. rewrite length_replicate.
  rewrite Nat.min_l by lia.
  rewrite take_replicate, drop_replicate, firstn_all.
  rewrite Nat.min_l by lia.
  replace (n - (1 + length src))%nat with (n - 1 - length src)%nat by lia.
  reflexivity.
Qed.

End BufferFacts.

(** ** The upload chunker and encoder *)

Module UploadFacts.
Import Buffer BufferFacts Upload.

(** *** The chunker *)

Lemma transform_loop_spec chunksize buffer :
  (0 < chunksize)%nat ->
  forall fuel chunk_start pushed,
  (0 < fuel)%nat -> (length buffer < chunk_start + fuel)%nat ->
  Forall (fun c => length c = chunksize) pushed ->
  exists pushed' chunk_start',
    transform_loop fuel chunksize buffer chunk_start pushed
      = Some (pushed', chunk_start')
    /\ Forall (fun c => length c = chunksize) pushed'
    /\ (chunk_start <= chunk_start')%nat
    /\ (length buffer <= chunk_start' + chunksize)%nat
    /\ (chunk_start <= length buffer -> chunk_start' <= length buffer)%nat.
Proof.
  intros Hpos fuel. induction fuel as [|fuel IH]; intros chunk_start pushed Hfuel0 Hfuel Hall.
  - lia.
  - simpl. destruct (Nat.ltb_spec (chunk_start + chunksize) (length buffer)) as [Hlt|Hge].
    + destruct (IH (chunk_start + chunksize)%nat
                  (pushed ++ [Buffer.slice buffer (Z.of_nat chunk_start)
                                (Z.of_nat (chunk_start + chunksize))]))
        as (p' & c' & Heq & Hall' & Hle & Hend & Hin).
      * lia.
      * lia.
      * apply Forall_app. split; [done|]. constructor; [|constructor].
        rewrite slice_nonneg by lia.
        rewrite length_take, length_drop. lia.
      * exists p', c'. repeat split; try done; lia.
    + exists pushed, chunk_start. repeat split; try done; lia.
Qed.

Lemma _transform_spec chunksize _buffer chunk :
  (0 < chunksize)%nat ->
  exists pushed _buffer',
    _transform chunksize _buffer chunk = Some (pushed, _buffer')
    /\ Forall (fun c => length c = chunksize) pushed
    /\ (length _buffer' <= chunksize)%nat.
Proof.
  intros Hpos. unfold _transform.
  destruct (transform_loop_spec chunksize (_buffer ++ chunk) Hpos
              (S (length (_buffer ++ chunk))) 0 [])
    as (p & c & Heq & Hall & _ & Hend & _); [lia|lia|constructor|].
  rewrite Heq. exists p, (Buffer.slice_from (_buffer ++ chunk) (Z.of_nat c)).
  repeat split; try done.
  rewrite slice_from_nonneg, length_drop. lia.
Qed.

(** The chunker always finishes, and no chunk exceeds the chunk size. *)
Lemma chunker_run_spec chunksize inputs :
  (0 < chunksize)%nat ->
  forall _buffer, (length _buffer <= chunksize)%nat ->
  exists out, chunker_run chunksize _buffer inputs = Some out
    /\ Forall (fun c => (length c <= chunksize)%nat) out.
Proof.
  intros Hpos. induction inputs as [|chunk inputs IH]; intros _buffer Hbuf.
  - exists [_buffer]. split; [done|]. by repeat constructor.
  - simpl. destruct (_transform_spec chunksize _buffer chunk Hpos)
      as (p & b' & Heq & Hall & Hb'). rewrite Heq.
    destruct (IH b' Hb') as (later & Hlater & Hall'). rewrite Hlater.
    exists (p ++ later). split; [done|].
    apply Forall_app. split; [|done].
    eapply Forall_impl; [exact Hall|]. simpl. intros c Hc. lia.
Qed.

Lemma upload_chunks_total inputs :
  exists out, upload_chunks inputs = Some out
    /\ Forall (fun c => (length c <= UPLOAD_CHUNK_SIZE)%nat) out.
Proof.
  apply chunker_run_spec; unfold UPLOAD_CHUNK_SIZE; simpl; lia.
Qed.

(** *** The encoder *)

Lemma encode_chunk_cons alloc b rest :
  (length (b :: rest) < alloc)%nat ->
  encode_chunk alloc (b :: rest)
  = Some (if (b =? 0) || (b =? 123) then 0 :: b :: rest else b :: rest).
Proof.
  intros Hlen. unfold encode_chunk.
  rewrite copy_alloc_1 by done.
  change (0 <? length (b :: rest))%nat with true. cbv iota.
  unfold Buffer.byte_is. change ((0 :: (b :: rest) ++ _) !! 1%nat) with (Some b).
  set (tail := replicate (alloc - 1 - length (b :: rest)) 0).
  destruct ((b =? 0) || (b =? 123)).
  - unfold Buffer.set. change (<[0%nat:=0]> (0 :: (b :: rest) ++ tail))
      with (0 :: (b :: rest) ++ tail).
    rewrite slice_nonneg.
    + rewrite drop_0, Nat.sub_0_r.
      change (0 :: (b :: rest) ++ tail) with ((0 :: b :: rest) ++ tail).
      rewrite take_app_length'; [done|]. simpl. lia.
    + lia.
    + simpl. rewrite length_app. simpl. lia.
  - rewrite slice_nonneg.
    + replace (1 + length (b :: rest) - 1)%nat with (length (b :: rest)) by lia.
      change (drop 1 (0 :: (b :: rest) ++ tail)) with ((b :: rest) ++ tail).
      by rewrite take_app_length.
    + lia.
    + simpl. rewrite length_app. simpl. lia.
Qed.

Lemma upload_frame_cons b rest :
  (length (b :: rest) <= UPLOAD_CHUNK_SIZE)%nat ->
  upload_frame (b :: rest)
  = Some (if (b =? 0) || (b =? 123) then 0 :: b :: rest else b :: rest).
Proof.
  intros Hlen. apply encode_chunk_cons.
  unfold UPLOAD_CHUNK_SIZE, UPLOAD_FRAME_ALLOC in *. lia.
Qed.

(** C1 as stated fails: a chunk that starts with 0x41 is sent as it is, so
    the first wire byte of its frame is 0x41 and not 0x00. *)
Lemma upload_frame_0x41_sent_bare :
  upload_chunks [[65; 66]] = Some [[65; 66]]
  /\ upload_frame [65; 66] = Some [65; 66]
  /\ ~ frame_as_specified [65; 66] [65; 66].
Proof.
  split; [by vm_compute|]. split.
  - by rewrite upload_frame_cons by (unfold UPLOAD_CHUNK_SIZE; simpl; lia).
  - simpl. intros (H0 & _). discriminate H0.
Qed.

(** C1, amended: for every non-empty chunk the upload chunker emits, the
    frame handed to the socket is the chunk with one extra leading 0x00 byte
    when the chunk starts with 0x00 or 0x7B, and the chunk itself, unchanged
    in content and length, otherwise; in either case the first wire byte of
    the frame is not the sentinel 0x7B of a JSON control frame, and it is
    0x00 exactly when the chunk was escaped. *)
Theorem upload_frame_escapes_leading_sentinel inputs out chunk :
  upload_chunks inputs = Some out -> chunk ∈ out -> chunk <> [] ->
  exists b rest frame,
    chunk = b :: rest
    /\ upload_frame chunk = Some frame
    /\ frame = (if (b =? 0) || (b =? 123) then 0 :: chunk else chunk)
    /\ frame !! 0%nat <> Some 123
    /\ (frame !! 0%nat = Some 0 <-> frame = 0 :: chunk).
Proof.
  intros Hout Hin Hne.
  destruct (upload_chunks_total inputs) as (out' & Hout' & Hall).
  rewrite Hout in Hout'. injection Hout' as <-.
  rewrite Forall_forall in Hall. specialize (Hall chunk Hin).
  destruct chunk as [|b rest]; [done|].
  exists b, rest. eexists. split; [done|]. split; [by apply upload_frame_cons|].
  split; [done|].
  destruct (Z.eqb_spec b 0) as [->|Hb0]; simpl.
  - split; [discriminate|]. split; done.
  - destruct (Z.eqb_spec b 123) as [->|Hb123]; simpl.
    + split; [discriminate|]. split; done.
    + split; [congruence|]. split.
      * intros [= ->]. done.
      * intros [= -> _]. done.
Qed.

Lemma upload_frame_escapes_leading_sentinel_witness :
  exists b rest frame,
    [123; 34; 97] = b :: rest
    /\ upload_frame [123; 34; 97] = Some frame
    /\ frame = (if (b =? 0) || (b =? 123) then 0 :: [123; 34; 97] else [123; 34; 97])
    /\ frame !! 0%nat <> Some 123
    /\ (frame !! 0%nat = Some 0 <-> frame = 0 :: [123; 34; 97]).
Proof.
  apply (upload_frame_escapes_leading_sentinel [[123; 34]; [97]] [[123; 34; 97]]).
  - by vm_compute.
  - apply list_elem_of_here.
  - discriminate.
Defined.

End UploadFacts.

(** ** The structural event filter *)

Module FilterFacts.
Import JS Filter.

Lemma for_of_returns {A B : Type} (P : A -> Prop) (body : A -> option (completion B))
    (l : list A) :
  Forall P l ->
  (forall x, P x -> body x = None \/ exists b, body x = Some (Return b)) ->
  for_of l body = None \/ exists b, for_of l body = Some (Return b).
Proof.
  intros Hall Hbody. induction Hall as [|x l Hx _ IH]; simpl; [by left|].
  destruct (Hbody x Hx) as [-> | [b ->]]; [exact IH | right; by exists b].
Qed.

Lemma depth_elems_lt (elems : list value) (v : value) :
  v ∈ elems ->
  (depth v <= (fix go (l : list value) : nat :=
                 match l with [] => O | x :: l' => Nat.max (depth x) (go l') end) elems)%nat.
Proof.
  induction 1 as [x l | x y l _ IH]; simpl in *; lia.
Qed.

Lemma depth_props_lt (props : list (string * value)) (k : string) (v : value) :
  (k, v) ∈ props ->
  (depth v <= (fix go (l : list (string * value)) : nat :=
                 match l with [] => O | (_, x) :: l' => Nat.max (depth x) (go l') end) props)%nat.
Proof.
  induction props as [|[k' x] props IH]; intros Hin.
  - by apply elem_of_nil in Hin.
  - apply elem_of_cons in Hin as [[= -> ->] | Hin]; [lia|].
    specialize (IH Hin). simpl in *. lia.
Qed.

Lemma imap_pretty_snd {A : Type} (l : list A) (f : nat -> nat) (k : string) (v : A) :
  (k, v) ∈ imap (fun i x => (pretty (f i), x)) l -> v ∈ l.
Proof.
  revert f. induction l as [|x l IH]; intros f; simpl.
  - intros H. by apply elem_of_nil in H.
  - intros H. apply elem_of_cons in H as [[= _ ->] | H]; [apply list_elem_of_here|].
    apply list_elem_of_further. exact (IH (f ∘ S) H).
Qed.

(** An entry of an object-like value that is itself an object lies
    strictly deeper. *)
Lemma entries_depth (obj : value) (entries : list (string * value)) :
  Object_entries obj = Return entries ->
  Forall (fun kv => instanceof_Object (snd kv) = true ->
                    (depth (snd kv) < depth obj)%nat) entries.
Proof.
  intros Hent. apply Forall_forall. intros [k v] Hin Hobj. simpl in *.
  destruct obj; simpl in Hent; try discriminate; injection Hent as <-.
  - by apply elem_of_nil in Hin.
  - by apply elem_of_nil in Hin.
  - assert (Hv : v ∈ chars s) by exact (imap_pretty_snd (chars s) id k v Hin).
    exfalso. clear Hin. induction s as [|c s IH]; simpl in Hv.
    + by apply elem_of_nil in Hv.
    + apply elem_of_cons in Hv as [-> | Hv]; [discriminate | auto].
  - apply (imap_pretty_snd elems id) in Hin.
    apply depth_elems_lt in Hin. simpl. lia.
  - apply depth_props_lt in Hin. simpl. lia.
  - by apply elem_of_nil in Hin.
Qed.

Lemma truthy_not_nullish v : truthy v = true -> nullish v = false.
Proof. by destruct v. Qed.

Lemma instanceof_Object_not_nullish v : instanceof_Object v = true -> nullish v = false.
Proof. by destruct v. Qed.

Lemma get_returns v key : nullish v = false -> exists x, get v key = Return x.
Proof.
  destruct v; simpl; try discriminate; intros _; eauto;
    destruct (String.eqb key _); eauto.
Qed.

(** With fuel above the depth of the predicate the comparison returns, and
    it throws only on a [null] or [undefined] argument. *)
Lemma compare_fuel_returns (fuel : nat) :
  forall obj1 obj2,
  (depth obj1 < fuel)%nat -> nullish obj1 = false -> nullish obj2 = false ->
  exists b, compare_fuel fuel obj1 obj2 = Return b.
Proof.
  induction fuel as [|fuel IH]; intros obj1 obj2 Hfuel Hn1 Hn2; [lia|].
  simpl. destruct (Object_entries obj1) as [entries| |] eqn:Hent;
    [|by destruct obj1|by destruct obj1].
  pose proof (entries_depth obj1 entries Hent) as Hdepth.
  match goal with |- context [for_of entries ?b] => set (body := b) end.
  destruct (for_of_returns _ body entries Hdepth) as [-> | [b ->]]; eauto.
  intros [key val] Hval. simpl in Hval. unfold body.
  destruct (get_returns obj2 key Hn2) as [obj2_key ->].
  destruct (truthy obj2_key) eqn:Htruthy; simpl; [|right; eauto].
  destruct (instanceof_Object val) eqn:Hobj.
  - destruct (IH val obj2_key) as [b Hb].
    + specialize (Hval eq_refl). lia.
    + by apply instanceof_Object_not_nullish.
    + by apply truthy_not_nullish.
    + rewrite Hb. destruct b; [by left | right; eauto].
  - assert (instanceof_Set val = false) as -> by by destruct val.
    assert (instanceof_Array val = false) as -> by by destruct val.
    destruct (strict_eq obj2_key val); simpl; [by left | right; eauto].
Qed.

Lemma _compare_obj_returns obj1 obj2 :
  nullish obj1 = false -> nullish obj2 = false ->
  exists b, _compare_obj obj1 obj2 = Return b.
Proof. intros. apply compare_fuel_returns; [lia|done|done]. Qed.

Lemma ugrp_filter_examples :
  _compare_obj ugrp_filter
    (Obj [("event", Obj [("etype", Str "ugrp"); ("other", Num 1)])]) = Return true
  /\ _compare_obj ugrp_filter (Obj [("event", Obj [("etype", Str "node")])])
     = Return false.
Proof. split; reflexivity. Qed.

(** C6: the code departs from the documented filter.  An array-valued
    entry [{a: [1]}] matches the longer candidate [{a: [1, 2]}], and a
    set-valued entry [{a: Set{ {x: 1} }}] matches [{a: [{x: 2}]}], none of
    whose elements matches: the [Set] and [Array] branches of
    [_compare_obj] come after the [instanceof Object] test, which both
    kinds of value pass.  A key whose candidate value is falsy counts as
    absent, so [{a: 0}] does not match [{a: 0}]. *)
Theorem _compare_obj_ignores_length_and_sets :
  (_compare_obj (Obj [("a", Arr [Num 1])]) (Obj [("a", Arr [Num 1; Num 2])])
     = Return true
   /\ documented_match (Obj [("a", Arr [Num 1])]) (Obj [("a", Arr [Num 1; Num 2])])
     = false)
  /\ (_compare_obj (Obj [("a", SetOf [Obj [("x", Num 1)]])])
                   (Obj [("a", Arr [Obj [("x", Num 2)]])]) = Return true
      /\ documented_match (Obj [("a", SetOf [Obj [("x", Num 1)]])])
                          (Obj [("a", Arr [Obj [("x", Num 2)]])]) = false)
  /\ (_compare_obj (Obj [("a", Num 0)]) (Obj [("a", Num 0)]) = Return false
      /\ documented_match (Obj [("a", Num 0)]) (Obj [("a", Num 0)]) = true).
Proof. repeat split; vm_compute; reflexivity. Qed.

End FilterFacts.

(** ** The session: correlated requests *)

Module SessionFacts.
Import JS Session.

(** *** The command counter and the probing loop *)

Lemma _get_command_id_eq s :
  _get_command_id s
  = (Z.rem (_command_id s + 1) ID_LIMIT,
     set_command_id (Z.rem (_command_id s + 1) ID_LIMIT) s).
Proof. reflexivity. Qed.

Lemma counter_step c : 0 <= c < ID_LIMIT ->
  Z.rem (c + 1) ID_LIMIT = ((c + 1) mod ID_LIMIT)
  /\ 0 <= ((c + 1) mod ID_LIMIT) < ID_LIMIT.
Proof.
  intros Hc. unfold ID_LIMIT in *. split.
  - apply Z.rem_mod_nonneg; lia.
  - apply Z.mod_pos_bound. lia.
Qed.

Lemma command_id_text_inj name : Inj (=) (=) (command_id_text name).
Proof.
  intros n m Heq. unfold command_id_text in Heq.
  do 3 apply (inj (String.app _)) in Heq.
  by apply (inj pretty) in Heq.
Qed.

Lemma fresh_id_S fuel name s :
  fresh_id (S fuel) name s
  = let n := Z.rem (_command_id s + 1) ID_LIMIT in
    if decide (command_id_text name n ∈ _inflight (set_command_id n s))
    then fresh_id fuel name (set_command_id n s)
    else Some (command_id_text name n, set_command_id n s).
Proof. reflexivity. Qed.

(** What a successful probe returns. *)
Lemma fresh_id_some fuel name : forall s id s',
  fresh_id fuel name s = Some (id, s') ->
  (id ∉ _inflight s)
  /\ id = command_id_text name (_command_id s')
  /\ s' = set_command_id (_command_id s') s
  /\ (0 <= _command_id s < ID_LIMIT -> 0 <= _command_id s' < ID_LIMIT).
Proof.
  induction fuel as [|fuel IH]; intros s id s' Heq; [discriminate|].
  rewrite fresh_id_S in Heq. cbv zeta in Heq.
  set (n := Z.rem (_command_id s + 1) ID_LIMIT) in *.
  destruct (decide (command_id_text name n ∈ _inflight (set_command_id n s)))
    as [Hin|Hnin].
  - destruct (IH _ _ _ Heq) as (H1 & H2 & H3 & H4).
    split; [exact H1|]. split; [exact H2|]. split.
    + rewrite H3. by destruct s.
    + intros Hc. apply H4. simpl. subst n.
      destruct (counter_step _ Hc) as [-> ?]. done.
  - injection Heq as <- <-. simpl. split; [exact Hnin|]. split; [done|].
    split; [done|]. intros Hc. subst n.
    destruct (counter_step _ Hc) as [-> ?]. done.
Qed.

(** When the probe gives up, every id it tried is in flight. *)
Lemma fresh_id_none fuel name : forall s,
  0 <= _command_id s < ID_LIMIT ->
  fresh_id fuel name s = None ->
  forall k : nat, (1 <= k <= fuel)%nat ->
  command_id_text name ((_command_id s + Z.of_nat k) mod ID_LIMIT) ∈ _inflight s.
Proof.
  induction fuel as [|fuel IH]; intros s Hc Heq k Hk; [lia|].
  rewrite fresh_id_S in Heq. cbv zeta in Heq.
  destruct (counter_step _ Hc) as [Hrem Hbound]. rewrite Hrem in Heq.
  set (n := (_command_id s + 1) mod ID_LIMIT) in *.
  destruct (decide (command_id_text name n ∈ _inflight (set_command_id n s)))
    as [Hin|Hnin]; [|discriminate].
  destruct (decide (k = 1%nat)) as [->|Hk1]; [exact Hin|].
  specialize (IH (set_command_id n s) Hbound Heq (k - 1)%nat ltac:(lia)).
  simpl in IH. subst n. rewrite Zplus_mod_idemp_l in IH.
  replace (_command_id s + 1 + Z.of_nat (k - 1)) with (_command_id s + Z.of_nat k) in IH by lia.
  exact IH.
Qed.

(** A successful probe returns the first id, in counting order, that is
    not in flight. *)
Lemma fresh_id_first_free fuel name : forall s id s',
  0 <= _command_id s < ID_LIMIT ->
  fresh_id fuel name s = Some (id, s') ->
  exists k : nat, (1 <= k <= fuel)%nat
    /\ _command_id s' = (_command_id s + Z.of_nat k) mod ID_LIMIT
    /\ forall j : nat, (1 <= j < k)%nat ->
         command_id_text name ((_command_id s + Z.of_nat j) mod ID_LIMIT) ∈ _inflight s.
Proof.
  induction fuel as [|fuel IH]; intros s id s' Hc Heq; [discriminate|].
  rewrite fresh_id_S in Heq. cbv zeta in Heq.
  destruct (counter_step _ Hc) as [Hrem Hbound]. rewrite Hrem in Heq.
  set (n := (_command_id s + 1) mod ID_LIMIT) in *.
  destruct (decide (command_id_text name n ∈ _inflight (set_command_id n s)))
    as [Hin|Hnin].
  - destruct (IH (set_command_id n s) id s' Hbound Heq) as (k & Hk & Hid & Hbefore).
    exists (S k). split; [lia|]. simpl in Hid, Hbefore. subst n. split.
    + rewrite Hid, Zplus_mod_idemp_l. f_equal. lia.
    + intros j Hj. destruct (decide (j = 1%nat)) as [->|Hj1]; [exact Hin|].
      specialize (Hbefore (j - 1)%nat ltac:(lia)).
      rewrite Zplus_mod_idemp_l in Hbefore.
      replace (_command_id s + 1 + Z.of_nat (j - 1))
        with (_command_id s + Z.of_nat j) in Hbefore by lia.
      exact Hbefore.
  - injection Heq as <- <-. exists 1%nat. split; [lia|]. split; [done|].
    intros j Hj. lia.
Qed.

Lemma probes_distinct (c : Z) (i j : nat) :
  (1 <= i)%nat -> (i < j)%nat -> Z.of_nat j <= ID_LIMIT ->
  (c + Z.of_nat i) mod ID_LIMIT <> (c + Z.of_nat j) mod ID_LIMIT.
Proof.
  intros Hi Hij Hj Heq. unfold ID_LIMIT in *.
  pose proof (Z.div_mod (c + Z.of_nat i) (2 ^ 32 - 1) ltac:(lia)) as H1.
  pose proof (Z.div_mod (c + Z.of_nat j) (2 ^ 32 - 1) ltac:(lia)) as H2.
  rewrite Heq in H1.
  set (q1 := (c + Z.of_nat i) / (2 ^ 32 - 1)) in *.
  set (q2 := (c + Z.of_nat j) / (2 ^ 32 - 1)) in *.
  assert (Z.of_nat j - Z.of_nat i = (2 ^ 32 - 1) * (q2 - q1)) as Hd by lia.
  assert (0 < q2 - q1 < 1) by nia. lia.
Qed.

(** The probing loop ends as long as fewer than [2**32-1] ids are in
    flight: among [size + 1] successive ids, all distinct, one is free. *)
Lemma fresh_id_terminates name s :
  0 <= _command_id s < ID_LIMIT ->
  Z.of_nat (size (_inflight s)) < ID_LIMIT ->
  exists id s', fresh_id (S (size (_inflight s))) name s = Some (id, s').
Proof.
  intros Hc Hsize.
  destruct (fresh_id (S (size (_inflight s))) name s) as [[id s']|] eqn:Heq; [eauto|].
  exfalso.
  pose proof (fresh_id_none _ name s Hc Heq) as Hall.
  set (n := S (size (_inflight s))) in *.
  set (f := fun k : nat => command_id_text name ((_command_id s + Z.of_nat k) mod ID_LIMIT)).
  assert (NoDup (f <$> seq 1 n)) as Hnd.
  { apply NoDup_fmap_2_strong; [|apply NoDup_seq].
    intros i j Hi Hj Hf. apply elem_of_seq in Hi, Hj.
    apply (command_id_text_inj name) in Hf.
    destruct (Nat.lt_trichotomy i j) as [Hlt|[->|Hgt]]; [|done|].
    - exfalso. apply (probes_distinct (_command_id s) i j); [lia|lia|lia|done].
    - exfalso. apply (probes_distinct (_command_id s) j i); [lia|lia|lia|done]. }
  assert (list_to_set (f <$> seq 1 n) ⊆ _inflight s) as Hsub.
  { intros id Hid. apply elem_of_list_to_set, list_elem_of_fmap in Hid as (k & -> & Hk).
    apply elem_of_seq in Hk. apply Hall. lia. }
  apply subseteq_size in Hsub.
  rewrite size_list_to_set in Hsub by done.
  rewrite length_fmap, length_seq in Hsub. lia.
Qed.

(** *** Calling listeners *)

Ltac fields :=
  cbn [alive initialized _socket_open _command_id _inflight _eventer promises
       _currentDomain _server_info _user_info _file_tunnels _shell_tunnels
       _smart_shell_tunnels sent called closed_tunnels] in *.

Lemma waits_for_handle p l : waits_for p l = true <-> handle_of l = Some p.
Proof.
  destruct l; simpl; try (split; discriminate).
  - rewrite Nat.eqb_eq. split; congruence.
  - rewrite Nat.eqb_eq. split; congruence.
Qed.

Lemma kept_nil l : kept [] l.
Proof. unfold kept. destruct (handle_of l); [apply not_elem_of_nil | done]. Qed.

Lemma kept_app ps qs l : kept (ps ++ qs) l <-> kept qs l /\ kept ps l.
Proof.
  unfold kept. destruct (handle_of l); [|tauto].
  rewrite elem_of_app. tauto.
Qed.

Lemma filter_kept_nil (ls : list listener) : filter (kept []) ls = ls.
Proof.
  induction ls as [|l ls IH]; [done|].
  rewrite filter_cons_True by apply kept_nil. by rewrite IH.
Qed.

Lemma handles_filter_sub (P : listener -> Prop) `{forall l, Decision (P l)} ls p :
  p ∈ handles (filter P ls) -> p ∈ handles ls.
Proof.
  unfold handles. rewrite !list_elem_of_omap. intros (l & Hl & Hp).
  apply list_elem_of_filter in Hl as [_ Hl]. eauto.
Qed.

Lemma handles_filter_nodup (P : listener -> Prop) `{forall l, Decision (P l)} ls :
  NoDup (handles ls) -> NoDup (handles (filter P ls)).
Proof.
  induction ls as [|l ls IH]; [done|]. intros Hnd.
  assert (NoDup (handles ls)) as Hnd'.
  { unfold handles in *. simpl in Hnd. destruct (handle_of l); [|done].
    by apply NoDup_cons in Hnd as [_ ?]. }
  destruct (decide (P l)) as [HP|HP].
  - rewrite filter_cons_True by done. unfold handles in *. simpl in *.
    destruct (handle_of l) as [p|]; [|by apply IH].
    apply NoDup_cons in Hnd as [Hp _]. apply NoDup_cons. split; [|by apply IH].
    intros Hin. apply Hp. by eapply (handles_filter_sub P).
  - rewrite filter_cons_False by done. by apply IH.
Qed.

Lemma remove_waiter_filter p ls :
  NoDup (handles ls) -> remove_waiter p ls = filter (kept [p]) ls.
Proof.
  induction ls as [|l ls IH]; [done|]. intros Hnd. simpl.
  destruct (waits_for p l) eqn:Hw.
  - apply waits_for_handle in Hw.
    rewrite filter_cons_False
      by (unfold kept; rewrite Hw; intros Hk; apply Hk, list_elem_of_here).
    unfold handles in Hnd. simpl in Hnd. rewrite Hw in Hnd.
    apply NoDup_cons in Hnd as [Hp _].
    symmetry. clear IH. induction ls as [|l' ls IH]; [done|].
    assert (kept [p] l') as Hk.
    { unfold kept. destruct (handle_of l') as [q|] eqn:Hq; [|done].
      intros Hin. apply list_elem_of_singleton in Hin as ->.
      apply Hp. unfold handles. simpl. rewrite Hq. apply list_elem_of_here. }
    rewrite filter_cons_True by done. f_equal. apply IH.
    intros Hin. apply Hp. unfold handles in *. simpl.
    destruct (handle_of l'); [by apply list_elem_of_further | done].
  - assert (kept [p] l) as Hk.
    { unfold kept. destruct (handle_of l) as [q|] eqn:Hq; [|done].
      intros Hin. apply list_elem_of_singleton in Hin as ->.
      apply waits_for_handle in Hq. congruence. }
    rewrite filter_cons_True by done. f_equal. apply IH.
    unfold handles in *. simpl in Hnd. destruct (handle_of l); [|done].
    by apply NoDup_cons in Hnd as [_ ?].
Qed.

Lemma fired_nil data s : fired [] data s = s.
Proof.
  destruct s. unfold fired. simpl. rewrite filter_kept_nil, app_nil_r.
  f_equal. set_solver.
Qed.

(** One call leaves the session that [fired] describes. *)
Lemma call_fired l data s s' :
  NoDup (handles (_eventer s)) ->
  call l data s = Return s' -> s' = fired [l] data s.
Proof.
  intros Hnd Hcall. destruct s. unfold fired. simpl in *.
  destruct l as [id p|action p|f|f flt]; simpl in Hcall.
  - injection Hcall as <-. simpl. unfold set_promises, set_inflight, set_eventer.
    simpl. rewrite remove_waiter_filter by done. rewrite app_nil_r.
    f_equal. set_solver.
  - injection Hcall as <-. simpl. unfold set_promises, set_eventer. simpl.
    rewrite remove_waiter_filter by done. rewrite app_nil_r.
    f_equal. set_solver.
  - injection Hcall as <-. unfold set_called. simpl.
    rewrite filter_kept_nil. f_equal. set_solver.
  - rewrite filter_kept_nil.
    destruct (truthy flt).
    + destruct (Filter._compare_obj flt (payload_value data)) as [[|]| |];
        try discriminate; injection Hcall as <-; unfold set_called; simpl;
        rewrite ?app_nil_r; f_equal; set_solver.
    + injection Hcall as <-. unfold set_called. simpl. f_equal. set_solver.
Qed.

Lemma handles_cons l ls : handles (l :: ls) = handles [l] ++ handles ls.
Proof. unfold handles. simpl. by destruct (handle_of l). Qed.

Lemma command_ids_cons l ls : command_ids (l :: ls) = command_ids [l] ++ command_ids ls.
Proof. unfold command_ids. simpl. by destruct (command_id_of l). Qed.

Lemma fired_cons l ls data s :
  fired ls data (fired [l] data s) = fired (l :: ls) data s.
Proof.
  destruct s. unfold fired. fields. f_equal.
  - rewrite (command_ids_cons l ls), list_to_set_app_L. set_solver.
  - rewrite list_filter_filter. apply list_filter_iff. intros x.
    rewrite (handles_cons l ls). symmetry. apply kept_app.
  - by rewrite (handles_cons l ls), foldl_app.
  - rewrite <- app_assoc. f_equal. unfold notifications. simpl.
    by rewrite app_nil_r.
Qed.

(** A round of calls leaves the session that [fired] describes. *)
Lemma call_all_fired data : forall ls s s',
  NoDup (handles (_eventer s)) ->
  call_all ls data s = Return s' -> s' = fired ls data s.
Proof.
  induction ls as [|l ls IH]; intros s s' Hnd Hcall.
  - injection Hcall as <-. by rewrite fired_nil.
  - simpl in Hcall. destruct (call l data s) as [s1| |] eqn:Hl; try discriminate.
    simpl in Hcall. apply call_fired in Hl; [|done]. subst s1.
    apply IH in Hcall.
    + by rewrite fired_cons in Hcall.
    + simpl. by apply handles_filter_nodup.
Qed.

(** Waiters and close callbacks do not throw. *)
Lemma call_all_returns data : forall ls s,
  Forall (fun l => topic_of l <> "server_event") ls ->
  exists s', call_all ls data s = Return s'.
Proof.
  induction ls as [|l ls IH]; intros s Hall; [by eexists|].
  apply Forall_cons in Hall as [Hl Hall]. simpl.
  destruct l; simpl in *; try done; apply IH; done.
Qed.

(** *** The bookkeeping invariant *)

Lemma omap_filter_nodup {A B : Type} (f : A -> option B) (P : A -> Prop)
    `{forall x, Decision (P x)} (l : list A) :
  NoDup (omap f l) -> NoDup (omap f (filter P l)).
Proof.
  induction l as [|x l IH]; [done|]. intros Hnd.
  assert (NoDup (omap f l)) as Hnd'.
  { simpl in Hnd. destruct (f x); [|done]. by apply NoDup_cons in Hnd as [_ ?]. }
  destruct (decide (P x)) as [HP|HP].
  - rewrite filter_cons_True by done. simpl in *.
    destruct (f x) as [y|]; [|by apply IH].
    apply NoDup_cons in Hnd as [Hy _]. apply NoDup_cons. split; [|by apply IH].
    intros Hin. apply Hy. apply list_elem_of_omap in Hin as (z & Hz & Hfz).
    apply list_elem_of_filter in Hz as [_ Hz]. apply list_elem_of_omap. eauto.
  - rewrite filter_cons_False by done. by apply IH.
Qed.

(** Under [NoDup (omap f l)] the key [f x] tells which element [x] is. *)
Lemma omap_nodup_inj {A B : Type} (f : A -> option B) (l : list A) (x y : A) (b : B) :
  NoDup (omap f l) -> x ∈ l -> y ∈ l -> f x = Some b -> f y = Some b -> x = y.
Proof.
  induction l as [|z l IH]; intros Hnd Hx Hy Hfx Hfy.
  - by apply elem_of_nil in Hx.
  - assert (NoDup (omap f l)) as Hnd'.
    { simpl in Hnd. destruct (f z); [|done]. by apply NoDup_cons in Hnd as [_ ?]. }
    assert (forall w, w ∈ l -> f w = Some b -> f z = Some b -> False) as Hclash.
    { intros w Hw Hfw Hfz. simpl in Hnd. rewrite Hfz in Hnd.
      apply NoDup_cons in Hnd as [Hb _]. apply Hb, list_elem_of_omap. eauto. }
    apply elem_of_cons in Hx as [->|Hx], Hy as [->|Hy]; [done| | |by apply IH].
    + exfalso. by eapply Hclash.
    + exfalso. by eapply Hclash.
Qed.

Lemma settle_other p q data (ps : list promise) :
  p <> q -> settle q data ps !! p = ps !! p.
Proof.
  intros Hne. unfold settle. destruct (ps !! q) as [[| |]|]; try done.
  by rewrite list_lookup_insert_ne.
Qed.

Lemma settle_hit p data (ps : list promise) :
  ps !! p = Some Unsettled -> settle p data ps !! p = Some (settled_with data).
Proof.
  intros Hp. unfold settle. rewrite Hp.
  apply list_lookup_insert_eq. by eapply lookup_lt_Some.
Qed.

Lemma settle_all_other data (qs : list nat) : forall (ps : list promise) p,
  p ∉ qs -> foldl (fun ps q => settle q data ps) ps qs !! p = ps !! p.
Proof.
  induction qs as [|q qs IH]; intros ps p Hp; [done|]. simpl.
  apply not_elem_of_cons in Hp as [Hne Hp].
  rewrite IH by done. by apply settle_other.
Qed.

Lemma settle_all_hit data (qs : list nat) : forall (ps : list promise) p,
  NoDup qs -> p ∈ qs -> ps !! p = Some Unsettled ->
  foldl (fun ps q => settle q data ps) ps qs !! p = Some (settled_with data).
Proof.
  induction qs as [|q qs IH]; intros ps p Hnd Hp Hps.
  - by apply elem_of_nil in Hp.
  - simpl. apply NoDup_cons in Hnd as [Hq Hnd].
    apply elem_of_cons in Hp as [->|Hp].
    + rewrite settle_all_other by done. by apply settle_hit.
    + apply IH; [done|done|]. rewrite settle_other; [done|]. intros ->. done.
Qed.

Lemma elem_of_waiting id p s :
  (id, p) ∈ waiting s <-> CommandWaiter id p ∈ _eventer s.
Proof.
  unfold waiting. rewrite list_elem_of_omap. split.
  - intros (l & Hl & Heq). destruct l; try discriminate. by injection Heq as -> ->.
  - intros Hl. by exists (CommandWaiter id p).
Qed.

Lemma waiting_ids s : (waiting s).*1 = command_ids (_eventer s).
Proof.
  unfold waiting, command_ids. induction (_eventer s) as [|l ls IH]; [done|].
  destruct l; simpl; try done. f_equal. exact IH.
Qed.

Lemma command_id_not_event name n : command_id_text name n <> "server_event".
Proof. discriminate. Qed.

Lemma command_id_not_raw name n : command_id_text name n <> "raw".
Proof. discriminate. Qed.

Lemma command_id_not_close name n : command_id_text name n <> "close".
Proof. discriminate. Qed.

Lemma command_id_not_event_sym name n : "server_event" <> command_id_text name n.
Proof. discriminate. Qed.

Lemma command_id_not_raw_sym name n : "raw" <> command_id_text name n.
Proof. discriminate. Qed.

Lemma command_id_not_close_sym name n : "close" <> command_id_text name n.
Proof. discriminate. Qed.

(** The state after the first message of a fresh session is consistent. *)
Lemma constructed_consistent files shells smart :
  consistent (on_open (constructed files shells smart)).
Proof.
  split; simpl.
  - constructor.
  - intros p Hp. by apply elem_of_nil in Hp.
  - constructor.
  - intros id. split; [intros H; by apply elem_of_empty in H|].
    intros H. by apply elem_of_nil in H.
  - intros id H. by apply elem_of_nil in H.
  - unfold ID_LIMIT. lia.
Qed.

(** Calling listeners that are registered keeps the bookkeeping in order. *)
Lemma fired_consistent ls data s :
  consistent s -> (forall l, l ∈ ls -> l ∈ _eventer s) ->
  consistent (fired ls data s).
Proof.
  intros [Hh Hu Hi Hfl Hsh Hc] Hsub. split; unfold fired; fields.
  - by apply omap_filter_nodup.
  - intros p Hp. apply list_elem_of_omap in Hp as (l & Hl & Hlp).
    apply list_elem_of_filter in Hl as [Hk Hl].
    unfold kept in Hk. rewrite Hlp in Hk.
    rewrite settle_all_other by done. apply Hu, list_elem_of_omap. eauto.
  - by apply omap_filter_nodup.
  - intros id. rewrite elem_of_difference, elem_of_list_to_set, Hfl.
    unfold command_ids. rewrite !list_elem_of_omap. split.
    + intros [(l & Hl & Hid) Hnot]. exists l. split; [|done].
      apply list_elem_of_filter. split; [|done].
      unfold kept. destruct (handle_of l) as [p|] eqn:Hp; [|done].
      intros Hin. apply Hnot. apply list_elem_of_omap in Hin as (l' & Hl' & Hp').
      assert (l' = l) as -> by (eapply (omap_nodup_inj handle_of); eauto).
      eauto.
    + intros (l & Hl & Hid). apply list_elem_of_filter in Hl as [Hk Hl].
      split; [eauto|]. intros (l' & Hl' & Hid').
      assert (l' = l) as -> by (eapply (omap_nodup_inj command_id_of); eauto).
      destruct l; try discriminate. unfold kept in Hk. simpl in Hk.
      apply Hk. apply list_elem_of_omap. eauto.
  - intros id Hid. apply Hsh. apply list_elem_of_omap in Hid as (l & Hl & Hid).
    apply list_elem_of_filter in Hl as [_ Hl]. apply list_elem_of_omap. eauto.
  - done.
Qed.

(** *** Emitting *)

(** An emit that returns has called the listeners of its topic, and so
    has an emit keyed by a value. *)
Lemma emit_calls topic data s s' :
  emit topic data s = Return s' -> call_topic topic data s = Return s'.
Proof. unfold emit. by destruct (_ && _). Qed.

Lemma emit_key_calls key data s s' :
  emit_key key data s = Return s' -> call_topic (toString key) data s = Return s'.
Proof.
  unfold emit_key. destruct key; try apply emit_calls; by destruct (unprintable _).
Qed.

Lemma calls_fired topic data s s' :
  consistent s -> call_topic topic data s = Return s' ->
  s' = fired (listening topic s) data s.
Proof. intros Hs Hemit. apply call_all_fired; [apply Hs | exact Hemit]. Qed.

Lemma emit_fired topic data s s' :
  consistent s -> emit topic data s = Return s' ->
  s' = fired (listening topic s) data s.
Proof. intros Hs Hemit. by apply calls_fired, emit_calls. Qed.

Lemma listening_sub topic s l : l ∈ listening topic s -> l ∈ _eventer s.
Proof. intros Hl. by apply list_elem_of_filter in Hl as [_ ?]. Qed.

(** An emit settles the waiters registered under its topic, and only
    those. *)
Lemma calls_dispatch topic data s s' :
  consistent s -> call_topic topic data s = Return s' ->
  consistent s'
  /\ forall id p, (id, p) ∈ waiting s ->
       (id = topic ->
          promises s' !! p = Some (settled_with data)
          /\ (id ∉ _inflight s') /\ ((id, p) ∉ waiting s'))
       /\ (id <> topic ->
          promises s' !! p = Some Unsettled
          /\ id ∈ _inflight s' /\ (id, p) ∈ waiting s').
Proof.
  intros Hs Hemit. pose proof (calls_fired _ _ _ _ Hs Hemit) as ->.
  assert (consistent (fired (listening topic s) data s)) as Hs'
    by (apply fired_consistent; [done | apply listening_sub]).
  split; [exact Hs'|]. intros id p Hw.
  apply elem_of_waiting in Hw.
  assert (promises s !! p = Some Unsettled) as Hp.
  { apply (handles_unsettled s Hs), list_elem_of_omap.
    by exists (CommandWaiter id p). }
  split.
  - intros ->.
    assert (CommandWaiter topic p ∈ listening topic s) as Hl
      by (apply list_elem_of_filter; done).
    assert (p ∈ handles (listening topic s)) as Hph
      by (apply list_elem_of_omap; by exists (CommandWaiter topic p)).
    split; [|split].
    + unfold fired; fields. apply settle_all_hit; [|done|done].
      apply omap_filter_nodup, Hs.
    + unfold fired; fields. rewrite elem_of_difference, elem_of_list_to_set.
      intros [_ Hnot]. apply Hnot, list_elem_of_omap.
      by exists (CommandWaiter topic p).
    + rewrite elem_of_waiting. unfold fired; fields.
      rewrite list_elem_of_filter. intros [Hk _]. by apply Hk.
  - intros Hne.
    assert (p ∉ handles (listening topic s)) as Hph.
    { intros Hin. apply list_elem_of_omap in Hin as (l & Hl & Hlp).
      assert (l = CommandWaiter id p) as ->.
      { eapply (omap_nodup_inj handle_of); [apply Hs| |done|done|done].
        by eapply listening_sub. }
      apply list_elem_of_filter in Hl as [Ht _]. simpl in Ht. congruence. }
    assert ((id, p) ∈ waiting (fired (listening topic s) data s)) as Hw'.
    { rewrite elem_of_waiting. unfold fired; fields.
      apply list_elem_of_filter. split; [exact Hph | done]. }
    split; [|split; [|done]].
    + unfold fired; fields. by rewrite settle_all_other.
    + apply (inflight_ids _ Hs'). rewrite <- waiting_ids.
      apply list_elem_of_fmap. by exists (id, p).
Qed.

Lemma emit_dispatch topic data s s' :
  consistent s -> emit topic data s = Return s' ->
  consistent s'
  /\ forall id p, (id, p) ∈ waiting s ->
       (id = topic ->
          promises s' !! p = Some (settled_with data)
          /\ (id ∉ _inflight s') /\ ((id, p) ∉ waiting s'))
       /\ (id <> topic ->
          promises s' !! p = Some Unsettled
          /\ id ∈ _inflight s' /\ (id, p) ∈ waiting s').
Proof. intros Hs Hemit. by apply calls_dispatch, emit_calls. Qed.

Lemma settle_all_settled data (qs : list nat) : forall (ps : list promise) p x,
  ps !! p = Some x -> x <> Unsettled ->
  foldl (fun ps q => settle q data ps) ps qs !! p = Some x.
Proof.
  induction qs as [|q qs IH]; intros ps p x Hp Hx; [done|]. simpl.
  apply IH; [|done]. destruct (decide (p = q)) as [->|Hne].
  - unfold settle. rewrite Hp. by destruct x.
  - by rewrite settle_other.
Qed.

(** What an emit leaves alone. *)
Lemma calls_frame topic data s s' :
  consistent s -> call_topic topic data s = Return s' ->
  (forall x, x ∈ waiting s' -> x ∈ waiting s)
  /\ (forall id, id ∈ _inflight s' -> id ∈ _inflight s)
  /\ (forall p x, promises s !! p = Some x -> x <> Unsettled ->
        promises s' !! p = Some x)
  /\ (forall l, l ∈ _eventer s -> handle_of l = None -> l ∈ _eventer s')
  /\ called s' = called s ++ notifications (listening topic s) data
  /\ alive s' = alive s /\ initialized s' = initialized s
  /\ closed_tunnels s' = closed_tunnels s
  /\ _file_tunnels s' = _file_tunnels s /\ _shell_tunnels s' = _shell_tunnels s
  /\ _smart_shell_tunnels s' = _smart_shell_tunnels s.
Proof.
  intros Hs Hemit. pose proof (calls_fired _ _ _ _ Hs Hemit) as ->.
  unfold fired; fields. repeat split.
  - intros [id p]. rewrite !elem_of_waiting. fields.
    rewrite list_elem_of_filter. tauto.
  - intros id. rewrite elem_of_difference. tauto.
  - intros p x Hp Hx. by apply settle_all_settled.
  - intros l Hl Hnone. apply list_elem_of_filter. split; [|done].
    unfold kept. by rewrite Hnone.
Qed.

Lemma emit_frame topic data s s' :
  consistent s -> emit topic data s = Return s' ->
  (forall x, x ∈ waiting s' -> x ∈ waiting s)
  /\ (forall id, id ∈ _inflight s' -> id ∈ _inflight s)
  /\ (forall p x, promises s !! p = Some x -> x <> Unsettled ->
        promises s' !! p = Some x)
  /\ (forall l, l ∈ _eventer s -> handle_of l = None -> l ∈ _eventer s')
  /\ called s' = called s ++ notifications (listening topic s) data
  /\ alive s' = alive s /\ initialized s' = initialized s
  /\ closed_tunnels s' = closed_tunnels s
  /\ _file_tunnels s' = _file_tunnels s /\ _shell_tunnels s' = _shell_tunnels s
  /\ _smart_shell_tunnels s' = _smart_shell_tunnels s.
Proof. intros Hs Hemit. by apply calls_frame, emit_calls. Qed.

Lemma calls_returns topic data s :
  topic <> "server_event" -> exists s', call_topic topic data s = Return s'.
Proof.
  intros Hne. apply call_all_returns. apply Forall_forall.
  intros l Hl. apply list_elem_of_filter in Hl as [Ht _]. congruence.
Qed.

Lemma emit_returns topic data s :
  topic <> "server_event" -> topic <> "error" ->
  exists s', emit topic data s = Return s'.
Proof.
  intros Hne Herr. unfold emit.
  destruct (String.eqb_spec topic "error") as [->|_]; [done|].
  by apply calls_returns.
Qed.

Lemma command_id_not_error name n : command_id_text name n <> "error".
Proof. discriminate. Qed.

(** *** Sending *)

Lemma _send_command_sent data name s id p s' :
  consistent s -> _send_command data name s = Sent id p s' ->
  id = command_id_text name (_command_id s')
  /\ 0 <= _command_id s' < ID_LIMIT
  /\ (id ∉ _inflight s)
  /\ (id ∉ (waiting s).*1)
  /\ _inflight s' = {[id]} ∪ _inflight s
  /\ waiting s' = waiting s ++ [(id, p)]
  /\ promises s' !! p = Some Unsettled
  /\ (forall q x, promises s !! q = Some x -> promises s' !! q = Some x)
  /\ consistent s'
  /\ exists k : nat, (1 <= k)%nat
       /\ _command_id s' = (_command_id s + Z.of_nat k) mod ID_LIMIT
       /\ forall j : nat, (1 <= j < k)%nat ->
            command_id_text name ((_command_id s + Z.of_nat j) mod ID_LIMIT)
              ∈ _inflight s.
Proof.
  intros Hs Hsend. unfold _send_command in Hsend.
  destruct (alive s); cbn [negb] in Hsend; [|discriminate].
  destruct (fresh_id (S (size (_inflight s))) name s) as [[id' s1]|] eqn:Hfresh;
    [|discriminate].
  injection Hsend as <- <- <-.
  destruct (fresh_id_some _ _ _ _ _ Hfresh) as (Hnew & Hid & Hs1 & Hrange).
  destruct (fresh_id_first_free _ _ _ _ _ (counter_range s Hs) Hfresh)
    as (k & Hk & Hstep & Hbefore).
  specialize (Hrange (counter_range s Hs)).
  set (c := _command_id s1) in *. clearbody c. subst s1.
  destruct Hs as [Hh Hu Hi Hfl Hsh Hc]. fields.
  assert (id' ∉ command_ids (_eventer s)) as Hnew' by (by rewrite <- Hfl).
  assert (length (promises s) ∉ handles (_eventer s)) as Hfreshp.
  { intros Hin. apply Hu, lookup_lt_Some in Hin. lia. }
  unfold set_sent, set_eventer, set_promises, set_inflight, set_command_id; fields.
  split; [done|]. split; [done|]. split; [done|].
  split; [by rewrite waiting_ids|]. split; [done|].
  split; [unfold waiting; fields; by rewrite omap_app|].
  split; [by rewrite lookup_app_r, Nat.sub_diag by lia|].
  split; [intros q x Hq; by apply lookup_app_l_Some|].
  split; [|exists k; split; [lia|split; done]].
  split; fields.
  - unfold handles. rewrite omap_app. simpl. apply NoDup_app.
    split; [done|]. split; [|apply NoDup_singleton].
    intros q Hq Hq'. apply list_elem_of_singleton in Hq' as ->. done.
  - intros q Hq. unfold handles in Hq. rewrite omap_app in Hq. simpl in Hq.
    apply elem_of_app in Hq as [Hq|Hq].
    + apply lookup_app_l_Some. by apply Hu.
    + apply list_elem_of_singleton in Hq as ->.
      by rewrite lookup_app_r, Nat.sub_diag by lia.
  - unfold command_ids. rewrite omap_app. simpl. apply NoDup_app.
    split; [done|]. split; [|apply NoDup_singleton].
    intros q Hq Hq'. apply list_elem_of_singleton in Hq' as ->. done.
  - intros q. unfold command_ids. rewrite omap_app. simpl.
    rewrite elem_of_union, elem_of_singleton, elem_of_app, list_elem_of_singleton.
    rewrite Hfl. unfold command_ids. tauto.
  - intros q Hq. unfold command_ids in Hq. rewrite omap_app in Hq. simpl in Hq.
    apply elem_of_app in Hq as [Hq|Hq]; [by apply Hsh|].
    apply list_elem_of_singleton in Hq as ->. eauto.
  - done.
Qed.

Lemma _send_command_goes_out data name s :
  consistent s -> alive s = true ->
  Z.of_nat (size (_inflight s)) < ID_LIMIT ->
  exists id p s', _send_command data name s = Sent id p s'.
Proof.
  intros Hs Halive Hsize. unfold _send_command. rewrite Halive. cbn [negb].
  destruct (fresh_id_terminates name s (counter_range s Hs) Hsize)
    as (id & s1 & ->). eauto.
Qed.

(** *** Receiving *)

Lemma consistent_same_table s s' :
  _eventer s' = _eventer s -> promises s' = promises s ->
  _inflight s' = _inflight s -> _command_id s' = _command_id s ->
  consistent s -> consistent s'.
Proof.
  intros He Hp Hi Hc [H1 H2 H3 H4 H5 H6].
  split; rewrite ?He, ?Hp, ?Hi, ?Hc; done.
Qed.

(** An emit on a topic that is no command id leaves every waiting request
    as it is. *)
Lemma calls_foreign topic data s s' :
  consistent s -> (forall name n, topic <> command_id_text name n) ->
  call_topic topic data s = Return s' ->
  consistent s'
  /\ forall id p, (id, p) ∈ waiting s ->
       promises s' !! p = Some Unsettled
       /\ id ∈ _inflight s' /\ (id, p) ∈ waiting s'.
Proof.
  intros Hs Htopic Hemit.
  destruct (calls_dispatch _ _ _ _ Hs Hemit) as [Hs' Hw].
  split; [done|]. intros id p Hin. apply (Hw id p Hin).
  intros ->. destruct (ids_shape s Hs topic) as (name & n & Heq).
  - rewrite <- waiting_ids. apply list_elem_of_fmap. by exists (topic, p).
  - by apply (Htopic name n).
Qed.

Lemma emit_foreign topic data s s' :
  consistent s -> (forall name n, topic <> command_id_text name n) ->
  emit topic data s = Return s' ->
  consistent s'
  /\ forall id p, (id, p) ∈ waiting s ->
       promises s' !! p = Some Unsettled
       /\ id ∈ _inflight s' /\ (id, p) ∈ waiting s'.
Proof. intros Hs Htopic Hemit. apply (calls_foreign topic data); [done|done|by apply emit_calls]. Qed.

Lemma any_loose_eq_printable v names :
  unprintable v = false ->
  any_loose_eq v names = Return (existsb (loose_eq_str v) names).
Proof.
  intros Hv. induction names as [|name names IH]; [done|].
  cbn [any_loose_eq existsb]. rewrite JSFacts.loose_eq_printable by done.
  cbn [bind]. by destruct (loose_eq_str v name).
Qed.

Section ReceiveFacts.
Variable JSON_parse : list Z -> option value.

(** A message settles a waiting request only when the topic it is
    dispatched on ([responseid], else [tag], else [action]) is the id of
    that request; every other waiting request stays as it is. *)
Lemma _receive_message_dispatch raw s s' :
  consistent s -> _receive_message JSON_parse raw s = Return s' ->
  consistent s'
  /\ forall id p, (id, p) ∈ waiting s ->
       (promises s' !! p = Some Unsettled
        /\ id ∈ _inflight s' /\ (id, p) ∈ waiting s')
       \/ (exists data,
             JSON_parse raw = Some data /\ reply_topic data = Return id
             /\ promises s' !! p = Some (Fulfilled data)
             /\ (id ∉ _inflight s') /\ ((id, p) ∉ waiting s')).
Proof.
  intros Hs Hrecv. unfold _receive_message in Hrecv.
  destruct (emit "raw" (Data Null) s) as [s1| |] eqn:Hraw; try discriminate.
  cbn [bind] in Hrecv.
  destruct (emit_foreign _ _ _ _ Hs command_id_not_raw_sym Hraw) as [Hs1 Hw1].
  destruct (JSON_parse raw) as [data|]; [|injection Hrecv as <-; split; auto].
  destruct (get data "action") as [action| |] eqn:Ha; try discriminate.
  cbn [bind] in Hrecv.
  destruct (unprintable action) eqn:Hp.
  { unfold loose_eq in Hrecv. by rewrite Hp in Hrecv. }
  rewrite !(JSFacts.loose_eq_printable action) in Hrecv by done.
  rewrite any_loose_eq_printable in Hrecv by done.
  cbn [bind] in Hrecv.
  destruct (loose_eq_str action "serverinfo").
  { destruct (get data "serverinfo") as [info| |]; try discriminate.
    cbn [bind] in Hrecv.
    destruct (get info "domain") as [domain| |]; try discriminate.
    cbn [bind] in Hrecv. injection Hrecv as <-.
    split; [by apply (consistent_same_table s1)|].
    intros id p Hin. left. apply (Hw1 id p Hin). }
  destruct (loose_eq_str action "userinfo").
  { destruct (get data "userinfo") as [info| |]; try discriminate.
    cbn [bind] in Hrecv. injection Hrecv as <-.
    split; [by apply (consistent_same_table s1)|].
    intros id p Hin. left. apply (Hw1 id p Hin). }
  match type of Hrecv with bind ?c _ = _ => destruct c as [s2| |] eqn:Hev end;
    try discriminate.
  cbn [bind] in Hrecv.
  assert (consistent s2
          /\ forall id p, (id, p) ∈ waiting s1 ->
               promises s2 !! p = Some Unsettled
               /\ id ∈ _inflight s2 /\ (id, p) ∈ waiting s2) as [Hs2 Hw2].
  { destruct (existsb _ _).
    - exact (emit_foreign _ _ _ _ Hs1 command_id_not_event_sym Hev).
    - injection Hev as <-. split; [done|]. intros id p Hin.
      destruct (Hs1) as [_ Hu _ Hfl _ _]. split; [|split; [|done]].
      + apply Hu. apply elem_of_waiting in Hin.
        apply list_elem_of_omap. by exists (CommandWaiter id p).
      + apply Hfl. rewrite <- waiting_ids. apply list_elem_of_fmap.
        by exists (id, p). }
  destruct (get data "responseid") as [responseid| |] eqn:Hr; try discriminate.
  cbn [bind] in Hrecv.
  destruct (get data "tag") as [tag| |] eqn:Ht; try discriminate.
  cbn [bind] in Hrecv.
  assert (exists topic, reply_topic data = Return topic
                        /\ call_topic topic (Data data) s2 = Return s')
    as (topic & Htopic & Hemit).
  { unfold reply_topic. rewrite Ha, Hr, Ht. cbn [bind].
    destruct (truthy responseid || truthy tag);
      apply emit_key_calls in Hrecv; eauto. }
  destruct (calls_dispatch _ _ _ _ Hs2 Hemit) as [Hs' Hw'].
  split; [done|]. intros id p Hin.
  destruct (Hw2 id p (proj2 (proj2 (Hw1 id p Hin)))) as (_ & _ & Hin2).
  destruct (decide (id = topic)) as [->|Hne].
  - right. exists data. destruct (proj1 (Hw' topic p Hin2) eq_refl) as (? & ? & ?).
    repeat split; done.
  - left. exact (proj2 (Hw' id p Hin2) Hne).
Qed.

End ReceiveFacts.

Lemma after_send_consistent data name s :
  consistent s -> consistent (after_send data name s).
Proof.
  intros Hs. unfold after_send.
  destruct (_send_command data name s) as [id p s'| |] eqn:Hsend; [|done|done].
  apply (_send_command_sent _ _ _ _ _ _ Hs Hsend).
Qed.

Lemma two_pending_consistent : consistent two_pending.
Proof. do 2 apply after_send_consistent. apply constructed_consistent. Qed.

Lemma two_pending_waiting :
  waiting two_pending
  = [("meshctrl_list_devices_1", 0%nat); ("meshctrl_list_device_groups_2", 1%nat)].
Proof. by vm_compute. Qed.

(** C2: on a session whose correlation table is in order (as it is from
    the start and stays under every operation), the ids of the waiting
    requests are pairwise distinct and are exactly the in-flight set; a
    request sent with [_send_command] gets the id
    [meshctrl_<name>_<counter>], where the counter has advanced modulo
    [2**32-1] past every id that was in flight to the first one that was
    not, and is registered with an unsettled promise;
    the probing loop ends whenever fewer than [2**32-1] ids are in flight;
    and a received message settles a waiting request only if it is
    dispatched on the id of that request, in which case the request's
    promise is fulfilled with that message and its id leaves the in-flight
    set, while every other waiting request stays unsettled and in flight. *)
Theorem correlated_ids_unique_and_dispatched
    (JSON_parse : list Z -> option value) (s : session) :
  consistent s ->
  NoDup (waiting s).*1
  /\ (forall id, id ∈ _inflight s <-> id ∈ (waiting s).*1)
  /\ (forall data name id p s',
        _send_command data name s = Sent id p s' ->
        id = command_id_text name (_command_id s')
        /\ 0 <= _command_id s' < ID_LIMIT
        /\ (id ∉ _inflight s)
        /\ _inflight s' = {[id]} ∪ _inflight s
        /\ waiting s' = waiting s ++ [(id, p)]
        /\ promises s' !! p = Some Unsettled
        /\ consistent s'
        /\ exists k : nat, (1 <= k)%nat
             /\ _command_id s' = (_command_id s + Z.of_nat k) mod ID_LIMIT
             /\ forall j : nat, (1 <= j < k)%nat ->
                  command_id_text name ((_command_id s + Z.of_nat j) mod ID_LIMIT)
                    ∈ _inflight s)
  /\ (alive s = true -> Z.of_nat (size (_inflight s)) < ID_LIMIT ->
      forall data name, exists id p s', _send_command data name s = Sent id p s')
  /\ (forall raw s',
        _receive_message JSON_parse raw s = Return s' ->
        consistent s'
        /\ forall id p, (id, p) ∈ waiting s ->
             (promises s' !! p = Some Unsettled
              /\ id ∈ _inflight s' /\ (id, p) ∈ waiting s')
             \/ (exists data,
                   JSON_parse raw = Some data /\ reply_topic data = Return id
                   /\ promises s' !! p = Some (Fulfilled data)
                   /\ (id ∉ _inflight s') /\ ((id, p) ∉ waiting s'))).
Proof.
  intros Hs. split; [|split; [|split; [|split]]].
  - rewrite waiting_ids. apply Hs.
  - intros id. rewrite waiting_ids. apply Hs.
  - intros data name id p s' Hsend.
    destruct (_send_command_sent _ _ _ _ _ _ Hs Hsend)
      as (H1 & H2 & H3 & _ & H5 & H6 & H7 & _ & H9 & H10).
    exact (conj H1 (conj H2 (conj H3 (conj H5 (conj H6 (conj H7 (conj H9 H10))))))).
  - intros Halive Hsize data name. by apply _send_command_goes_out.
  - intros raw s' Hrecv. by apply _receive_message_dispatch.
Qed.

Lemma correlated_ids_unique_and_dispatched_witness :
  consistent two_pending
  /\ (_send_command (Obj [("action", Str "ping")]) "ping" two_pending
        = Sent "meshctrl_ping_3" 2 three_pending
      /\ "meshctrl_ping_3" ∉ _inflight two_pending)
  /\ (exists s',
        _receive_message one_reply [123; 125] two_pending = Return s'
        /\ promises s' = [Fulfilled (Obj [("action", Str "nodes");
                                           ("responseid", Str "meshctrl_list_devices_1")]);
                          Unsettled]).
Proof.
  split; [exact two_pending_consistent|].
  destruct (correlated_ids_unique_and_dispatched one_reply two_pending
              two_pending_consistent) as (_ & _ & Hsend & _ & _).
  split.
  - assert (_send_command (Obj [("action", Str "ping")]) "ping" two_pending
            = Sent "meshctrl_ping_3" 2 three_pending) as Hsent by (by vm_compute).
    split; [exact Hsent|]. exact (proj1 (proj2 (proj2 (Hsend _ _ _ _ _ Hsent)))).
  - eexists. split; by vm_compute.
Defined.

(** The other operations of the session keep the bookkeeping in order. *)
Lemma on_open_consistent s : consistent s -> consistent (on_open s).
Proof. by apply consistent_same_table. Qed.

Lemma consistent_callback l s :
  handle_of l = None -> command_id_of l = None ->
  consistent s -> consistent (set_eventer (_eventer s ++ [l]) s).
Proof.
  intros Hh Hc [H1 H2 H3 H4 H5 H6].
  assert (handles (_eventer s ++ [l]) = handles (_eventer s)) as Eh.
  { unfold handles. rewrite omap_app. simpl. rewrite Hh. apply app_nil_r. }
  assert (command_ids (_eventer s ++ [l]) = command_ids (_eventer s)) as Ec.
  { unfold command_ids. rewrite omap_app. simpl. rewrite Hc. apply app_nil_r. }
  split; unfold set_eventer; fields; rewrite ?Eh, ?Ec; done.
Qed.

Lemma on_close_subscribe_consistent f s :
  consistent s -> consistent (on_close_subscribe f s).
Proof. by apply consistent_callback. Qed.

Lemma listen_to_events_consistent f filter s :
  consistent s -> consistent (listen_to_events f filter s).
Proof. by apply consistent_callback. Qed.

Lemma _send_command_no_response_id_consistent data s p s' :
  consistent s -> _send_command_no_response_id data s = Return (p, s') ->
  consistent s'.
Proof.
  intros [H1 H2 H3 H4 H5 H6]. unfold _send_command_no_response_id.
  destruct (negb (alive s)); [discriminate|].
  destruct (get data "action") as [action| |]; try discriminate.
  cbn [bind]. intros [= <- <-].
  assert (length (promises s) ∉ handles (_eventer s)) as Hfresh.
  { intros Hin. apply H2, lookup_lt_Some in Hin. lia. }
  unfold set_sent, set_eventer, set_promises. split; fields.
  - unfold handles. rewrite omap_app. simpl. apply NoDup_app.
    split; [done|]. split; [|apply NoDup_singleton].
    intros q Hq Hq'. apply list_elem_of_singleton in Hq' as ->. done.
  - intros q Hq. unfold handles in Hq. rewrite omap_app in Hq. simpl in Hq.
    apply elem_of_app in Hq as [Hq|Hq].
    + apply lookup_app_l_Some. by apply H2.
    + apply list_elem_of_singleton in Hq as ->.
      by rewrite lookup_app_r, Nat.sub_diag by lia.
  - unfold command_ids. rewrite omap_app. simpl. by rewrite app_nil_r.
  - intros id. unfold command_ids. rewrite omap_app. simpl. rewrite app_nil_r.
    apply H4.
  - intros id. unfold command_ids. rewrite omap_app. simpl. rewrite app_nil_r.
    apply H5.
  - done.
Qed.

(** *** Closing *)

Lemma notifications_waiters ls data :
  Forall (fun l => topic_of l <> "close" /\ topic_of l <> "server_event") ls ->
  notifications ls data = [].
Proof.
  induction 1 as [|l ls [Hc He] _ IH]; [done|].
  unfold notifications in *. simpl. rewrite IH.
  by destruct l.
Qed.

Lemma settled_with_settled data : settled_with data <> Unsettled.
Proof. by destruct data. Qed.

Lemma waiting_inflight s id p :
  consistent s -> (id, p) ∈ waiting s -> id ∈ _inflight s.
Proof.
  intros Hs Hin. apply (inflight_ids s Hs). rewrite <- waiting_ids.
  apply list_elem_of_fmap. by exists (id, p).
Qed.

Lemma inflight_waiting s id :
  consistent s -> id ∈ _inflight s ->
  (exists p, (id, p) ∈ waiting s) /\ exists name n, id = command_id_text name n.
Proof.
  intros Hs Hin. apply (inflight_ids s Hs) in Hin.
  split; [|by apply (ids_shape s Hs)].
  rewrite <- waiting_ids in Hin.
  apply list_elem_of_fmap in Hin as ([id' p] & -> & Hin). eauto.
Qed.

(** Emitting [data] on each of the in-flight ids [ids] settles exactly
    the requests that wait under those ids. *)
Lemma emit_each_fans_out data : forall ids s,
  consistent s -> NoDup ids -> (forall id, id ∈ ids -> id ∈ _inflight s) ->
  exists s', emit_each ids data s = Return s'
    /\ consistent s'
    /\ (forall id p, (id, p) ∈ waiting s ->
          (id ∈ ids ->
             promises s' !! p = Some (settled_with data) /\ ((id, p) ∉ waiting s'))
          /\ (id ∉ ids ->
             promises s' !! p = Some Unsettled /\ (id, p) ∈ waiting s'))
    /\ (forall x, x ∈ waiting s' -> x ∈ waiting s)
    /\ (forall p x, promises s !! p = Some x -> x <> Unsettled ->
          promises s' !! p = Some x)
    /\ (forall l, l ∈ _eventer s -> handle_of l = None -> l ∈ _eventer s')
    /\ called s' = called s
    /\ alive s' = alive s /\ initialized s' = initialized s
    /\ closed_tunnels s' = closed_tunnels s
    /\ _file_tunnels s' = _file_tunnels s /\ _shell_tunnels s' = _shell_tunnels s
    /\ _smart_shell_tunnels s' = _smart_shell_tunnels s.
Proof.
  induction ids as [|i ids IH]; intros s Hs Hnd Hin.
  - exists s. split; [done|]. split; [done|]. split; [|repeat split; done].
    intros id p Hw. split; [intros H; by apply elem_of_nil in H|].
    intros _. split; [|done]. apply (handles_unsettled s Hs).
    apply elem_of_waiting in Hw. apply list_elem_of_omap.
    by exists (CommandWaiter id p).
  - apply NoDup_cons in Hnd as [Hi Hnd].
    destruct (inflight_waiting s i Hs (Hin i (list_elem_of_here _ _)))
      as [_ (name & n & Hshape)].
    destruct (emit_returns i data s) as [s1 Hemit];
      [rewrite Hshape; apply command_id_not_event
      |rewrite Hshape; apply command_id_not_error|].
    destruct (emit_dispatch _ _ _ _ Hs Hemit) as [Hs1 Hd].
    destruct (emit_frame _ _ _ _ Hs Hemit)
      as (Hw1 & Hi1 & Hp1 & He1 & Hc1 & Ha1 & Hn1 & Ht1 & Hf1 & Hsh1 & Hsm1).
    destruct (IH s1 Hs1 Hnd) as (s' & Hrun & Hs' & Hd' & Hw' & Hp' & He' & Hc'
                                 & Ha' & Hn' & Ht' & Hf' & Hsh' & Hsm').
    { intros id Hid.
      destruct (inflight_waiting s id Hs (Hin id (list_elem_of_further _ _ _ Hid)))
        as [[p Hw] _].
      apply (proj2 (Hd id p Hw)). intros ->. done. }
    exists s'. simpl. rewrite Hemit. cbn [bind].
    split; [done|]. split; [done|]. split; [|split; [|split; [|split]]].
    + intros id p Hw. split.
      * intros Hid. destruct (decide (id = i)) as [->|Hne].
        -- destruct (proj1 (Hd i p Hw) eq_refl) as (Hset & _ & Hgone).
           split; [apply Hp'; [done | apply settled_with_settled]|].
           intros Hstill. by apply Hgone, Hw'.
        -- apply elem_of_cons in Hid as [?|Hid]; [done|].
           destruct (proj2 (Hd id p Hw) Hne) as (_ & _ & Hw1in).
           exact (proj1 (Hd' id p Hw1in) Hid).
      * intros Hid. apply not_elem_of_cons in Hid as [Hne Hid].
        destruct (proj2 (Hd id p Hw) Hne) as (_ & _ & Hw1in).
        exact (proj2 (Hd' id p Hw1in) Hid).
    + intros x Hx. by apply Hw1, Hw'.
    + intros p x Hp Hx. apply Hp'; [by apply Hp1 | done].
    + intros l Hl Hnone. apply He'; [by apply He1 | done].
    + rewrite Hc', Hc1, notifications_waiters;
        [rewrite app_nil_r; repeat split; congruence|].
      apply Forall_forall. intros l Hl.
      apply list_elem_of_filter in Hl as [-> _]. rewrite Hshape.
      split; [apply command_id_not_close | apply command_id_not_event].
Qed.

Lemma notifications_close ls data f :
  CloseCallback f ∈ ls -> (f, data) ∈ notifications ls data.
Proof.
  intros Hin. unfold notifications. apply list_elem_of_In, in_flat_map.
  exists (CloseCallback f). split; [by apply list_elem_of_In | by left].
Qed.

(** C5: when the socket of a session closes, the handler returns, and
    afterwards every request that was waiting for a reply has its promise
    rejected with [SocketError("Socket Closed")], no request is waiting and
    the in-flight set is empty; [initialized] is rejected with ["Closed"]
    unless it had resolved (and stays as it was when already rejected);
    [alive] is false; every callback registered with [on_close] has been
    called with the error; [close()] has been called on every tunnel of
    the three caches; and the bookkeeping is still in order. *)
Theorem socket_close_fans_out (s : session) :
  consistent s ->
  exists s', on_socket_close s = Return s'
    /\ (forall id p, (id, p) ∈ waiting s ->
          promises s' !! p = Some (Failed (SocketError "Socket Closed")))
    /\ waiting s' = []
    /\ _inflight s' = ∅
    /\ initialized s'
       = (if resolved (initialized s) then initialized s
          else reject (Str "Closed") (initialized s))
    /\ alive s' = false
    /\ (forall f, CloseCallback f ∈ _eventer s ->
          (f, Failure (SocketError "Socket Closed")) ∈ called s')
    /\ closed_tunnels s'
       = closed_tunnels s
         ++ map snd (_file_tunnels s ++ _shell_tunnels s ++ _smart_shell_tunnels s)
    /\ consistent s'.
Proof.
  intros Hs. unfold on_socket_close.
  set (data := Failure (SocketError "Socket Closed")).
  set (s0 := set_alive false
               (if negb (resolved (initialized s))
                then set_initialized (reject (Str "Closed") (initialized s)) s
                else s)).
  assert (_eventer s0 = _eventer s /\ promises s0 = promises s
          /\ _inflight s0 = _inflight s /\ _command_id s0 = _command_id s
          /\ called s0 = called s /\ closed_tunnels s0 = closed_tunnels s
          /\ _file_tunnels s0 = _file_tunnels s
          /\ _shell_tunnels s0 = _shell_tunnels s
          /\ _smart_shell_tunnels s0 = _smart_shell_tunnels s
          /\ alive s0 = false
          /\ initialized s0 = (if resolved (initialized s) then initialized s
                               else reject (Str "Closed") (initialized s)))
    as (E0 & P0 & I0 & C0 & K0 & T0 & F0 & Sh0 & Sm0 & A0 & N0).
  { subst s0. destruct (resolved (initialized s)); simpl; repeat split; done. }
  assert (waiting s0 = waiting s) as W0 by (unfold waiting; by rewrite E0).
  assert (consistent s0) as Hs0 by (by apply (consistent_same_table s)).
  destruct (emit_each_fans_out data (elements (_inflight s0)) s0 Hs0)
    as (s1 & Hrun & Hs1 & Hd1 & Hw1 & _ & He1 & Hc1 & Ha1 & Hn1 & Ht1 & Hf1 & Hsh1 & Hsm1).
  { apply NoDup_elements. }
  { intros id Hid. by apply elem_of_elements in Hid. }
  rewrite Hrun. cbn [bind].
  destruct (emit_returns "close" data s1) as [s2 Hclose]; [discriminate|discriminate|].
  rewrite Hclose. cbn [bind].
  destruct (emit_dispatch _ _ _ _ Hs1 Hclose) as [Hs2 _].
  destruct (emit_frame _ _ _ _ Hs1 Hclose)
    as (Hw2 & _ & Hp2 & _ & Hc2 & Ha2 & Hn2 & Ht2 & Hf2 & Hsh2 & Hsm2).
  assert (forall id p, (id, p) ∈ waiting s ->
            promises s1 !! p = Some (settled_with data)
            /\ ((id, p) ∉ waiting s1)) as Hall.
  { intros id p Hin. rewrite <- W0 in Hin. apply (Hd1 id p Hin).
    apply elem_of_elements. by apply (waiting_inflight s0 id p). }
  assert (waiting s2 = []) as Hempty.
  { apply elem_of_nil_inv. intros [id p] Hin.
    apply Hw2 in Hin. pose proof (Hw1 _ Hin) as Hin0. rewrite W0 in Hin0.
    by apply (Hall id p Hin0). }
  eexists. split; [reflexivity|].
  unfold close_tunnels, set_closed_tunnels; fields. unfold waiting; fields.
  fold (waiting s2).
  split; [|split; [done|split; [|split; [|split; [|split; [|split]]]]]].
  - intros id p Hin. apply Hp2; [apply (Hall id p Hin) | discriminate].
  - apply elem_of_equiv_empty_L. intros id Hid.
    apply (inflight_ids s2 Hs2) in Hid. rewrite <- waiting_ids, Hempty in Hid.
    by apply elem_of_nil in Hid.
  - by rewrite Hn2, Hn1.
  - by rewrite Ha2, Ha1.
  - intros f Hf. rewrite Hc2. apply elem_of_app. right.
    apply notifications_close. apply list_elem_of_filter. split; [done|].
    apply He1; [by rewrite E0 | done].
  - by rewrite Ht2, Ht1, T0, Hf2, Hf1, F0, Hsh2, Hsh1, Sh0, Hsm2, Hsm1, Sm0.
  - by apply (consistent_same_table s2).
Qed.

Lemma socket_close_fans_out_witness :
  consistent two_pending
  /\ exists s', on_socket_close two_pending = Return s'
       /\ promises s' = [Failed (SocketError "Socket Closed");
                         Failed (SocketError "Socket Closed")]
       /\ _inflight s' = ∅
       /\ alive s' = false
       /\ initialized s' = Rejected (Str "Closed")
       /\ closed_tunnels s' = [0%nat; 1%nat].
Proof.
  split; [exact two_pending_consistent|].
  destruct (socket_close_fans_out two_pending two_pending_consistent)
    as (s' & Hrun & _ & _ & Hinfl & _ & _ & _ & _ & _).
  exists s'. split; [exact Hrun|].
  assert (Return (A:=session) s' = on_socket_close two_pending) as Heq by done.
  vm_compute in Heq. injection Heq as ->.
  repeat split; by vm_compute.
Defined.

End SessionFacts.

(** ** The file tunnel *)

Module FilesFacts.
Import JS Files.

Ltac fields :=
  unfold set_alive, set_initialized, set_recorded, set_request_id, set_queue,
    set_store, set_chain, set_awaiting, set_eventer, set_wire in *;
  cbn [alive initialized recorded _request_id _request_queue store chain
       awaiting _eventer wire id type finished size up target] in *.

(** *** The request counter *)

Lemma _get_request_id_zero t :
  _request_id t = 0 -> _get_request_id t = (0, t).
Proof.
  intros H0. unfold _get_request_id. destruct t; simpl in *. subst.
  reflexivity.
Qed.

(** *** The footprint of the handlers *)

Lemma later_request_refl r : later_request r r.
Proof. by repeat split. Qed.

Lemma later_request_trans r1 r2 r3 :
  later_request r1 r2 -> later_request r2 r3 -> later_request r1 r3.
Proof.
  intros (I1 & T1 & F1) (I2 & T2 & F2). repeat split; [congruence..|].
  intros Hne. rewrite F2; [by apply F1|]. by rewrite F1.
Qed.

Lemma quiet_refl t : quiet t t.
Proof. split; try done. intros h r Hr. exists r. split; [done|apply later_request_refl]. Qed.

Lemma quiet_trans t1 t2 t3 : quiet t1 t2 -> quiet t2 t3 -> quiet t1 t3.
Proof.
  intros [C1 A1 D1 N1 L1 S1] [C2 A2 D2 N2 L2 S2]. split; try congruence.
  intros h r Hr. destruct (S1 h r Hr) as (r' & Hr' & Hl).
  destruct (S2 h r' Hr') as (r'' & Hr'' & Hl').
  exists r''. split; [done|]. by eapply later_request_trans.
Qed.

Lemma quiet_update h f t :
  (forall r, later_request r (f r)) -> quiet t (update h f t).
Proof.
  intros Hf. split; unfold update; fields; try done.
  - apply length_alter.
  - intros h' r Hr. destruct (decide (h = h')) as [->|Hne].
    + exists (f r). split; [|apply Hf].
      etrans; [apply list_lookup_alter_eq|]. by rewrite Hr.
    + exists r. split; [|apply later_request_refl].
      etrans; [by apply list_lookup_alter_ne|]. done.
Qed.

Lemma quiet_send f t : quiet t (send Handler f t).
Proof.
  split; unfold send; fields; try done.
  - unfold dispatched; fields. rewrite omap_app. simpl. by rewrite app_nil_r.
  - intros h r Hr. exists r. split; [done|apply later_request_refl].
Qed.

Lemma quiet_same t t' :
  chain t' = chain t -> awaiting t' = awaiting t -> wire t' = wire t ->
  _request_id t' = _request_id t -> store t' = store t -> quiet t t'.
Proof.
  intros Hc Ha Hw Hn Hs. split; try done.
  - unfold dispatched. by rewrite Hw.
  - by rewrite Hs.
  - intros h r Hr. exists r. rewrite Hs. split; [done|apply later_request_refl].
Qed.

Lemma later_with_size n r : later_request r (with_size n r).
Proof. by repeat split. Qed.
Lemma later_with_up u r : later_request r (with_up u r).
Proof. by repeat split. Qed.
Lemma later_with_target s r : later_request r (with_target s r).
Proof. by repeat split. Qed.
Lemma later_resolve v r : later_request r (with_finished (resolve v (finished r)) r).
Proof. repeat split. simpl. by destruct (finished r). Qed.
Lemma later_reject v r : later_request r (with_finished (reject v (finished r)) r).
Proof. repeat split. simpl. by destruct (finished r). Qed.

Lemma quiet_settle_head data t t' :
  settle_head data t = Return t' -> quiet t t'.
Proof.
  unfold settle_head. destruct (_request_queue t) as [|h q]; [discriminate|].
  destruct (get data "result") as [res| |]; simpl; try discriminate.
  destruct (loose_eq_str res "success"); intros [= <-].
  - eapply quiet_trans; [apply (quiet_same t (set_queue q t)); reflexivity|].
    apply quiet_update. apply later_resolve.
  - eapply quiet_trans; [apply (quiet_same t (set_queue q t)); reflexivity|].
    apply quiet_update. apply later_reject.
Qed.

Lemma quiet_call_listeners topic data : forall n t t',
  call_listeners n topic data t = Return t' -> quiet t t'.
Proof.
  induction n as [|n IH]; intros t t' Hcall.
  - injection Hcall as <-. apply quiet_refl.
  - simpl in Hcall.
    destruct (settle_head data _) as [t1| |] eqn:Hhead; try discriminate.
    simpl in Hcall. apply quiet_settle_head in Hhead. apply IH in Hcall.
    eapply quiet_trans; [|exact Hcall].
    eapply quiet_trans; [|exact Hhead]. by apply quiet_same.
Qed.

Lemma quiet_emit topic data t t' : emit topic data t = Return t' -> quiet t t'.
Proof. apply quiet_call_listeners. Qed.

Lemma quiet_on_chunk h c t : quiet t (on_chunk h c t).
Proof.
  unfold on_chunk. destruct (Upload.upload_frame c); [|apply quiet_refl].
  eapply quiet_trans; [eapply quiet_trans|].
  - apply quiet_update. intros. apply later_with_size.
  - apply quiet_send.
  - apply quiet_update. intros. apply later_with_up.
Qed.

Lemma quiet_on_chunker_end h t : quiet t (on_chunker_end h t).
Proof.
  unfold on_chunker_end.
  match goal with |- context [store ?u !! h] => set (t1 := u) end.
  assert (quiet t t1) as H1 by (apply quiet_update; intros; apply later_with_up).
  destruct (store t1 !! h) as [r|]; [|done].
  destruct (inflight (up r) =? 0); [|done].
  eapply quiet_trans; [exact H1 | apply quiet_send].
Qed.

Lemma quiet_repeat_on (f : files -> files) :
  (forall t, quiet t (f t)) -> forall n t, quiet t (repeat_on n f t).
Proof.
  intros Hf. induction n as [|n IH]; intros t; [apply quiet_refl|].
  simpl. eapply quiet_trans; [apply Hf | apply IH].
Qed.

Lemma quiet_deliver h n : forall pushed t, quiet t (deliver h n pushed t).
Proof.
  unfold deliver. induction pushed as [|c pushed IH]; intros t; [apply quiet_refl|].
  simpl. eapply quiet_trans; [|apply IH].
  apply quiet_repeat_on. intros. apply quiet_on_chunk.
Qed.

Lemma quiet_source_data h chunk : forall pipes t t',
  source_data pipes h chunk t = Return t' -> quiet t t'.
Proof.
  induction pipes as [|pipes IH]; intros t t' Hrun.
  - injection Hrun as <-. apply quiet_refl.
  - simpl in Hrun. destruct (store t !! h) as [r|]; [|injection Hrun as <-; apply quiet_refl].
    destruct (Upload._transform _ _ _) as [[pushed buffer]|]; [|discriminate].
    apply IH in Hrun. eapply quiet_trans; [|exact Hrun].
    eapply quiet_trans; [|apply quiet_deliver].
    apply quiet_update. intros. apply later_with_up.
Qed.

Lemma quiet_source_end h t : quiet t (source_end h t).
Proof.
  unfold source_end. destruct (store t !! h) as [r|]; [|apply quiet_refl].
  destruct (0 <? piped (up r))%nat; [|apply quiet_refl].
  eapply quiet_trans; [apply quiet_deliver|].
  apply quiet_repeat_on. intros. apply quiet_on_chunker_end.
Qed.

Lemma quiet_on_close t : quiet t (_on_close t).
Proof.
  unfold _on_close.
  assert (forall q u, quiet u
            (fold_left (fun t h => update h (fun r => with_finished
                          (reject (Str "Socket closed") (finished r)) r) t) q u)) as Hfold.
  { induction q as [|h q IH]; intros u; [apply quiet_refl|]. simpl.
    eapply quiet_trans; [|apply IH]. apply quiet_update. intros. apply later_reject. }
  eapply quiet_trans; [|apply Hfold]. by apply quiet_same.
Qed.

Lemma quiet_session_settles ok data t t' :
  session_settles ok data t = Return t' -> quiet t t'.
Proof.
  unfold session_settles. destruct (_request_queue t) as [|h q]; [discriminate|].
  intros [= <-].
  eapply quiet_trans; [apply (quiet_same t (set_queue q t)); reflexivity|].
  apply quiet_update. intros r. destruct ok; [apply later_resolve|apply later_reject].
Qed.

Section HandlerFacts.
Variable JSON_parse : list Z -> option value.

Lemma quiet_handle_upload raw h t t' :
  _handle_upload JSON_parse raw h t = Return t' -> quiet t t'.
Proof.
  unfold _handle_upload.
  destruct (JSON_parse raw) as [cmd|]; [|intros [= <-]; apply quiet_refl].
  destruct (store t !! h) as [req|]; [|intros [= <-]; apply quiet_refl].
  destruct (get cmd "reqid") as [reqid| |]; simpl; try discriminate.
  destruct (loose_eq reqid (id req)) as [[|]| |]; cbn [bind]; try discriminate; [|intros [= <-]; apply quiet_refl].
  destruct (get cmd "action") as [action| |]; simpl; try discriminate.
  destruct (loose_eq action "uploaddone") as [[|]| |]; cbn [bind]; try discriminate; [apply quiet_emit|].
  destruct (strict_eq_str action "uploadstart").
  { intros [= <-]. apply quiet_update. intros. apply later_with_up. }
  destruct (strict_eq_str action "uploadack").
  { destruct (complete (up req) && (inflight (up req) - 1 =? 0)); intros [= <-].
    - eapply quiet_trans; [|apply quiet_send].
      apply quiet_update. intros. apply later_with_up.
    - apply quiet_update. intros. apply later_with_up. }
  destruct (loose_eq action "uploaderror") as [[|]| |]; cbn [bind]; try discriminate; [apply quiet_emit|].
  intros [= <-]. apply quiet_refl.
Qed.

Lemma quiet_handle_download raw h t t' :
  _handle_download JSON_parse raw h t = Return t' -> quiet t t'.
Proof.
  unfold _handle_download.
  destruct (store t !! h) as [req|]; [|intros [= <-]; apply quiet_refl].
  set (t1 := if (4 <? length raw)%nat
             then update h (fun r =>
                    with_size (size r + (Z.of_nat (length raw) - 4))
                      (with_target (mk_sink (written (target r) ++ Buffer.slice_from raw 4)
                                            (ended (target r))) r)) t
             else t).
  assert (quiet t t1) as H1.
  { subst t1. destruct (4 <? length raw)%nat; [|apply quiet_refl].
    apply quiet_update. intros r. by repeat split. }
  assert (forall t',
    (if negb (end_flag raw =? 0)
     then match store (update h end_target t1) !! h with
          | Some req0 => emit (id req0) (outcome "success" req0) (update h end_target t1)
          | None => Return (update h end_target t1)
          end
     else Return (send Handler (download_ack req) t1)) = Return t' -> quiet t t') as Hdata.
  { intros u. destruct (negb (end_flag raw =? 0)).
    - assert (quiet t (update h end_target t1)) as H2.
      { eapply quiet_trans; [exact H1|]. apply quiet_update. intros r. by repeat split. }
      destruct (store (update h end_target t1) !! h) as [req0|].
      + intros He. apply quiet_emit in He. by eapply quiet_trans.
      + by intros [= <-].
    - intros [= <-]. eapply quiet_trans; [exact H1|apply quiet_send]. }
  assert (forall cmd,
    bind (get cmd "action") (fun action =>
      bind (loose_eq action "download") (fun is_download =>
      if is_download then
        bind (get cmd "id") (fun cid =>
        bind (loose_eq cid (id req)) (fun same_id =>
        if negb same_id then Return t
        else
          bind (get cmd "sub") (fun sub =>
          bind (loose_eq sub "start") (fun is_start =>
          if is_start then
            Return (send Handler (download_startack req) t)
          else
            bind (loose_eq sub "cancel") (fun is_cancel =>
            if is_cancel then
              emit (id req) (outcome "canceled" req) (update h end_target t)
            else Return t)))))
      else Return t)) = Return t' -> quiet t t') as Hjson.
  { intros cmd.
    destruct (get cmd "action") as [action| |]; cbn [bind]; try discriminate.
    destruct (loose_eq action "download") as [[|]| |]; cbn [bind]; try discriminate; [|intros [= <-]; apply quiet_refl].
    destruct (get cmd "id") as [cid| |]; cbn [bind]; try discriminate.
    destruct (loose_eq cid (id req)) as [[|]| |]; cbn [bind negb]; try discriminate; [|intros [= <-]; apply quiet_refl].
    destruct (get cmd "sub") as [sub| |]; cbn [bind]; try discriminate.
    destruct (loose_eq sub "start") as [[|]| |]; cbn [bind]; try discriminate; [intros [= <-]; apply quiet_send|].
    destruct (loose_eq sub "cancel") as [[|]| |]; cbn [bind]; try discriminate; [|intros [= <-]; apply quiet_refl].
    intros He. apply quiet_emit in He. eapply quiet_trans; [|exact He].
    apply quiet_update. intros r. by repeat split. }
  destruct (JSON_parse raw) as [cmd|]; [|apply Hdata].
  destruct cmd; first [apply Hdata | apply Hjson].
Qed.

Lemma quiet_receive flag raw t t' :
  receive JSON_parse flag raw t = Return t' -> quiet t t'.
Proof.
  unfold receive. destruct flag.
  - destruct (_request_queue t) as [|h q] eqn:Hq; [intros [= <-]; apply quiet_refl|].
    destruct (_ && _).
    + unfold _handle_action. destruct (JSON_parse raw); [|discriminate].
      rewrite Hq. intros [= <-].
      eapply quiet_trans; [apply (quiet_same t (set_queue q t)); reflexivity|].
      apply quiet_update. intros. apply later_resolve.
    + destruct (String.eqb _ "upload"); [apply quiet_handle_upload|].
      destruct (String.eqb _ "download"); [apply quiet_handle_download|].
      intros [= <-]. apply quiet_refl.
  - intros [= <-].
    eapply quiet_trans; [eapply quiet_trans; [eapply quiet_trans|]|].
    + apply (quiet_same t (set_recorded (Some (is_cr raw)) t)); reflexivity.
    + apply quiet_send.
    + by apply quiet_same.
    + by apply quiet_same.
Qed.

Lemma quiet_receive_turn flag : forall frames t t',
  receive_turn JSON_parse flag frames t = Return t' -> quiet t t'.
Proof.
  induction frames as [|raw frames IH]; intros t t'; cbn [receive_turn].
  - intros [= <-]. apply quiet_refl.
  - destruct (receive JSON_parse flag raw t) as [t1| |] eqn:H1; cbn [bind]; try discriminate.
    intros H2. eapply quiet_trans; [by eapply quiet_receive|by apply IH].
Qed.

(** What one event does before the promise jobs run: it is quiet, or it
    queues one request. *)
Lemma handle_footprint e t t' :
  handle JSON_parse e t = Return t' ->
  quiet t t'
  \/ exists r frame listen,
       t' = enqueue r frame listen (snd (_get_request_id t))
       /\ (_request_id t = 0 -> stuck_id r).
Proof.
  destruct e as [data name|ended target name|source|raw|frames| | |ok data|h chunk|h];
    cbn [handle].
  - unfold _send_command. destruct (negb (alive t)); [intros [= <-]; left; apply quiet_refl|].
    destruct (_get_request_id t) as [n t1] eqn:Hid. intros [= <-]. right.
    cbn [snd]. do 3 eexists. split; [reflexivity|]. intros H0.
    rewrite _get_request_id_zero in Hid by done. injection Hid as <- <-.
    right. right. reflexivity.
  - unfold upload. destruct ended; [intros [= <-]; left; apply quiet_refl|].
    destruct (_get_request_id t) as [n t1] eqn:Hid. intros [= <-]. right.
    cbn [snd]. do 3 eexists. split; [reflexivity|]. intros H0.
    rewrite _get_request_id_zero in Hid by done. injection Hid as <- <-.
    left. reflexivity.
  - unfold download. destruct (_get_request_id t) as [n t1] eqn:Hid. intros [= <-].
    right. cbn [snd]. do 3 eexists. split; [reflexivity|]. intros H0.
    rewrite _get_request_id_zero in Hid by done. injection Hid as <- <-.
    right. left. reflexivity.
  - intros Hm. left. by eapply quiet_receive.
  - intros Hm. left. by eapply quiet_receive_turn.
  - intros [= <-]. left.
    eapply quiet_trans; [apply (quiet_same t (set_alive false t)); reflexivity|].
    destruct (resolved _); [apply quiet_on_close | apply quiet_refl].
  - intros [= <-]. left. by apply quiet_same.
  - intros H. left. by eapply quiet_session_settles.
  - destruct (store t !! h) as [r|]; [|intros [= <-]; left; apply quiet_refl].
    intros H. left. by eapply quiet_source_data.
  - intros [= <-]. left. apply quiet_source_end.
Qed.

End HandlerFacts.

(** *** The order of the queue *)

Lemma settled_quiet t t' h : quiet t t' -> settled t h -> settled t' h.
Proof.
  intros Hq (r & Hr & Hne). destruct (quiet_store _ _ Hq h r Hr) as (r' & Hr' & _ & _ & Hf).
  exists r'. split; [done|]. by rewrite Hf.
Qed.

Lemma orderly_quiet pending t t' :
  quiet t t' -> orderly_with pending t -> orderly_with pending t'.
Proof.
  intros Hq [H1 H2 H3 H4]. pose proof Hq as [Hc Ha Hd Hn Hl Hs].
  split; rewrite ?Hd, ?Hl, ?Ha; try done.
  - intros h Hh Hlast. eapply settled_quiet; eauto.
  - destruct (awaiting t); [done|]. intros h Hh. eapply settled_quiet; eauto.
Qed.

Lemma dispatched_enqueue r frame listen t :
  dispatched (enqueue r frame listen t) = dispatched t.
Proof. reflexivity. Qed.

Lemma settled_grow t h r :
  settled t h -> settled (set_store (store t ++ [r]) t) h.
Proof.
  intros (r0 & Hr0 & Hne). exists r0. split; [|done].
  fields. by apply lookup_app_l_Some.
Qed.

Lemma orderly_enqueue r frame listen t :
  orderly t -> orderly (enqueue r frame listen t).
Proof.
  intros [H1 H2 H3 H4]. unfold orderly, enqueue. split; fields.
  - unfold dispatched; fields. fold (dispatched t).
    rewrite map_app, app_assoc. apply StronglySorted_app. split; [|split].
    + intros x y Hx Hy. apply list_elem_of_singleton in Hy as ->.
      rewrite Forall_forall in H2. by apply H2.
    + done.
    + repeat constructor.
  - unfold dispatched; fields. fold (dispatched t).
    rewrite map_app, app_assoc, length_app. simpl.
    apply Forall_app. split.
    + eapply Forall_impl; [exact H2|]. simpl. lia.
    + repeat constructor. lia.
  - intros h Hh Hlast. unfold dispatched in *; fields.
    destruct (H3 h Hh Hlast) as (r0 & Hr0 & Hne).
    exists r0. split; [|done]. fields. by apply lookup_app_l_Some.
  - unfold dispatched; fields. fold (dispatched t).
    destruct (awaiting t); [done|]. intros h Hh.
    destruct (H4 h Hh) as (r0 & Hr0 & Hne).
    exists r0. split; [|done]. fields. by apply lookup_app_l_Some.
Qed.

Lemma dispatched_run_thunk k t :
  dispatched (run_thunk k t)
  = dispatched t ++ (if alive t then [thunk_request k] else []).
Proof.
  unfold run_thunk. destruct (alive t).
  - destruct (thunk_listen k); unfold dispatched, send; fields;
      by rewrite omap_app.
  - unfold dispatched; fields. by rewrite app_nil_r.
Qed.

Lemma store_run_thunk k t : store (run_thunk k t) = store t.
Proof. unfold run_thunk. destruct (alive t); [|done]. by destruct (thunk_listen k). Qed.

Lemma alive_run_thunk k t : alive (run_thunk k t) = alive t.
Proof. unfold run_thunk. destruct (alive t) eqn:Ha; [|done]. by destruct (thunk_listen k). Qed.

Lemma awaiting_run_thunk k t :
  awaiting (run_thunk k t) = if alive t then Some (thunk_request k) else None.
Proof. unfold run_thunk. destruct (alive t); [|done]. by destruct (thunk_listen k). Qed.

(** When the chain is not held up, every dispatched request has settled. *)
Lemma unblocked_all_settled pending t :
  orderly_with pending t -> blocked t = false ->
  forall h, h ∈ dispatched t -> settled t h.
Proof.
  intros [H1 H2 H3 H4] Hb h Hh. unfold blocked in Hb.
  destruct (awaiting t) as [a|]; [|by apply H4].
  destruct (decide (last (dispatched t) = Some h)) as [Hl|Hl]; [|by apply H3].
  assert (a = h) as -> by congruence.
  rewrite Forall_forall in H2.
  assert (h < length (store t))%nat as Hlt by (apply H2, elem_of_app; by left).
  destruct (lookup_lt_is_Some_2 _ _ Hlt) as [r Hr]. rewrite Hr in Hb.
  exists r. split; [done|]. by destruct (finished r).
Qed.

Lemma orderly_run_thunk k rest t :
  orderly_with (k :: rest) t -> blocked t = false ->
  orderly_with rest (run_thunk k t).
Proof.
  intros Ho Hb. pose proof (unblocked_all_settled _ _ Ho Hb) as Hall.
  destruct Ho as [H1 H2 H3 H4].
  assert (forall h, settled t h -> settled (run_thunk k t) h) as Hkeep.
  { intros h (r & Hr & Hne). exists r. by rewrite store_run_thunk. }
  split; rewrite ?dispatched_run_thunk, ?store_run_thunk, ?awaiting_run_thunk.
  - destruct (alive t).
    + by rewrite <- app_assoc.
    + rewrite app_nil_r. simpl in H1. apply StronglySorted_app in H1 as (Hlt & Hd & Hr).
      apply StronglySorted_app. split; [|split; [done|]].
      * intros x y Hx Hy. apply Hlt; [done|]. by apply list_elem_of_further.
      * by apply StronglySorted_cons in Hr as [_ ?].
  - destruct (alive t).
    + by rewrite <- app_assoc.
    + rewrite app_nil_r. simpl in H2. apply Forall_app in H2 as [Hd Hr].
      apply Forall_app. split; [done|]. by apply Forall_cons in Hr as [_ ?].
  - intros h Hh Hlast. apply Hkeep. destruct (alive t).
    + apply elem_of_app in Hh as [Hh|Hh]; [by apply Hall|].
      apply list_elem_of_singleton in Hh as ->. by rewrite last_snoc in Hlast.
    + rewrite app_nil_r in Hh. by apply Hall.
  - destruct (alive t).
    + by rewrite last_snoc.
    + intros h Hh. rewrite app_nil_r in Hh. by apply Hkeep, Hall.
Qed.

Lemma orderly_run_chain : forall pending t,
  orderly_with pending t -> orderly (run_chain pending t).
Proof.
  induction pending as [|k rest IH]; intros t Ho; simpl.
  - by destruct Ho.
  - destruct (blocked t) eqn:Hb.
    + by destruct Ho.
    + apply IH. by apply orderly_run_thunk.
Qed.

Lemma orderly_drain t : orderly t -> orderly (drain t).
Proof. apply orderly_run_chain. Qed.

Lemma run_chain_wire : forall pending t,
  alive (run_chain pending t) = alive t
  /\ (exists new, dispatched (run_chain pending t) = dispatched t ++ new)
  /\ (alive t = false -> dispatched (run_chain pending t) = dispatched t)
  /\ _request_id (run_chain pending t) = _request_id t
  /\ store (run_chain pending t) = store t.
Proof.
  induction pending as [|k rest IH]; intros t; simpl.
  - repeat split; try done. exists []. by rewrite app_nil_r.
  - destruct (blocked t).
    + repeat split; try done. exists []. by rewrite app_nil_r.
    + destruct (IH (run_thunk k t)) as (Ha & [new Hnew] & Hdead & Hn & Hs).
      rewrite alive_run_thunk in *. rewrite dispatched_run_thunk in *.
      rewrite store_run_thunk in Hs.
      split; [done|]. split; [|split; [|split; [|done]]].
      * eexists. rewrite Hnew, <- app_assoc. reflexivity.
      * intros Hd. rewrite (Hdead Hd), Hd. by rewrite app_nil_r.
      * rewrite Hn. unfold run_thunk. destruct (alive t); [|done].
        by destruct (thunk_listen k).
Qed.

Lemma run_chain_handler_frames : forall pending t,
  handler_frames (wire (run_chain pending t)) = handler_frames (wire t).
Proof.
  induction pending as [|k rest IH]; intros t; simpl; [done|].
  destruct (blocked t); [done|]. rewrite IH. unfold run_thunk.
  destruct (alive t); [|done].
  destruct (thunk_listen k); unfold send, handler_frames; fields;
    rewrite omap_app; simpl; by rewrite app_nil_r.
Qed.

Lemma orderly_get_request_id t : orderly t -> orderly (snd (_get_request_id t)).
Proof. intros [H1 H2 H3 H4]. by split. Qed.

Lemma orderly_constructed : orderly constructed.
Proof.
  split; simpl; try done.
  - constructor.
  - intros h Hh. by apply elem_of_nil in Hh.
  - intros h Hh. by apply elem_of_nil in Hh.
Qed.

Section QueueFacts.
Variable JSON_parse : list Z -> option value.

Lemma orderly_handle e t t' :
  orderly t -> handle JSON_parse e t = Return t' -> orderly t'.
Proof.
  intros Ho Hh. destruct (handle_footprint _ _ _ _ Hh) as [Hq|(r & f & l & -> & _)].
  - unfold orderly. rewrite (quiet_chain _ _ Hq). by apply (orderly_quiet _ t).
  - apply orderly_enqueue. by apply orderly_get_request_id.
Qed.

Lemma orderly_step e t t' :
  orderly t -> step JSON_parse e t = Return t' -> orderly t'.
Proof.
  intros Ho Hs. unfold step in Hs.
  destruct (handle JSON_parse e t) as [t1| |] eqn:Hh; try discriminate.
  injection Hs as <-. apply orderly_drain. by eapply orderly_handle.
Qed.

Lemma orderly_run : forall es t t',
  orderly t -> run JSON_parse es t = Return t' -> orderly t'.
Proof.
  induction es as [|e es IH]; intros t t' Ho Hr.
  - by injection Hr as <-.
  - simpl in Hr. destruct (step JSON_parse e t) as [t1| |] eqn:Hs; try discriminate.
    simpl in Hr. eapply IH; [|exact Hr]. by eapply orderly_step.
Qed.

Lemma dispatched_handle e t t' :
  handle JSON_parse e t = Return t' -> dispatched t' = dispatched t.
Proof.
  intros Hh.
  destruct (handle_footprint _ _ _ _ Hh) as [Hq|(r & f & l & -> & _)].
  - apply Hq.
  - reflexivity.
Qed.

(** X27: in every state a file tunnel reaches from its construction, the
    requests whose opening frame has been sent, followed by those whose
    continuation is still chained, are in the order in which they were
    queued (requests are numbered as they are queued); every request whose
    opening frame has been sent, except the one sent last, has settled, so
    the opening frame of the next request went out only after the request
    before it had settled; and an event adds opening frames to the wire
    only when the tunnel is alive afterwards (the flag does not change
    while the continuations run), earlier frames staying in place.  This
    is about opening frames only: the frames that handlers send are not
    ordered by it. *)
Theorem queue_dispatches_in_order_one_at_a_time (es : list event) (t : files) :
  run JSON_parse es constructed = Return t ->
  StronglySorted lt (dispatched t ++ map thunk_request (chain t))
  /\ (forall h, h ∈ dispatched t -> last (dispatched t) <> Some h -> settled t h)
  /\ (forall e t', step JSON_parse e t = Return t' ->
        (exists new, dispatched t' = dispatched t ++ new)
        /\ (alive t' = false -> dispatched t' = dispatched t)).
Proof.
  intros Hrun. pose proof (orderly_run _ _ _ orderly_constructed Hrun) as [H1 _ H3 _].
  split; [done|]. split; [done|].
  intros e t' Hs. unfold step in Hs.
  destruct (handle JSON_parse e t) as [t1| |] eqn:Hh; try discriminate.
  injection Hs as <-. pose proof (dispatched_handle _ _ _ Hh) as Hd.
  destruct (run_chain_wire (chain t1) t1) as (Ha & Hnew & Hdead & _).
  unfold drain. rewrite <- Hd. split; [done|].
  intros Hfalse. apply Hdead. by rewrite <- Ha.
Qed.

End QueueFacts.

Lemma example_queue_runs :
  run binary_only example_queue constructed = Return example_downloading.
Proof. by vm_compute. Qed.

Lemma example_download_runs :
  run binary_only (map Message (example_frames ++ [example_final])) example_downloading
  = Return example_done.
Proof. by vm_compute. Qed.

Lemma queue_dispatches_in_order_one_at_a_time_witness :
  run binary_only (example_queue ++ map Message (example_frames ++ [example_final]))
      constructed = Return example_done
  /\ dispatched example_done = [0; 1]%nat
  /\ StronglySorted lt (dispatched example_done
                         ++ map thunk_request (chain example_done))
  /\ (forall h, h ∈ dispatched example_done ->
        last (dispatched example_done) <> Some h -> settled example_done h).
Proof.
  assert (run binary_only
            (example_queue ++ map Message (example_frames ++ [example_final]))
            constructed = Return example_done) as Hrun by (by vm_compute).
  destruct (queue_dispatches_in_order_one_at_a_time binary_only _ _ Hrun)
    as (Hsorted & Hsettled & _).
  split; [exact Hrun|]. split; [by vm_compute|]. split; [exact Hsorted|exact Hsettled].
Defined.

(** *** The download handler *)

Lemma end_flag_final raw : (end_flag raw =? 0) = negb (is_final raw).
Proof.
  unfold end_flag, is_final. destruct (raw !! 3%nat) as [b|]; [|done].
  change 1 with (Z.ones 1). rewrite Z.land_ones by lia.
  change (2 ^ 1) with 2. rewrite Zmod_odd. by destruct (Z.odd b).
Qed.

Lemma drain_blocked t : blocked t = true -> drain t = t.
Proof.
  intros Hb. unfold drain. destruct t as [a i r n q s c w e wi]. simpl.
  destruct c as [|k c]; [done|]. simpl. unfold blocked in *. simpl in *.
  by rewrite Hb.
Qed.

Lemma payload_slice raw :
  (if (4 <? length raw)%nat then Buffer.slice_from raw 4 else []) = drop 4 raw.
Proof.
  change 4 with (Z.of_nat 4). rewrite BufferFacts.slice_from_nonneg.
  destruct (Nat.ltb_spec 4 (length raw)); [done|]. by rewrite drop_ge by lia.
Qed.

Section DownloadFacts.
Variable JSON_parse : list Z -> option value.

(** A data frame that is not the last: its payload goes to the sink and
    one acknowledgment goes out. *)
Lemma download_frame h req raw t :
  downloading h req t -> JSON_parse raw = None -> is_final raw = false ->
  exists t' req',
    step JSON_parse (Message raw) t = Return t'
    /\ downloading h req' t'
    /\ id req' = id req
    /\ written (target req') = written (target req) ++ drop 4 raw
    /\ ended (target req') = ended (target req)
    /\ size req' = size req + Z.of_nat (length (drop 4 raw))
    /\ wire t' = wire t ++ [(Handler, download_ack req)].
Proof.
  intros [Hi [q Hq] Hr Ht Hp Ha Hl] Hparse Hfinal.
  unfold step. cbn [handle]. unfold _receive_message. rewrite Hi. unfold receive. rewrite Hq, Hr.
  simpl (default _ _). rewrite Ht.
  change (String.eqb "download" "upload") with false.
  change (String.eqb "download" "download") with true.
  rewrite andb_false_r. cbn [orb negb].
  unfold _handle_download. rewrite Hr, Hparse, end_flag_final, Hfinal. cbn [negb bind].
  set (t1 := if (4 <? length raw)%nat then _ else t).
  set (req' := mk_request (id req) (type req) (finished req)
                 (size req + Z.of_nat (length (drop 4 raw))) (up req)
                 (mk_sink (written (target req) ++ drop 4 raw) (ended (target req)))).
  assert (store t1 !! h = Some req' \/ (store t1 !! h = Some req /\ drop 4 raw = []))
    as Hstore.
  { subst t1. destruct (Nat.ltb_spec 4 (length raw)) as [Hlt|Hge].
    - left. unfold update; fields.
      etrans; [apply list_lookup_alter_eq|]. rewrite Hr. simpl. f_equal.
      unfold req', with_size, with_target. simpl. f_equal.
      + rewrite length_drop. lia.
      + f_equal. f_equal. change 4 with (Z.of_nat 4).
        apply BufferFacts.slice_from_nonneg.
    - right. split; [done|]. by rewrite drop_ge by lia. }
  assert (_request_queue t1 = _request_queue t
          /\ initialized t1 = initialized t /\ _eventer t1 = _eventer t
          /\ wire t1 = wire t /\ awaiting t1 = awaiting t /\ chain t1 = chain t)
    as (Hq1 & Hi1 & He1 & Hw1 & Ha1 & Hc1).
  { subst t1. destruct (4 <? length raw)%nat; repeat split; done. }
  assert (exists r1, store t1 !! h = Some r1 /\ id r1 = id req /\ type r1 = type req
            /\ finished r1 = Pending
            /\ written (target r1) = written (target req) ++ drop 4 raw
            /\ ended (target r1) = ended (target req)
            /\ size r1 = size req + Z.of_nat (length (drop 4 raw)))
    as (r1 & Hr1 & Hid1 & Hty1 & Hf1 & Hwr1 & Hen1 & Hsz1).
  { destruct Hstore as [Hs|[Hs Hnil]].
    - exists req'. by repeat split.
    - exists req. rewrite Hnil, app_nil_r. simpl. repeat split; try done. lia. }
  set (t2 := send Handler (download_ack req) t1).
  assert (blocked t2 = true) as Hb.
  { unfold blocked, t2, send; fields. rewrite Ha1, Ha, Hr1. by rewrite Hf1. }
  cbn [bind]. rewrite (drain_blocked _ Hb).
  exists t2, r1. split; [done|]. split; [|repeat split; try done].
  - split; unfold t2, send; fields; try congruence.
    + exists q. congruence.
    + by rewrite He1, Hid1.
  - unfold t2, send; fields. by rewrite Hw1.
Qed.

(** The last data frame: its payload goes to the sink, the sink is ended,
    the request settles with the size received, and no acknowledgment goes
    out. *)
Lemma download_last_frame h req raw t :
  downloading h req t -> JSON_parse raw = None -> is_final raw = true ->
  exists t' req',
    step JSON_parse (Message raw) t = Return t'
    /\ store t' !! h = Some req'
    /\ written (target req') = written (target req) ++ drop 4 raw
    /\ ended (target req') = true
    /\ size req' = size req + Z.of_nat (length (drop 4 raw))
    /\ finished req' = Resolved (Obj [("result", Str "success"); ("size", Num (size req'))])
    /\ handler_frames (wire t') = handler_frames (wire t).
Proof.
  intros [Hi [q Hq] Hr Ht Hp Ha Hl] Hparse Hfinal.
  unfold step. cbn [handle]. unfold _receive_message. rewrite Hi. unfold receive. rewrite Hq, Hr.
  simpl (default _ _). rewrite Ht.
  change (String.eqb "download" "upload") with false.
  change (String.eqb "download" "download") with true.
  rewrite andb_false_r. cbn [orb negb].
  unfold _handle_download. rewrite Hr, Hparse, end_flag_final, Hfinal. cbn [negb bind].
  set (t1 := if (4 <? length raw)%nat then _ else t).
  assert (_request_queue t1 = _request_queue t /\ _eventer t1 = _eventer t
          /\ wire t1 = wire t /\ length (store t1) = length (store t))
    as (Hq1 & He1 & Hw1 & Hlen1).
  { subst t1. destruct (4 <? length raw)%nat; repeat split; try done.
    unfold update; fields. apply length_alter. }
  assert (exists r1, store t1 !! h = Some r1 /\ id r1 = id req
            /\ finished r1 = Pending
            /\ written (target r1) = written (target req) ++ drop 4 raw
            /\ size r1 = size req + Z.of_nat (length (drop 4 raw)))
    as (r1 & Hr1 & Hid1 & Hf1 & Hwr1 & Hsz1).
  { subst t1. destruct (Nat.ltb_spec 4 (length raw)) as [Hlt|Hge].
    - eexists. split; [unfold update; fields; etrans;
                        [apply list_lookup_alter_eq|]; by rewrite Hr|].
      simpl. repeat split; try done.
      + f_equal. change 4 with (Z.of_nat 4). apply BufferFacts.slice_from_nonneg.
      + rewrite length_drop. lia.
    - exists req. rewrite drop_ge by lia. rewrite app_nil_r. simpl.
      repeat split; try done. lia. }
  set (t2 := update h end_target t1).
  assert (store t2 !! h = Some (end_target r1)) as Hr2.
  { unfold t2, update; fields. etrans; [apply list_lookup_alter_eq|]. by rewrite Hr1. }
  rewrite Hr2. unfold emit.
  assert (_eventer t2 = _eventer t) as He2 by (unfold t2, update; fields; done).
  cbn [id end_target with_target]. rewrite He2, Hid1, Hl.
  cbn [length call_listeners]. unfold settle_head.
  assert (_request_queue (set_eventer (remove_first (id req) (_eventer t2)) t2) = h :: q)
    as -> by (unfold t2, update; fields; congruence).
  cbn [bind get outcome assoc]. cbn [String.eqb Ascii.eqb Bool.eqb default].
  change (loose_eq_str (Str "success") "success") with true. cbv iota.
  cbn [bind].
  eexists. eexists. split; [reflexivity|].
  destruct (run_chain_wire (chain (update h (fun r : request =>
              with_finished
                (resolve (outcome "success" (end_target r1)) (finished r)) r)
              (set_queue q (set_eventer (remove_first (id req) (_eventer t2)) t2))))
              (update h (fun r : request =>
              with_finished
                (resolve (outcome "success" (end_target r1)) (finished r)) r)
              (set_queue q (set_eventer (remove_first (id req) (_eventer t2)) t2))))
    as (_ & _ & _ & _ & Hstore).
  unfold drain. rewrite Hstore. unfold update at 1; fields.
  split; [etrans; [apply list_lookup_alter_eq|]; by rewrite Hr2|].
  rewrite run_chain_handler_frames.
  unfold end_target, with_finished, with_target, outcome; fields. cbn.
  rewrite Hf1. cbn. unfold t2, update; fields. rewrite Hw1.
  repeat split; done.
Qed.

(** X28: while a download is the active request of a file tunnel and
    the listener of its dispatch is the only one registered under its id,
    every inbound frame that is not JSON text has the bytes after its four
    header bytes appended to the sink, in the order of arrival (a frame of
    four bytes or fewer adds nothing); a frame whose fourth byte has its
    low bit clear is answered by one acknowledgment frame; the frame whose
    fourth byte has its low bit set ends the sink and settles the request
    with the size received, and is not acknowledged.  So after [frames]
    and then [final], the sink holds the payloads of all of them in order
    and the handlers have sent one acknowledgment per frame of [frames]
    and nothing else. *)
Theorem download_stop_and_wait (frames : list (list Z)) :
  forall (final : list Z) (h : nat) (req : request) (t : files),
  downloading h req t ->
  Forall (fun raw => JSON_parse raw = None /\ is_final raw = false) frames ->
  JSON_parse final = None -> is_final final = true ->
  exists t' req',
    run JSON_parse (map Message (frames ++ [final])) t = Return t'
    /\ store t' !! h = Some req'
    /\ written (target req')
       = written (target req) ++ concat (map (drop 4) (frames ++ [final]))
    /\ ended (target req') = true
    /\ size req'
       = size req + Z.of_nat (length (concat (map (drop 4) (frames ++ [final]))))
    /\ finished req'
       = Resolved (Obj [("result", Str "success"); ("size", Num (size req'))])
    /\ handler_frames (wire t')
       = handler_frames (wire t) ++ replicate (length frames) (download_ack req).
Proof.
  induction frames as [|raw frames IH]; intros final h req t Hd Hall Hparse Hfinal.
  - destruct (download_last_frame h req final t Hd Hparse Hfinal)
      as (t' & req' & Hstep & Hs & Hw & He & Hsz & Hf & Hfr).
    exists t', req'. simpl. rewrite Hstep. cbn [bind]. rewrite !app_nil_r.
    repeat split; done.
  - apply Forall_cons in Hall as [[Hp Hnf] Hall].
    destruct (download_frame h req raw t Hd Hp Hnf)
      as (t1 & req1 & Hstep & Hd1 & Hid1 & Hw1 & He1 & Hsz1 & Hwire1).
    destruct (IH final h req1 t1 Hd1 Hall Hparse Hfinal)
      as (t' & req' & Hrun & Hs & Hw & He & Hsz & Hf & Hfr).
    exists t', req'. cbn [app map run]. rewrite Hstep. cbn [bind].
    split; [done|]. split; [done|]. split; [|split; [done|split; [|split; [done|]]]].
    + rewrite Hw, Hw1. cbn [concat]. by rewrite app_assoc.
    + rewrite Hsz, Hsz1. cbn [concat]. rewrite length_app. lia.
    + rewrite Hfr, Hwire1. unfold handler_frames. rewrite omap_app. cbn.
      unfold download_ack. rewrite Hid1. by rewrite <- app_assoc.
Qed.

End DownloadFacts.

(** *** The request counter over a run *)

Lemma stuck_quiet t t' : quiet t t' -> stuck t -> stuck t'.
Proof.
  intros Hq [H0 Hall]. split; [by rewrite (quiet_counter _ _ Hq)|].
  apply Forall_forall. intros r' Hr'. apply list_elem_of_lookup in Hr' as [h Hh].
  assert (h < length (store t))%nat as Hlt
    by (rewrite <- (quiet_length _ _ Hq); by eapply lookup_lt_Some).
  destruct (lookup_lt_is_Some_2 _ _ Hlt) as [r Hr].
  destruct (quiet_store _ _ Hq h r Hr) as (r'' & Hr'' & Hid & Hty & _).
  assert (r'' = r') as -> by congruence.
  rewrite Forall_forall in Hall. specialize (Hall r (list_elem_of_lookup_2 _ _ _ Hr)).
  unfold stuck_id in *. by rewrite Hid, Hty.
Qed.

Lemma stuck_constructed : stuck constructed.
Proof. split; [done|constructor]. Qed.

Section CounterFacts.
Variable JSON_parse : list Z -> option value.

Lemma stuck_step e t t' :
  stuck t -> step JSON_parse e t = Return t' -> stuck t'.
Proof.
  intros Hst Hs. unfold step in Hs.
  destruct (handle JSON_parse e t) as [t1| |] eqn:Hh; try discriminate.
  injection Hs as <-.
  destruct (run_chain_wire (chain t1) t1) as (_ & _ & _ & Hn & Hstore).
  unfold stuck, drain. rewrite Hn, Hstore.
  destruct (handle_footprint _ _ _ _ Hh) as [Hq|(r & f & l & -> & Hr)].
  - by apply (stuck_quiet t).
  - destruct Hst as [H0 Hall]. rewrite _get_request_id_zero by done.
    split; [done|]. unfold enqueue; fields. apply Forall_app. split; [done|].
    constructor; [by apply Hr|constructor].
Qed.

Lemma stuck_run : forall es t t',
  stuck t -> run JSON_parse es t = Return t' -> stuck t'.
Proof.
  induction es as [|e es IH]; intros t t' Hst Hr.
  - by injection Hr as <-.
  - simpl in Hr. destruct (step JSON_parse e t) as [t1| |] eqn:Hs; try discriminate.
    simpl in Hr. eapply IH; [|exact Hr]. by eapply stuck_step.
Qed.

(** C10: in every state a file tunnel reaches from its construction,
    [_get_request_id] returns 0 and leaves the tunnel as it is, and every
    request the tunnel has made carries an id with the suffix [_0]
    ([upload_0], [download_0] or [meshctrl_<name>_0]); the counter of the
    session, in contrast, returns its value plus one. *)
Theorem request_id_never_advances (es : list event) (t : files) :
  run JSON_parse es constructed = Return t ->
  _get_request_id t = (0, t)
  /\ Forall stuck_id (store t)
  /\ (forall s, 0 <= Session._command_id s < Session.ID_LIMIT - 1 ->
        fst (Session._get_command_id s) = Session._command_id s + 1).
Proof.
  intros Hrun. destruct (stuck_run _ _ _ stuck_constructed Hrun) as [H0 Hall].
  split; [by apply _get_request_id_zero|]. split; [done|].
  intros s Hs. unfold Session._get_command_id. cbn [fst].
  unfold Session.ID_LIMIT in *. rewrite Z.rem_small; lia.
Qed.

End CounterFacts.

Lemma request_id_never_advances_witness :
  run binary_only example_queue constructed = Return example_downloading
  /\ _get_request_id example_downloading = (0, example_downloading)
  /\ map id (store example_downloading) = ["download_0"; "meshctrl_ls_0"]
  /\ fst (Session._get_command_id Session.two_pending) = 3.
Proof.
  destruct (request_id_never_advances binary_only example_queue example_downloading
              example_queue_runs) as (Hzero & _ & Hsession).
  split; [exact example_queue_runs|]. split; [exact Hzero|]. split; [by vm_compute|].
  rewrite Hsession; [by vm_compute|]. unfold Session.ID_LIMIT. by vm_compute.
Defined.

Lemma example_downloading_ok :
  downloading 0 (new_request "download_0" "download") example_downloading.
Proof. split; try by vm_compute. by exists [1%nat]. Qed.

Lemma download_stop_and_wait_witness :
  downloading 0 (new_request "download_0" "download") example_downloading
  /\ exists t' req',
       run binary_only (map Message (example_frames ++ [example_final]))
           example_downloading = Return t'
       /\ store t' !! 0%nat = Some req'
       /\ written (target req') = [104; 101; 108; 108; 111; 32; 33]
       /\ ended (target req') = true
       /\ finished req' = Resolved (Obj [("result", Str "success"); ("size", Num 7)])
       /\ handler_frames (wire t')
          = [Binary [53]; download_ack (new_request "download_0" "download");
             download_ack (new_request "download_0" "download");
             download_ack (new_request "download_0" "download")].
Proof.
  split; [exact example_downloading_ok|].
  destruct (download_stop_and_wait binary_only example_frames example_final 0
              (new_request "download_0" "download") example_downloading
              example_downloading_ok)
    as (t' & req' & Hrun & Hs & Hw & He & Hsz & Hf & Hfr).
  - repeat constructor.
  - reflexivity.
  - reflexivity.
  - exists t', req'. split; [exact Hrun|]. split; [exact Hs|].
    split; [exact Hw|]. split; [exact He|]. split; [|exact Hfr].
    rewrite Hf, Hsz. reflexivity.
Defined.

(** *** Where the serialisation breaks *)

Lemma example_refused_runs :
  run error_replies example_refused constructed
  = Return (mk_files true (Resolved Undefined) (Some false) 0 [1%nat]
      [mk_request "upload_0" "upload"
         (Rejected (Obj [("result", Str "error"); ("size", Num 0)])) 0
         (mk_upload_state false 0 1 []) (mk_sink [] false);
       new_request "download_0" "download"]
      [] (Some 1%nat) ["download_0"]
      [(Handler, Binary [53]);
       (Dispatch 0, Json (Obj [("action", Str "upload"); ("reqid", Str "upload_0");
                               ("path", Str "/tmp/x"); ("name", Null)]));
       (Dispatch 1, Json (Obj [("action", Str "download"); ("sub", Str "start");
                               ("id", Str "download_0"); ("path", Str "/tmp/a")]))]).
Proof. by vm_compute. Qed.

(** C4: a request can use the wire while another one is the active
    request.  The agent starts an upload and then refuses it with
    [uploaderror] while a download is queued behind it: the upload is
    rejected and leaves the queue, the opening frame of the download goes
    out, and the download is the active request.  The source of the upload
    is still piped into its chunker, so when it delivers its data and ends,
    the ["data"] listener sends a frame of the rejected upload behind the
    opening frame of the download. *)
Theorem upload_data_follows_next_request :
  exists t t',
    run error_replies example_refused constructed = Return t
    /\ _request_queue t = [1%nat] /\ awaiting t = Some 1%nat
    /\ type <$> store t !! 1%nat = Some "download"
    /\ finished <$> store t !! 1%nat = Some Pending
    /\ finished <$> store t !! 0%nat
       = Some (Rejected (Obj [("result", Str "error"); ("size", Num 0)]))
    /\ fst <$> last (wire t) = Some (Dispatch 1)
    /\ run error_replies [SourceData 0 [1; 2; 3; 4]; SourceEnd 0] t = Return t'
    /\ wire t' = wire t ++ [(Handler, Binary [1; 2; 3; 4])]
    /\ _request_queue t' = [1%nat]
    /\ finished <$> store t' !! 1%nat = Some Pending.
Proof.
  eexists. eexists. split; [exact example_refused_runs|].
  repeat (split; [by vm_compute|]). by vm_compute.
Qed.

Lemma example_stale_runs :
  run empty_reply example_stale constructed
  = Return (mk_files true (Resolved Undefined) (Some false) 0 [2%nat]
      [mk_request "download_0" "download" (Resolved (Bool true)) 0
         (mk_upload_state false 0 0 []) (mk_sink [] false);
       mk_request "meshctrl_mkdir_0" "mkdir" (Resolved (Obj [])) 0
         (mk_upload_state false 0 0 []) (mk_sink [] false);
       new_request "download_0" "download"]
      [] (Some 2%nat) ["download_0"; "download_0"]
      [(Handler, Binary [53]);
       (Dispatch 0, Json (Obj [("action", Str "download"); ("sub", Str "start");
                               ("id", Str "download_0"); ("path", Str "/tmp/a")]));
       (Dispatch 1, Json (Obj [("action", Str "mkdir"); ("path", Str "/tmp/d");
                               ("responseid", Str "meshctrl_mkdir_0")]));
       (Dispatch 2, Json (Obj [("action", Str "download"); ("sub", Str "start");
                               ("id", Str "download_0"); ("path", Str "/tmp/b")]))]).
Proof. by vm_compute. Qed.


End FilesFacts.
(** ** The relay handshake *)

Module TunnelFacts.
Import JS Tunnel.

Lemma strict_eq_str_iff v s : strict_eq_str v s = true <-> v = Str s.
Proof.
  unfold strict_eq_str. destruct v; simpl; try (split; [discriminate|congruence]).
  rewrite String.eqb_eq. split; congruence.
Qed.

(** The callback on a relay reply whose result is not ["OK"]. *)
Lemma on_relay_reply_refused settings data data2 result t :
  get data2 "result" = Return result -> result <> Str "OK" ->
  on_relay_reply settings data data2 t
  = Return (mk_tunnel (node_id t) (_protocol t) (_tunnel_id t) (url t)
                      (reject data2 (_socket_open t)) (reject data2 (initialized t))
                      (alive t) (_sock t) Stalled).
Proof.
  intros Hget Hne. unfold on_relay_reply. rewrite Hget. cbn [bind].
  destruct (strict_eq_str result "OK") eqn:Heq; [|done].
  by apply strict_eq_str_iff in Heq.
Qed.

(** C9: when the promise of the relay request is fulfilled with a reply
    [data2] whose [result] is not the string ["OK"], the callback of a
    tunnel whose [initialized] is unsettled and that has no socket rejects
    [initialized] (and [_socket_open]) with [data2], builds no socket,
    leaves [url] and [alive] as they are, and nothing further will run. *)
Theorem relay_refusal_rejects_without_socket
    (is_three : string -> bool) (settings : session_settings) (random_hex : string)
    (s : Session.session) (t : tunnel) (p : nat) (data data2 result : value) :
  progress t = AwaitingRelayAck p data ->
  Session.promises s !! p = Some (Session.Fulfilled data2) ->
  get data2 "result" = Return result -> result <> Str "OK" ->
  initialized t = Pending -> _socket_open t = Pending -> _sock t = None ->
  exists t',
    advance is_three settings random_hex s t = Return (s, t')
    /\ initialized t' = Rejected data2
    /\ _socket_open t' = Rejected data2
    /\ _sock t' = None
    /\ url t' = url t
    /\ alive t' = alive t
    /\ progress t' = Stalled
    /\ forall hex s', advance is_three settings hex s' t' = Return (s', t').
Proof.
  intros Hstage Hp Hget Hne Hi Ho Hsock.
  unfold advance. rewrite Hstage, Hp.
  rewrite (on_relay_reply_refused settings data data2 result t Hget Hne).
  cbn [bind]. eexists. split; [reflexivity|]. simpl.
  rewrite Hi, Ho, Hsock. repeat split; done.
Qed.

Lemma example_awaiting_ack_runs :
  exists s t,
    example_awaiting_ack = Return (s, t)
    /\ progress t = AwaitingRelayAck 1 example_cookie
    /\ initialized t = Pending /\ _socket_open t = Pending /\ _sock t = None
    /\ node_id t = "abc" /\ _tunnel_id t = Some "0a1b2c3d4e5f".
Proof. do 2 eexists. split; [by vm_compute|]. repeat split. Qed.

Lemma relay_refusal_rejects_without_socket_witness :
  exists s t t',
    example_awaiting_ack = Return (s, t)
    /\ Session._receive_message example_parse [2] s
       = Return (Session.set_promises
                   [Session.Fulfilled example_cookie; Session.Fulfilled example_refusal]
                   (Session.set_inflight ∅ (Session.set_eventer [] s)))
    /\ example_refused
       = Return (Session.set_promises
                   [Session.Fulfilled example_cookie; Session.Fulfilled example_refusal]
                   (Session.set_inflight ∅ (Session.set_eventer [] s)), t')
    /\ initialized t' = Rejected example_refusal
    /\ _sock t' = None.
Proof.
  destruct example_awaiting_ack_runs as (s & t & Hrun & Hstage & Hi & Ho & Hsock & _).
  assert (Session._receive_message example_parse [2] s
          = Return (Session.set_promises
                      [Session.Fulfilled example_cookie; Session.Fulfilled example_refusal]
                      (Session.set_inflight ∅ (Session.set_eventer [] s)))) as Hrecv.
  { revert Hrun. vm_compute. intros [= <- _]. reflexivity. }
  destruct (relay_refusal_rejects_without_socket example_is_three example_settings
              "0a1b2c3d4e5f"
              (Session.set_promises
                 [Session.Fulfilled example_cookie; Session.Fulfilled example_refusal]
                 (Session.set_inflight ∅ (Session.set_eventer [] s)))
              t 1 example_cookie example_refusal (Str "Denied"))
    as (t' & Hadv & Hi' & _ & Hsock' & _); try done.
  exists s, t, t'. split; [exact Hrun|]. split; [exact Hrecv|].
  split; [|split; [exact Hi' | exact Hsock']].
  unfold example_refused. rewrite Hrun. cbn [bind fst snd]. rewrite Hrecv.
  cbn [bind]. exact Hadv.
Defined.

End TunnelFacts.

(** ** The shell *)

Module ShellFacts.
Import Shell.

(** *** [read] *)

Lemma slice_take (b : list Z) (n : Z) :
  0 <= n -> Buffer.slice b 0 n = take (Z.to_nat n) b.
Proof.
  intros Hn. unfold Buffer.slice, Buffer.adjustOffset.
  change (0 <? 0) with false. cbv iota.
  destruct (Z.ltb_spec n 0); [lia|].
  rewrite (Z.min_l 0) by lia. rewrite Z.sub_0_r. change (Z.to_nat 0) with O.
  rewrite drop_0. destruct (Z.le_gt_cases n (Z.of_nat (length b))).
  - by rewrite Z.min_l by lia.
  - rewrite Z.min_r by lia. rewrite Nat2Z.id.
    rewrite firstn_all. symmetry. apply take_ge. lia.
Qed.

Lemma slice_from_drop (b : list Z) (n : Z) :
  0 <= n -> Buffer.slice_from b n = drop (Z.to_nat n) b.
Proof.
  intros Hn. rewrite <- (Z2Nat.id n) at 1 by done.
  apply BufferFacts.slice_from_nonneg.
Qed.

(** One run of [check_data] that rejects. *)
Lemma read_check_rejects length timeout ri e rs buffer reason data buffer' :
  read_check length timeout ri e rs buffer = (Settled (Reject reason data), buffer') ->
  gives_up timeout e rs = true
  /\ reason = reason_of rs
  /\ (ri = false -> data = None /\ buffer' = buffer)
  /\ (ri = true ->
      data = Some (Buffer.slice buffer 0 (slice_arg length))
      /\ buffer' = Buffer.slice_from buffer (slice_arg length)).
Proof.
  unfold read_check. destruct (gives_up timeout e rs).
  - destruct ri; intros [= <- <- <-]; repeat split; try done; discriminate.
  - destruct length as [n|]; [|discriminate].
    destruct (Z.of_nat (List.length buffer) <? n); discriminate.
Qed.

Lemma read_check_again length timeout ri e rs buffer buffer' :
  read_check length timeout ri e rs buffer = (Again, buffer') -> buffer' = buffer.
Proof.
  unfold read_check. destruct (gives_up timeout e rs).
  - destruct ri; discriminate.
  - destruct length as [n|]; [|discriminate].
    destruct (Z.of_nat (List.length buffer) <? n); [by intros [= <-]|discriminate].
Qed.

(** A run of [check_data] that polls again found the read still live. *)
Lemma read_check_polls length timeout ri e rs buffer buffer' :
  read_check length timeout ri e rs buffer = (Again, buffer') ->
  gives_up timeout e rs = false.
Proof.
  unfold read_check. destruct (gives_up timeout e rs); [|done].
  destruct ri; discriminate.
Qed.

(** C8: when [read(length, timeout, return_intermediate)] is rejected, it
    is rejected by the first run of [check_data] that finds the timeout
    passed or the socket closing or closed, with the reason [timeout] or
    [closed]; the buffer at that run is the buffer at the call followed by
    every byte that arrived up to and including that run, none dropped.
    With [return_intermediate] false the failure carries no data and the
    buffer is left exactly so, so that a later [read] of [length] bytes on
    an open socket returns its first [length] bytes; with
    [return_intermediate] true the failure carries [slice(0, length)] of
    the buffer and the buffer keeps [slice(length)], which for a length
    [n >= 0] are its first [n] bytes (all of them if there are fewer) and
    the rest. *)
Theorem read_failure_frame (ticks : list tick) (length timeout : option Z)
    (return_intermediate : bool) :
  forall (_buffer : list Z) (reason : string) (data : option (list Z)) (left : list Z),
  read ticks length timeout return_intermediate _buffer = Some (Reject reason data, left) ->
  exists (k : nat) (poll : tick),
    ticks !! k = Some poll
    /\ gives_up timeout (elapsed poll) (readyState poll) = true
    /\ reason = reason_of (readyState poll)
    /\ (forall j p, (j < k)%nat -> ticks !! j = Some p ->
          gives_up timeout (elapsed p) (readyState p) = false)
    /\ let seen := _buffer ++ concat (map arrived (take (S k) ticks)) in
       (reason = "timeout" \/ reason = "closed")
       /\ (return_intermediate = false ->
           data = None /\ left = seen
           /\ forall n e, length = Some n -> 0 <= n <= Z.of_nat (List.length seen) ->
              read_check length None false e 1 left
              = (Settled (Resolve (take (Z.to_nat n) seen)), drop (Z.to_nat n) seen))
       /\ (return_intermediate = true ->
           data = Some (Buffer.slice seen 0 (slice_arg length))
           /\ left = Buffer.slice_from seen (slice_arg length)
           /\ forall n, length = Some n -> 0 <= n ->
              data = Some (take (Z.to_nat n) seen) /\ left = drop (Z.to_nat n) seen).
Proof.
  induction ticks as [|t ticks IH]; intros buffer reason data left Hread; [discriminate|].
  cbn [read] in Hread.
  destruct (read_check length timeout return_intermediate (elapsed t) (readyState t)
              (buffer ++ arrived t)) as [[s|] b] eqn:Hcheck.
  - injection Hread as -> ->.
    destruct (read_check_rejects _ _ _ _ _ _ _ _ _ Hcheck)
      as (Hgives & Hreason & Hkeep & Htake).
    exists O, t. split; [done|]. split; [done|]. split; [done|].
    split; [intros j p Hj; lia|].
    cbn [take map concat]. rewrite app_nil_r.
    split; [|split].
    + rewrite Hreason. unfold reason_of. destruct (readyState t <? 2); auto.
    + intros Hri. destruct (Hkeep Hri) as [-> ->]. split; [done|]. split; [done|].
      intros n e -> Hn. unfold read_check. cbn [gives_up].
      change (1 <? 1) with false. cbv iota.
      destruct (Z.ltb_spec (Z.of_nat (List.length (buffer ++ arrived t))) n); [lia|].
      by rewrite slice_take, slice_from_drop by lia.
    + intros Hri. destruct (Htake Hri) as [-> ->]. split; [done|]. split; [done|].
      intros n -> Hn. cbn [slice_arg default]. simpl.
      by rewrite slice_take, slice_from_drop by lia.
  - pose proof (read_check_polls _ _ _ _ _ _ _ Hcheck) as Hopen.
    apply read_check_again in Hcheck as ->.
    destruct (IH _ _ _ _ Hread) as (k & poll & Hpoll & Hgives & Hreason & Hfirst & Hrest).
    exists (S k), poll. split; [done|]. split; [done|]. split; [done|]. split.
    + intros [|j] p Hj Hp.
      * by injection Hp as <-.
      * apply (Hfirst j); [lia|done].
    + cbn [take map concat]. rewrite app_assoc. exact Hrest.
Qed.

Lemma read_failure_frame_witness :
  read [mk_tick 0 1 []; mk_tick 100 1 [98]; mk_tick 200 1 [99]] (Some 5) (Some 150) false [97]
  = Some (Reject "timeout" None, [97; 98; 99])
  /\ read [mk_tick 0 1 []; mk_tick 100 1 [98]; mk_tick 200 1 [99]] (Some 5) (Some 150) true [97]
     = Some (Reject "timeout" (Some [97; 98; 99]), [])
  /\ exists k poll,
       [mk_tick 0 1 []; mk_tick 100 1 [98]; mk_tick 200 1 [99]] !! k = Some poll
       /\ gives_up (Some 150) (elapsed poll) (readyState poll) = true
       /\ [97; 98; 99] = [97] ++ concat (map arrived
            (take (S k) [mk_tick 0 1 []; mk_tick 100 1 [98]; mk_tick 200 1 [99]])).
Proof.
  split; [reflexivity|]. split; [reflexivity|].
  destruct (read_failure_frame [mk_tick 0 1 []; mk_tick 100 1 [98]; mk_tick 200 1 [99]]
              (Some 5) (Some 150) false [97] "timeout" None [97; 98; 99] eq_refl)
    as (k & poll & Hpoll & Hgives & _ & _ & _ & Hfalse & _).
  exists k, poll. split; [exact Hpoll|]. split; [exact Hgives|].
  exact (proj1 (proj2 (Hfalse eq_refl))).
Defined.

(** *** [expect] *)

Lemma decode_ascii (buffer : list Z) :
  Forall (fun b => 0 <= b <= 127) buffer -> toString buffer = buffer.
Proof.
  unfold toString. induction 1 as [|b buffer Hb _ IH]; [done|].
  cbn [decode]. unfold lead. destruct (Z.leb_spec b 127); [|lia].
  cbn. by rewrite IH.
Qed.

(** On a buffer of 7-bit characters [expect] consumes through the end of
    the match. *)
Lemma expect_ascii (pattern : regex) (timeout : option Z) (ri : bool)
    (e rs : Z) (buffer : list Z) (index len : nat) :
  Forall (fun b => 0 <= b <= 127) buffer ->
  gives_up timeout e rs = false ->
  pattern buffer = Some (index, len) -> (index + len <= length buffer)%nat ->
  expect_check pattern timeout ri e rs buffer
  = (ExpectSettled (Resolve (take (index + len) buffer)), drop (index + len) buffer).
Proof.
  intros Hascii Hopen Hmatch Hlen. unfold expect_check.
  rewrite Hopen, (decode_ascii _ Hascii), Hmatch. unfold read_check.
  assert (gives_up None 0 rs = false) as ->.
  { destruct timeout; simpl in *; [|done]. by apply orb_false_iff in Hopen as [_ ?]. }
  destruct (Z.ltb_spec (Z.of_nat (length buffer)) (Z.of_nat (index + len))); [lia|].
  rewrite slice_take, slice_from_drop by lia. by rewrite Nat2Z.id.
Qed.

Lemma expect_specified_example :
  expect_check (literal READY) None false 0 1 foo_READY_bar
  = (ExpectSettled (Resolve [102; 111; 111; 32; 82; 69; 65; 68; 89; 10]), [98; 97; 114]).
Proof. reflexivity. Qed.

(** C7: [expect] stops short of the end of the match when a character
    before it takes more than one byte.  The buffer holds the UTF-8 bytes
    of "é READY", a line feed and "bar", and the pattern matches "READY"
    and the line feed.  The match is at index 2 and has length 6 in the
    text, so [expect] reads 8 bytes: it resolves with "é READY", one byte
    short of the end of the match, and the line feed stays in the buffer
    in front of "bar".  The bytes through the end of the match are 9. *)
Theorem expect_counts_characters_not_bytes :
  toString e_acute_READY_bar = [233; 32; 82; 69; 65; 68; 89; 10; 98; 97; 114]
  /\ literal READY (toString e_acute_READY_bar) = Some (2%nat, 6%nat)
  /\ expect_check (literal READY) None false 0 1 e_acute_READY_bar
     = (ExpectSettled (Resolve [195; 169; 32; 82; 69; 65; 68; 89]), [10; 98; 97; 114])
  /\ through_match e_acute_READY_bar 2 6 = [195; 169; 32; 82; 69; 65; 68; 89; 10]
  /\ drop 9 e_acute_READY_bar = [98; 97; 114].
Proof. repeat split; reflexivity. Qed.

End ShellFacts.

(** ** Enumerations *)

Module EnumFacts.
Import JS Enum.

Lemma assoc_set_prop_eq e key v : assoc (set_prop e key v) key = Some v.
Proof.
  induction e as [|[k x] e IH]; simpl.
  - by rewrite String.eqb_refl.
  - destruct (String.eqb_spec k key) as [->|Hk]; simpl.
    + by rewrite String.eqb_refl.
    + destruct (String.eqb_spec k key); [done|]. exact IH.
Qed.

Lemma assoc_set_prop_ne e key key' v :
  key <> key' -> assoc (set_prop e key v) key' = assoc e key'.
Proof.
  intros Hne. induction e as [|[k x] e IH]; simpl.
  - destruct (String.eqb_spec key key'); [done|]. done.
  - destruct (String.eqb_spec k key) as [->|Hk]; simpl.
    + destruct (String.eqb_spec key key'); [done|]. done.
    + by rewrite IH.
Qed.

Lemma assoc_assign_eq e key v :
  key <> "__proto__" -> assoc (assign e key v) key = Some v.
Proof.
  intros Hkey. unfold assign. destruct (String.eqb_spec key "__proto__"); [done|].
  apply assoc_set_prop_eq.
Qed.

Lemma assoc_assign_ne e key key' v :
  key <> key' -> assoc (assign e key v) key' = assoc e key'.
Proof.
  intros Hne. unfold assign. destruct (String.eqb key "__proto__"); [done|].
  by apply assoc_set_prop_ne.
Qed.

Lemma double_succ_safe value :
  - 2 ^ 53 <= value < 2 ^ 53 -> double_succ value = value + 1.
Proof.
  intros Hv. unfold double_succ.
  destruct (Z.leb_spec (- 2 ^ 53) value); [|lia].
  by destruct (Z.ltb_spec value (2 ^ 53)); [|lia].
Qed.

Lemma enum_round_other use_string properties key :
  key ∉ properties -> forall e value,
  assoc (fst (fold_left (enum_round use_string) properties (e, value))) key
  = assoc e key.
Proof.
  induction properties as [|p properties IH]; intros Hnot e value; [done|].
  apply not_elem_of_cons in Hnot as [Hne Hnot]. simpl.
  rewrite IH by done.
  destruct use_string; rewrite ?assoc_assign_ne; done.
Qed.

Lemma enum_round_last use_string properties :
  forall i prop e value,
  prop <> "__proto__" ->
  - 2 ^ 53 <= value -> value + Z.of_nat (length properties) <= 2 ^ 53 ->
  properties !! i = Some prop -> prop ∉ drop (S i) properties ->
  assoc (fst (fold_left (enum_round use_string) properties (e, value))) prop
  = Some (if use_string then Str prop else Num (value + Z.of_nat i)).
Proof.
  induction properties as [|p properties IH]; intros i prop e value Hprop Hlow Hhigh Hi Hlast;
    [done|].
  cbn [length] in Hhigh.
  destruct i as [|i]; cbn [fold_left enum_round].
  - injection Hi as ->. simpl in Hlast. rewrite drop_0 in Hlast.
    rewrite enum_round_other by done.
    destruct use_string; rewrite assoc_assign_eq by done; [done|].
    by rewrite Z.add_0_r.
  - rewrite double_succ_safe by lia.
    rewrite (IH i prop) by (done || lia).
    destruct use_string; [done|]. do 2 f_equal. lia.
Qed.

(** X1: [_make_enum] numbers the properties from [start_value] in list
    order, as long as the numbers stay within [-2^53 .. 2^53], where
    [value++] is exact; a name listed more than once keeps the number of
    its last occurrence; with [use_string] every name maps to itself.
    This is for every name but [__proto__], under which an object stores
    nothing. *)
Theorem _make_enum_numbers_in_order properties start_value use_string i prop :
  - 2 ^ 53 <= start_value -> start_value + Z.of_nat (length properties) <= 2 ^ 53 ->
  prop <> "__proto__" ->
  properties !! i = Some prop -> prop ∉ drop (S i) properties ->
  get (_make_enum properties start_value use_string) prop
  = Return (if use_string then Str prop else Num (start_value + Z.of_nat i)).
Proof.
  intros Hlow Hhigh Hprop Hi Hlast. unfold _make_enum, get.
  change (fold_left _ properties ([], start_value))
    with (fold_left (enum_round use_string) properties ([], start_value)).
  by rewrite (enum_round_last use_string properties i prop).
Qed.

Lemma _make_enum_numbers_in_order_witness :
  get PROTOCOL "files" = Return (Num 5) /\ get PROTOCOL "" = Return (Num 4)
  /\ get SHARINGTYPE "terminal" = Return (Str "terminal").
Proof.
  split; [|split].
  - apply (_make_enum_numbers_in_order ["terminal"; ""; ""; ""; "files"] 1 false 4 "files").
    + lia.
    + simpl. lia.
    + discriminate.
    + reflexivity.
    + simpl. apply not_elem_of_nil.
  - apply (_make_enum_numbers_in_order ["terminal"; ""; ""; ""; "files"] 1 false 3 "").
    + lia.
    + simpl. lia.
    + discriminate.
    + reflexivity.
    + simpl. apply not_elem_of_cons. split; [discriminate|apply not_elem_of_nil].
  - apply (_make_enum_numbers_in_order ["desktop"; "terminal"] 0 true 1 "terminal").
    + lia.
    + simpl. lia.
    + discriminate.
    + reflexivity.
    + simpl. apply not_elem_of_nil.
Defined.


(** *** Flags *)

Lemma int32_small z : - 2 ^ 31 <= z < 2 ^ 31 -> int32 z = z.
Proof.
  intros Hz. unfold int32. rewrite Z.mod_small; lia.
Qed.

Lemma shl1_pow2 k : 0 <= k < 30 -> shl1 (2 ^ k) = 2 ^ (k + 1).
Proof.
  intros Hk. unfold shl1.
  assert (0 < 2 ^ k <= 2 ^ 29) as Hp.
  { split; [apply Z.pow_pos_nonneg; lia|apply Z.pow_le_mono_r; lia]. }
  rewrite (int32_small (2 ^ k)) by lia.
  rewrite Z.shiftl_mul_pow2 by lia.
  rewrite Z.pow_add_r, Z.pow_1_r by lia.
  apply int32_small. lia.
Qed.

Lemma int32_mod z : int32 z mod 2 ^ 32 = z mod 2 ^ 32.
Proof.
  unfold int32.
  pose proof (Z.div_mod (z + 2 ^ 31) (2 ^ 32) ltac:(lia)) as Hd.
  replace ((z + 2 ^ 31) mod 2 ^ 32 - 2 ^ 31)
    with (z + - ((z + 2 ^ 31) / 2 ^ 32) * 2 ^ 32) by lia.
  apply Z_mod_plus_full.
Qed.

Lemma int32_range z : - 2 ^ 31 <= int32 z < 2 ^ 31.
Proof.
  unfold int32. pose proof (Z.mod_pos_bound (z + 2 ^ 31) (2 ^ 32)). lia.
Qed.

Lemma int32_zero z : int32 z = 0 <-> z mod 2 ^ 32 = 0.
Proof.
  rewrite <- int32_mod. pose proof (int32_range z) as Hr. split.
  - by intros ->.
  - intros Hm. apply Z.mod_divide in Hm as [k Hk]; lia.
Qed.

Lemma shl1_mod value : shl1 value mod 2 ^ 32 = (value * 2) mod 2 ^ 32.
Proof.
  unfold shl1. rewrite int32_mod, Z.shiftl_mul_pow2, Z.pow_1_r by lia.
  rewrite <- Zmult_mod_idemp_l, int32_mod. by rewrite Zmult_mod_idemp_l.
Qed.

Lemma flag_round_other properties key :
  key ∉ properties -> forall e value,
  assoc (fst (fold_left flag_round properties (e, value))) key = assoc e key.
Proof.
  induction properties as [|p properties IH]; intros Hnot e value; [done|].
  apply not_elem_of_cons in Hnot as [Hne Hnot]. simpl.
  rewrite IH by done. by rewrite assoc_assign_ne.
Qed.

Lemma flag_round_value properties :
  forall e k, 0 <= k -> k + Z.of_nat (length properties) <= 30 ->
  snd (fold_left flag_round properties (e, 2 ^ k))
  = 2 ^ (k + Z.of_nat (length properties)).
Proof.
  induction properties as [|p properties IH]; intros e k Hk Hlen; simpl in *.
  - by rewrite Z.add_0_r.
  - rewrite shl1_pow2 by lia. rewrite IH by lia. f_equal. lia.
Qed.

Lemma flag_round_flag properties :
  NoDup properties -> "__proto__" ∉ properties ->
  forall i prop e k, 0 <= k -> k + Z.of_nat (length properties) <= 30 ->
  properties !! i = Some prop ->
  assoc (fst (fold_left flag_round properties (e, 2 ^ k))) prop
  = Some (Num (2 ^ (k + Z.of_nat i))).
Proof.
  induction 1 as [|p properties Hp Hnd IH]; intros Hproto i prop e k Hk Hlen Hi; [done|].
  apply not_elem_of_cons in Hproto as [Hne Hproto].
  destruct i as [|i]; simpl in *.
  - injection Hi as ->. rewrite flag_round_other by done.
    rewrite assoc_assign_eq by done. by rewrite Z.add_0_r.
  - rewrite shl1_pow2 by lia. rewrite (IH Hproto i prop) by (done || lia).
    do 3 f_equal. lia.
Qed.

(** With [start_value] 1 the loop collects every bit below [value]. *)
Lemma all_loop_pow2 (n : nat) :
  (n <= 30)%nat ->
  all_loop 33 1 (2 ^ Z.of_nat n) (sar (2 ^ Z.of_nat n) 1) = Some (2 ^ Z.of_nat n - 1).
Proof.
  intros Hn.
  do 31 (destruct n as [|n]; [by vm_compute|]). lia.
Qed.



(** With a larger [start_value] the shift count [1 >= start_value] is
    zero and the loop does not move: it ends at once when the value is
    zero as a 32-bit integer, and never otherwise. *)
Lemma all_loop_stays start_value value :
  2 <= start_value -> value mod 2 ^ 32 <> 0 ->
  forall fuel all_value, all_loop fuel start_value value all_value = None.
Proof.
  intros Hstart Hvalue fuel. revert value Hvalue.
  induction fuel as [|fuel IH]; intros value Hvalue all_value; [done|].
  simpl. destruct (Z.geb_spec 1 start_value); [lia|].
  unfold sar. rewrite Z.shiftr_0_r.
  destruct (Z.eqb_spec (int32 value) 0) as [Hz|Hz].
  - by apply int32_zero in Hz.
  - apply IH. by rewrite int32_mod.
Qed.

Lemma all_loop_ends start_value value fuel all_value :
  2 <= start_value -> value mod 2 ^ 32 = 0 ->
  all_loop (S fuel) start_value value all_value = Some all_value.
Proof.
  intros Hstart Hvalue.
  simpl. destruct (Z.geb_spec 1 start_value); [lia|].
  unfold sar. rewrite Z.shiftr_0_r.
  apply int32_zero in Hvalue. by rewrite Hvalue.
Qed.

Lemma flag_round_scaled properties :
  forall e value,
  snd (fold_left flag_round properties (e, value)) mod 2 ^ 32
  = (value * 2 ^ Z.of_nat (length properties)) mod 2 ^ 32.
Proof.
  induction properties as [|p properties IH]; intros e value.
  - simpl. by rewrite Z.mul_1_r.
  - cbn [fold_left flag_round length]. rewrite IH.
    rewrite Nat2Z.inj_succ, Z.pow_succ_r by lia.
    rewrite <- Zmult_mod_idemp_l, shl1_mod, Zmult_mod_idemp_l.
    f_equal. lia.
Qed.

(** X3: with a [start_value] of 2 or more and an [all_prop], the loop that
    collects the bits does not move.  Unless the value it starts from,
    [start_value * 2^n] after [n] names, is zero as a 32-bit integer, the
    loop never ends: whatever the fuel, the call does not return.  When
    it is zero the loop ends at once and the call returns. *)
Theorem _make_bitwise_enum_hangs fuel properties all_prop none_prop start_value :
  truthy all_prop = true -> 2 <= start_value ->
  _make_bitwise_enum fuel properties all_prop none_prop start_value = OutOfFuel
  <-> fuel = O \/ (start_value * 2 ^ Z.of_nat (length properties)) mod 2 ^ 32 <> 0.
Proof.
  intros Hall Hstart. unfold _make_bitwise_enum.
  change (fold_left _ properties ([], start_value))
    with (fold_left flag_round properties ([], start_value)).
  pose proof (flag_round_scaled properties [] start_value) as Hvalue.
  destruct (fold_left flag_round properties ([], start_value)) as [e value].
  simpl in Hvalue. rewrite <- Hvalue, Hall. clear Hvalue.
  destruct (decide (value mod 2 ^ 32 = 0)) as [Hz|Hz].
  - destruct fuel as [|fuel]; [by split; [left|]|].
    rewrite all_loop_ends by done.
    destruct (unprintable all_prop); cbn [bind];
      [|destruct (truthy none_prop); [destruct (unprintable none_prop)|]];
      (split; [done|]; by intros [|]).
  - rewrite all_loop_stays by done. simpl. split; [by right|done].
Qed.

Lemma _make_bitwise_enum_hangs_witness :
  _make_bitwise_enum 1000 ["read"; "write"] (Str "all") Null 2 = OutOfFuel
  /\ _make_bitwise_enum 1000 ["read"] (Str "all") Null (2 ^ 31) <> OutOfFuel.
Proof.
  split.
  - apply (_make_bitwise_enum_hangs 1000 ["read"; "write"] (Str "all") Null 2).
    + reflexivity.
    + lia.
    + right. by vm_compute.
  - intros Hout.
    apply (_make_bitwise_enum_hangs 1000 ["read"] (Str "all") Null (2 ^ 31)) in Hout.
    + destruct Hout as [Hfuel|Hwrap]; [discriminate|]. by apply Hwrap; vm_compute.
    + reflexivity.
    + lia.
Defined.

End EnumFacts.
(** ** The upload chunker and encoder, continued *)

Module StreamFacts.
Import Buffer BufferFacts Upload UploadFacts.

(** *** What the chunker keeps *)

Lemma transform_loop_keeps chunksize buffer :
  forall fuel chunk_start pushed pushed' chunk_start',
  transform_loop fuel chunksize buffer chunk_start pushed = Some (pushed', chunk_start') ->
  concat pushed' ++ drop chunk_start' buffer = concat pushed ++ drop chunk_start buffer
  /\ (chunk_start' = chunk_start \/ chunk_start' < length buffer)%nat.
Proof.
  induction fuel as [|fuel IH]; intros chunk_start pushed pushed' chunk_start' Hloop;
    [done|].
  simpl in Hloop.
  destruct (Nat.ltb_spec (chunk_start + chunksize) (length buffer)) as [Hlt|Hge].
  - apply IH in Hloop as [Hkeep Hstart]. split.
    + rewrite Hkeep. rewrite concat_app. simpl. rewrite app_nil_r, <- app_assoc.
      f_equal. rewrite slice_nonneg by lia.
      replace (chunk_start + chunksize - chunk_start)%nat with chunksize by lia.
      rewrite <- drop_drop. apply take_drop.
    + right. lia.
  - injection Hloop as <- <-. split; [done|by left].
Qed.

Lemma _transform_keeps chunksize _buffer chunk pushed _buffer' :
  _transform chunksize _buffer chunk = Some (pushed, _buffer') ->
  concat pushed ++ _buffer' = _buffer ++ chunk
  /\ (_buffer' = [] -> _buffer = [] /\ chunk = []).
Proof.
  unfold _transform. intros Htransform.
  destruct (transform_loop _ _ _ _ _) as [[p c]|] eqn:Hloop; [|done].
  injection Htransform as <- <-.
  apply transform_loop_keeps in Hloop as [Hkeep Hstart].
  rewrite slice_from_nonneg. split; [by rewrite Hkeep|].
  intros Hempty. apply (f_equal length) in Hempty.
  rewrite length_drop in Hempty. simpl in Hempty.
  assert (length (_buffer ++ chunk) = 0)%nat as Hlen by lia.
  apply nil_length_inv, app_eq_nil in Hlen. done.
Qed.

Lemma chunker_run_keeps chunksize inputs :
  forall _buffer out,
  chunker_run chunksize _buffer inputs = Some out ->
  concat out = _buffer ++ concat inputs.
Proof.
  induction inputs as [|chunk inputs IH]; intros _buffer out Hrun; simpl in Hrun.
  - injection Hrun as <-. simpl. by rewrite app_nil_r.
  - destruct (_transform chunksize _buffer chunk) as [[pushed b']|] eqn:Ht; [|done].
    destruct (chunker_run chunksize b' inputs) as [later|] eqn:Hlater; [|done].
    injection Hrun as <-.
    apply _transform_keeps in Ht as [Hkeep _].
    rewrite concat_app, (IH _ _ Hlater). simpl.
    by rewrite !app_assoc, Hkeep.
Qed.

Lemma chunker_run_shape chunksize inputs :
  (0 < chunksize)%nat ->
  forall _buffer, (length _buffer <= chunksize)%nat ->
  exists full final,
    chunker_run chunksize _buffer inputs = Some (full ++ [final])
    /\ Forall (fun c => length c = chunksize) full
    /\ (length final <= chunksize)%nat
    /\ (final = [] -> _buffer = [] /\ concat inputs = []).
Proof.
  intros Hpos. induction inputs as [|chunk inputs IH]; intros _buffer Hbuf.
  - exists [], _buffer. by repeat split.
  - simpl. destruct (_transform_spec chunksize _buffer chunk Hpos)
      as (p & b' & Heq & Hall & Hb'). rewrite Heq.
    destruct (IH b' Hb') as (full & final & Hlater & Hfull & Hfinal & Hempty).
    rewrite Hlater. exists (p ++ full), final.
    split; [by rewrite app_assoc|]. split; [by apply Forall_app|]. split; [done|].
    intros Hnil. destruct (Hempty Hnil) as [-> ->].
    apply _transform_keeps in Heq as [_ Hb]. destruct Hb as [-> ->]; done.
Qed.

(** X4: the chunker loses nothing and adds nothing: the chunks it pushes
    while the source delivers its data and ends, joined in order, are the
    data the source delivered. *)
Theorem chunker_run_preserves_stream chunksize inputs :
  (0 < chunksize)%nat ->
  exists out,
    chunker_run chunksize (Buffer.alloc 0) inputs = Some out
    /\ concat out = concat inputs.
Proof.
  intros Hpos.
  destruct (chunker_run_spec chunksize inputs Hpos (Buffer.alloc 0)) as (out & Hrun & _).
  { simpl. lia. }
  exists out. split; [done|]. by apply chunker_run_keeps in Hrun.
Qed.

Lemma chunker_run_preserves_stream_witness :
  exists out,
    chunker_run 2 (Buffer.alloc 0) [[1; 2; 3]; []; [4; 5]] = Some out
    /\ concat out = concat [[1; 2; 3]; []; [4; 5]].
Proof. apply (chunker_run_preserves_stream 2). lia. Defined.

(** X5: every chunk but the last has exactly [chunksize] bytes; the
    last, which the flush pushes, has at most [chunksize] bytes and is
    empty only when the source delivered no byte at all. *)
Theorem chunker_run_full_chunks_then_rest chunksize inputs :
  (0 < chunksize)%nat ->
  exists full final,
    chunker_run chunksize (Buffer.alloc 0) inputs = Some (full ++ [final])
    /\ Forall (fun c => length c = chunksize) full
    /\ (length final <= chunksize)%nat
    /\ (final = [] <-> concat inputs = []).
Proof.
  intros Hpos.
  destruct (chunker_run_shape chunksize inputs Hpos (Buffer.alloc 0))
    as (full & final & Hrun & Hfull & Hfinal & Hempty).
  { simpl. lia. }
  exists full, final. repeat split; try done.
  - intros Hnil. by apply Hempty.
  - intros Hnil. apply chunker_run_keeps in Hrun.
    rewrite Hnil, concat_app in Hrun. simpl in Hrun.
    apply app_eq_nil in Hrun as [_ Hrun]. by rewrite app_nil_r in Hrun.
Qed.

Lemma chunker_run_full_chunks_then_rest_witness :
  exists full final,
    chunker_run 2 (Buffer.alloc 0) [[1; 2; 3]; []; [4; 5; 6]] = Some (full ++ [final])
    /\ Forall (fun c => length c = 2%nat) full
    /\ (length final <= 2)%nat
    /\ (final = [] <-> concat [[1; 2; 3]; []; [4; 5; 6]] = []).
Proof. apply (chunker_run_full_chunks_then_rest 2). lia. Defined.

(** X6: a frame determines its chunk: the frame encoder sends nothing
    for an empty chunk only, and the chunk of a frame is the frame without
    its leading zero byte, if it has one. *)
Theorem upload_frame_decodes chunk :
  (length chunk <= UPLOAD_CHUNK_SIZE)%nat ->
  match upload_frame chunk with
  | Some frame =>
      chunk <> [] /\ chunk = match frame with 0 :: rest => rest | _ => frame end
  | None => chunk = []
  end.
Proof.
  intros Hlen. destruct chunk as [|b rest].
  - by vm_compute.
  - rewrite upload_frame_cons by done.
    destruct (Z.eqb_spec b 0) as [->|Hb0]; simpl; [done|].
    destruct (Z.eqb_spec b 123) as [->|Hb123]; simpl; [done|].
    split; [done|]. by destruct b.
Qed.

Lemma upload_frame_decodes_witness :
  match upload_frame [0; 7] with
  | Some frame =>
      [0; 7] <> [] /\ [0; 7] = match frame with 0 :: rest => rest | _ => frame end
  | None => [0; 7] = []
  end.
Proof.
  apply (upload_frame_decodes [0; 7]).
  unfold UPLOAD_CHUNK_SIZE. simpl length. lia.
Defined.

End StreamFacts.

(** ** The structural event filter, continued *)

Module MatchFacts.
Import JS Filter FilterFacts.

(** X8: a filter whose values are all primitive matches exactly the
    events that hold, under each of its keys, a truthy value strictly equal
    to the value of the filter; in particular a key whose value in the
    event is [0], [false] or the empty string never matches. *)
Theorem _compare_obj_flat props data :
  Forall (fun kv : string * value => instanceof_Object (snd kv) = false) props ->
  nullish data = false ->
  _compare_obj (Obj props) data
  = Return (forallb (fun kv : string * value =>
              match get data (fst kv) with
              | Return c => truthy c && strict_eq c (snd kv)
              | _ => false
              end) props).
Proof.
  intros Hflat Hdata. unfold _compare_obj.
  generalize (depth (Obj props)). intros fuel. simpl.
  match goal with |- context [for_of props ?b] => set (body := b) end.
  induction Hflat as [|[key val] props Hval _ IH]; [done|].
  simpl in *. unfold body at 1.
  destruct (get_returns data key Hdata) as [c ->].
  destruct (truthy c); simpl; [|done].
  rewrite Hval.
  assert (instanceof_Set val = false) as -> by by destruct val.
  assert (instanceof_Array val = false) as -> by by destruct val.
  destruct (strict_eq c val); simpl; [|done]. exact IH.
Qed.

Lemma _compare_obj_flat_witness :
  _compare_obj (Obj [("action", Str "msg"); ("type", Str "console")])
               (Obj [("action", Str "msg"); ("type", Str "console"); ("value", Str "x")])
  = Return true.
Proof.
  apply (_compare_obj_flat [("action", Str "msg"); ("type", Str "console")]).
  - repeat constructor.
  - reflexivity.
Defined.

End MatchFacts.

(** ** The session: socket errors and server events *)

Module EventFacts.
Import JS Session SessionFacts.

(** *** Errors of the socket *)

Lemma bind_return_inv {A B : Type} (c : completion A) (k : A -> completion B) b :
  bind c k = Return b -> exists a, c = Return a /\ k a = Return b.
Proof. destruct c as [a| |]; simpl; [eauto|discriminate..]. Qed.

Lemma emit_each_socket_open data : forall ids s s',
  consistent s -> emit_each ids data s = Return s' ->
  _socket_open s' = _socket_open s.
Proof.
  induction ids as [|i ids IH]; intros s s' Hs Hrun; simpl in Hrun.
  - by injection Hrun as <-.
  - destruct (emit i data s) as [s1| |] eqn:Hemit; try discriminate.
    cbn [bind] in Hrun.
    destruct (emit_dispatch _ _ _ _ Hs Hemit) as [Hs1 _].
    rewrite (IH s1 s' Hs1 Hrun).
    by rewrite (emit_fired _ _ _ _ Hs Hemit).
Qed.

(** The round both handlers make: [data] goes to the waiter of every
    in-flight id and then to the listeners of ["close"]. *)
Lemma close_round data s :
  consistent s ->
  exists s',
    bind (emit_each (elements (_inflight s)) data s) (emit "close" data) = Return s'
    /\ consistent s'
    /\ (forall id p, (id, p) ∈ waiting s -> promises s' !! p = Some (settled_with data))
    /\ waiting s' = []
    /\ _inflight s' = ∅
    /\ (forall p x, promises s !! p = Some x -> x <> Unsettled ->
          promises s' !! p = Some x)
    /\ (forall l, l ∈ _eventer s -> handle_of l = None -> l ∈ _eventer s')
    /\ (forall f, CloseCallback f ∈ _eventer s -> (f, data) ∈ called s')
    /\ (forall x, x ∈ called s -> x ∈ called s')
    /\ alive s' = alive s /\ initialized s' = initialized s
    /\ _socket_open s' = _socket_open s
    /\ closed_tunnels s' = closed_tunnels s
    /\ _file_tunnels s' = _file_tunnels s /\ _shell_tunnels s' = _shell_tunnels s
    /\ _smart_shell_tunnels s' = _smart_shell_tunnels s.
Proof.
  intros Hs.
  destruct (emit_each_fans_out data (elements (_inflight s)) s Hs)
    as (s1 & Hrun & Hs1 & Hd1 & Hw1 & Hp1 & He1 & Hc1 & Ha1 & Hn1 & Ht1 & Hf1 & Hsh1 & Hsm1).
  { apply NoDup_elements. }
  { intros id Hid. by apply elem_of_elements in Hid. }
  rewrite Hrun. cbn [bind].
  destruct (emit_returns "close" data s1) as [s2 Hclose]; [discriminate|discriminate|].
  rewrite Hclose.
  destruct (emit_dispatch _ _ _ _ Hs1 Hclose) as [Hs2 _].
  destruct (emit_frame _ _ _ _ Hs1 Hclose)
    as (Hw2 & _ & Hp2 & He2 & Hc2 & Ha2 & Hn2 & Ht2 & Hf2 & Hsh2 & Hsm2).
  assert (forall id p, (id, p) ∈ waiting s ->
            promises s1 !! p = Some (settled_with data)
            /\ ((id, p) ∉ waiting s1)) as Hall.
  { intros id p Hin. apply (Hd1 id p Hin).
    apply elem_of_elements. by apply (waiting_inflight s id p). }
  assert (waiting s2 = []) as Hempty.
  { apply elem_of_nil_inv. intros [id p] Hin.
    apply Hw2 in Hin. pose proof (Hw1 _ Hin) as Hin0.
    by apply (Hall id p Hin0). }
  exists s2. split; [done|]. split; [done|].
  split; [|split; [done|split; [|split; [|split; [|split; [|split]]]]]].
  - intros id p Hin. apply Hp2; [apply (Hall id p Hin) | apply settled_with_settled].
  - apply elem_of_equiv_empty_L. intros id Hid.
    apply (inflight_ids s2 Hs2) in Hid. rewrite <- waiting_ids, Hempty in Hid.
    by apply elem_of_nil in Hid.
  - intros p x Hp Hx. apply Hp2; [by apply Hp1|done].
  - intros l Hl Hnone. apply He2; [by apply He1|done].
  - intros f Hf. rewrite Hc2. apply elem_of_app. right.
    apply notifications_close. apply list_elem_of_filter. split; [done|].
    by apply He1.
  - intros x Hx. rewrite Hc2, Hc1. apply elem_of_app. by left.
  - rewrite Ha2, Ha1, Hn2, Hn1, Ht2, Ht1, Hf2, Hf1, Hsh2, Hsh1, Hsm2, Hsm1.
    repeat split; try done.
    rewrite (emit_fired _ _ _ _ Hs1 Hclose). unfold fired; fields.
    by apply (emit_each_socket_open _ _ _ _ Hs Hrun).
Qed.

(** X9: when the socket of a session reports an error, the handler
    returns; every request that was waiting for a reply is rejected with
    [SocketError("Socket Error")], no request is waiting and the in-flight
    set is empty; the promises of the socket and of the initialisation are
    rejected with the error code unless they had settled; [alive] is false;
    every [on_close] callback is called with the error and stays
    registered; and, unlike on a close, no cached tunnel is closed. *)
Theorem socket_error_fans_out code (s : session) :
  consistent s ->
  exists s', on_socket_error code s = Return s'
    /\ (forall id p, (id, p) ∈ waiting s ->
          promises s' !! p = Some (Failed (SocketError "Socket Error")))
    /\ waiting s' = []
    /\ _inflight s' = ∅
    /\ _socket_open s' = reject code (_socket_open s)
    /\ initialized s' = reject code (initialized s)
    /\ alive s' = false
    /\ (forall f, CloseCallback f ∈ _eventer s ->
          (f, Failure (SocketError "Socket Error")) ∈ called s'
          /\ CloseCallback f ∈ _eventer s')
    /\ closed_tunnels s' = closed_tunnels s
    /\ consistent s'.
Proof.
  intros Hs. unfold on_socket_error.
  set (s0 := set_alive false
               (set_initialized (reject code (initialized s))
                  (set_socket_open (reject code (_socket_open s)) s))).
  assert (consistent s0) as Hs0 by (by apply (consistent_same_table s)).
  destruct (close_round (Failure (SocketError "Socket Error")) s0 Hs0)
    as (s' & Hrun & Hs' & Hall & Hw & Hi & _ & He & Hc & _ & Ha & Hn & Ho & Ht & _).
  change (_inflight s0) with (_inflight s) in Hrun.
  exists s'. split; [exact Hrun|].
  split; [intros id p Hin; by apply (Hall id p)|].
  split; [done|]. split; [done|]. split; [by rewrite Ho|].
  split; [by rewrite Hn|]. split; [by rewrite Ha|].
  split; [|split; [by rewrite Ht|done]].
  intros f Hf. split; [by apply Hc | by apply (He (CloseCallback f))].
Qed.

Lemma socket_error_fans_out_witness :
  consistent two_pending
  /\ exists s', on_socket_error (Str "ECONNRESET") two_pending = Return s'
       /\ promises s' = [Failed (SocketError "Socket Error");
                         Failed (SocketError "Socket Error")]
       /\ initialized s' = Rejected (Str "ECONNRESET")
       /\ closed_tunnels s' = [].
Proof.
  split; [exact two_pending_consistent|].
  destruct (socket_error_fans_out (Str "ECONNRESET") two_pending two_pending_consistent)
    as (s' & Hrun & _).
  exists s'. split; [exact Hrun|].
  assert (Return (A:=session) s' = on_socket_error (Str "ECONNRESET") two_pending)
    as Heq by done.
  vm_compute in Heq. injection Heq as ->.
  repeat split; by vm_compute.
Defined.

(** X10: an error of the socket followed by its close: the requests keep
    the rejection of the error, and every [on_close] callback is called
    twice, first with [SocketError("Socket Error")] and then with
    [SocketError("Socket Closed")]. *)
Theorem socket_error_then_close_calls_back_twice code (s : session) :
  consistent s ->
  exists s1 s2,
    on_socket_error code s = Return s1 /\ on_socket_close s1 = Return s2
    /\ (forall id p, (id, p) ∈ waiting s ->
          promises s2 !! p = Some (Failed (SocketError "Socket Error")))
    /\ (forall f, CloseCallback f ∈ _eventer s ->
          (f, Failure (SocketError "Socket Error")) ∈ called s1
          /\ (f, Failure (SocketError "Socket Closed")) ∈ called s2
          /\ (f, Failure (SocketError "Socket Error")) ∈ called s2)
    /\ initialized s2 = reject code (initialized s).
Proof.
  intros Hs. unfold on_socket_error.
  set (s0 := set_alive false
               (set_initialized (reject code (initialized s))
                  (set_socket_open (reject code (_socket_open s)) s))).
  assert (consistent s0) as Hs0 by (by apply (consistent_same_table s)).
  destruct (close_round (Failure (SocketError "Socket Error")) s0 Hs0)
    as (s1 & Hrun & Hs1 & Hall & Hw & Hi & _ & He & Hc & _ & Ha & Hn & Ho & Ht & _).
  change (_inflight s0) with (_inflight s) in Hrun.
  exists s1. unfold on_socket_close.
  set (s1' := set_alive false
                (if negb (resolved (initialized s1))
                 then set_initialized (reject (Str "Closed") (initialized s1)) s1
                 else s1)).
  assert (_eventer s1' = _eventer s1 /\ promises s1' = promises s1
          /\ _inflight s1' = _inflight s1 /\ _command_id s1' = _command_id s1
          /\ called s1' = called s1
          /\ initialized s1' = (if resolved (initialized s1) then initialized s1
                                else reject (Str "Closed") (initialized s1)))
    as (E1 & P1 & I1 & C1 & K1 & N1).
  { subst s1'. destruct (resolved (initialized s1)); simpl; repeat split; done. }
  assert (consistent s1') as Hs1' by (by apply (consistent_same_table s1)).
  destruct (close_round (Failure (SocketError "Socket Closed")) s1' Hs1')
    as (s2 & Hrun2 & Hs2 & _ & _ & _ & Hp2 & _ & Hc2 & Hk2 & _ & Hn2 & _).
  exists (close_tunnels s2). split; [exact Hrun|].
  split.
  { apply bind_return_inv in Hrun2 as (sa & Hsa & Hclose).
    change (_inflight (set_alive false _)) with (_inflight s1').
    rewrite Hsa. cbn [bind]. by rewrite Hclose. }
  unfold close_tunnels, set_closed_tunnels; fields.
  split; [|split].
  - intros id p Hin. apply Hp2; [|discriminate].
    rewrite P1. by apply (Hall id p).
  - intros f Hf. split; [by apply Hc|]. split.
    + apply Hc2. rewrite E1. by apply (He (CloseCallback f)).
    + apply Hk2. rewrite K1. by apply Hc.
  - rewrite Hn2, N1, Hn. change (initialized s0) with (reject code (initialized s)).
    destruct (initialized s); done.
Qed.

Lemma socket_error_then_close_calls_back_twice_witness :
  exists s2,
    bind (on_socket_error (Str "ECONNRESET")
            (on_close_subscribe 7 two_pending)) on_socket_close = Return s2
    /\ called s2 = [(7%nat, Failure (SocketError "Socket Error"));
                    (7%nat, Failure (SocketError "Socket Closed"))].
Proof.
  destruct (socket_error_then_close_calls_back_twice (Str "ECONNRESET")
              (on_close_subscribe 7 two_pending)
              (on_close_subscribe_consistent 7 _ two_pending_consistent))
    as (s1 & s2 & Hrun1 & Hrun2 & _).
  exists s2. rewrite Hrun1. cbn [bind]. split; [exact Hrun2|].
  assert (Return (A:=session) s2
          = bind (on_socket_error (Str "ECONNRESET")
                    (on_close_subscribe 7 two_pending)) on_socket_close) as Heq
    by (by rewrite Hrun1).
  vm_compute in Heq. injection Heq as ->. by vm_compute.
Defined.


(** *** Events of the server *)

Lemma get_return_not_nullish v key x : get v key = Return x -> nullish v = false.
Proof. by destruct v. Qed.

Lemma call_all_data_returns v : nullish v = false -> forall ls s,
  exists s', call_all ls (Data v) s = Return s'.
Proof.
  intros Hv. induction ls as [|l ls IH]; intros s; [by eexists|].
  simpl. destruct l as [id p|action p|f|f flt]; simpl; try apply IH.
  destruct (truthy flt) eqn:Hflt; [|apply IH].
  destruct (FilterFacts._compare_obj_returns flt v) as [b ->];
    [by apply FilterFacts.truthy_not_nullish|done|].
  destruct b; apply IH.
Qed.

Lemma emit_data_returns topic v s :
  nullish v = false -> topic <> "error" ->
  exists s', emit topic (Data v) s = Return s'.
Proof.
  intros Hv Herr. unfold emit.
  destruct (String.eqb_spec topic "error") as [->|_]; [done|].
  by apply call_all_data_returns.
Qed.

Lemma subscribers_cons data l ls :
  subscribers data (l :: ls) = subscribers data [l] ++ subscribers data ls.
Proof.
  unfold subscribers. destruct l as [id p|action p|f|f flt]; simpl; try done.
  by destruct (negb (truthy flt) || _).
Qed.

Lemma notifications_cons data l ls :
  notifications (l :: ls) data = notifications [l] data ++ notifications ls data.
Proof. unfold notifications. simpl. by rewrite app_nil_r. Qed.

Lemma subscribers_kept data ps ls :
  subscribers data (filter (kept ps) ls) = subscribers data ls.
Proof.
  induction ls as [|l ls IH]; [done|].
  destruct (decide (kept ps l)) as [Hk|Hk].
  - rewrite filter_cons_True by done.
    by rewrite (subscribers_cons _ l ls), (subscribers_cons _ l (filter _ ls)), IH.
  - rewrite filter_cons_False by done. rewrite IH, (subscribers_cons _ l ls).
    unfold kept in Hk. destruct l; simpl in Hk; try done.
Qed.

Lemma notifications_subscribers data ls :
  notifications (filter (fun l => topic_of l = "server_event") ls) (Data data)
  = subscribers data ls.
Proof.
  induction ls as [|l ls IH]; [done|].
  rewrite (subscribers_cons _ l ls).
  destruct (decide (topic_of l = "server_event")) as [Ht|Ht].
  - rewrite filter_cons_True by done. rewrite notifications_cons, IH. f_equal.
    destruct l as [id p|action p|f|f flt]; try done.
    unfold notifications, subscribers. simpl.
    destruct (truthy flt); simpl; [|done].
    by destruct (Filter._compare_obj flt data) as [[]| |].
  - rewrite filter_cons_False by done. rewrite IH.
    by destruct l.
Qed.

Lemma notifications_other topic data s :
  topic <> "close" -> topic <> "server_event" ->
  notifications (listening topic s) data = [].
Proof.
  intros Hc He. apply notifications_waiters, Forall_forall.
  intros l Hl. apply list_elem_of_filter in Hl as [-> _]. done.
Qed.

(** What an emit of parsed data does to the log of the callbacks. *)
Lemma emit_called topic data s :
  consistent s -> nullish data = false -> topic <> "close" -> topic <> "error" ->
  exists s', emit topic (Data data) s = Return s'
    /\ consistent s'
    /\ called s' = called s ++ (if decide (topic = "server_event")
                                then subscribers data (_eventer s) else [])
    /\ (forall v, subscribers v (_eventer s') = subscribers v (_eventer s)).
Proof.
  intros Hs Hdata Hc Herr.
  destruct (emit_data_returns topic data s Hdata Herr) as [s' Hemit].
  exists s'. split; [done|].
  destruct (emit_dispatch _ _ _ _ Hs Hemit) as [Hs' _]. split; [done|].
  pose proof (emit_fired _ _ _ _ Hs Hemit) as ->. unfold fired; fields.
  split.
  - f_equal. destruct (decide (topic = "server_event")) as [->|He].
    + apply notifications_subscribers.
    + by apply notifications_other.
  - intros v. apply subscribers_kept.
Qed.

Lemma loose_eq_str_unique v a b :
  loose_eq_str v a = true -> loose_eq_str v b = true -> a = b.
Proof.
  unfold loose_eq_str. destruct v; cbv beta iota; try discriminate;
    intros [_ Ha%String.eqb_eq]%andb_true_iff [_ Hb%String.eqb_eq]%andb_true_iff;
    congruence.
Qed.

(** A registered waiter under an emit: it is settled and taken off when
    the emit is on its topic, and stays as it is otherwise. *)
Lemma emit_listener topic data s s' l p :
  consistent s -> emit topic data s = Return s' ->
  l ∈ _eventer s -> handle_of l = Some p ->
  (topic_of l = topic ->
     promises s' !! p = Some (settled_with data) /\ (l ∉ _eventer s'))
  /\ (topic_of l <> topic ->
     promises s' !! p = Some Unsettled /\ l ∈ _eventer s').
Proof.
  intros Hs Hemit Hl Hp. pose proof (emit_fired _ _ _ _ Hs Hemit) as ->.
  assert (promises s !! p = Some Unsettled) as Hpending.
  { apply (handles_unsettled s Hs), list_elem_of_omap. eauto. }
  split.
  - intros Ht.
    assert (l ∈ listening topic s) as Hin by (by apply list_elem_of_filter).
    assert (p ∈ handles (listening topic s)) as Hph
      by (apply list_elem_of_omap; eauto).
    split.
    + unfold fired; fields. apply settle_all_hit; [|done|done].
      apply omap_filter_nodup, Hs.
    + unfold fired; fields. rewrite list_elem_of_filter. intros [Hk _].
      unfold kept in Hk. rewrite Hp in Hk. done.
  - intros Hne.
    assert (p ∉ handles (listening topic s)) as Hph.
    { intros Hin. apply list_elem_of_omap in Hin as (l' & Hl' & Hlp).
      assert (l' = l) as ->.
      { eapply (omap_nodup_inj handle_of); [apply Hs| |done|done|done].
        by eapply listening_sub. }
      apply list_elem_of_filter in Hl' as [Ht _]. done. }
    split.
    + unfold fired; fields. by rewrite settle_all_other.
    + unfold fired; fields. apply list_elem_of_filter. split; [|done].
      unfold kept. by rewrite Hp.
Qed.

Lemma emit_key_either (c : bool) a b data s :
  (if c then emit_key a data s else emit_key b data s)
  = emit_key (if c then a else b) data s.
Proof. by destruct c. Qed.

(** Off the topic ["error"], an emit keyed by a value that has a text is
    the emit on its text. *)
Lemma emit_key_text key data s :
  unprintable key = false -> toString key <> "error" ->
  emit_key key data s = emit (toString key) data s.
Proof.
  intros Hp Herr.
  assert (emit (toString key) data s = call_topic (toString key) data s) as ->.
  { unfold emit. by destruct (String.eqb_spec (toString key) "error"). }
  destruct key as [| | | |topic|elems|props|elems]; try done;
    try (unfold emit_key; by rewrite Hp).
  cbn [emit_key]. unfold emit. change (toString (Str topic)) with topic in *.
  by destruct (String.eqb_spec topic "error").
Qed.

Lemma any_loose_eq_three v a b c :
  unprintable v = false ->
  any_loose_eq v [a; b; c]
  = Return (loose_eq_str v a || loose_eq_str v b || loose_eq_str v c).
Proof.
  intros Hv. rewrite any_loose_eq_printable by done.
  cbn [existsb]. by rewrite orb_false_r, orb_assoc.
Qed.

Lemma reply_key_topic data key :
  reply_key data = Return key -> reply_topic data = Return (toString key).
Proof.
  unfold reply_key, reply_topic.
  destruct (get data "action") as [action| |]; try discriminate.
  destruct (get data "responseid") as [responseid| |]; try discriminate.
  destruct (get data "tag") as [tag| |]; try discriminate.
  cbn [bind]. by intros [= <-].
Qed.

Section Messages.
Variable JSON_parse : list Z -> option value.

(** What [_receive_message] comes to for a message that is neither the
    server information nor the user information. *)
Lemma _receive_message_emits raw data action key s :
  consistent s -> JSON_parse raw = Some data ->
  get data "action" = Return action -> unprintable action = false ->
  loose_eq_str action "serverinfo" = false ->
  loose_eq_str action "userinfo" = false ->
  reply_key data = Return key ->
  exists s1 s2,
    emit "raw" (Data Null) s = Return s1 /\ consistent s1
    /\ (if loose_eq_str action "event" || loose_eq_str action "msg"
           || loose_eq_str action "interuser"
        then emit "server_event" (Data data) s1 else Return s1) = Return s2
    /\ consistent s2
    /\ _receive_message JSON_parse raw s = emit_key key (Data data) s2.
Proof.
  intros Hs Hparse Haction Hprint Hsi Hui Hkey.
  pose proof (get_return_not_nullish _ _ _ Haction) as Hdata.
  destruct (emit_returns "raw" (Data Null) s) as [s1 Hraw]; [discriminate..|].
  destruct (emit_dispatch _ _ _ _ Hs Hraw) as [Hs1 _].
  exists s1.
  assert (exists s2,
    (if loose_eq_str action "event" || loose_eq_str action "msg"
        || loose_eq_str action "interuser"
     then emit "server_event" (Data data) s1 else Return s1) = Return s2
    /\ consistent s2) as (s2 & Hev & Hs2).
  { destruct (_ || _).
    - destruct (emit_data_returns "server_event" data s1 Hdata) as [s2 Hev];
        [discriminate|].
      exists s2. split; [done|]. by destruct (emit_dispatch _ _ _ _ Hs1 Hev).
    - by exists s1. }
  exists s2. split; [done|]. split; [done|]. split; [done|]. split; [done|].
  unfold _receive_message. rewrite Hraw. cbn [bind].
  rewrite Hparse, Haction. cbn [bind].
  rewrite !(JSFacts.loose_eq_printable action), any_loose_eq_three by done.
  cbn [bind]. rewrite Hsi, Hui. cbn [bind]. rewrite Hev. cbn [bind].
  unfold reply_key in Hkey. rewrite Haction in Hkey. cbn [bind] in Hkey.
  destruct (get data "responseid") as [responseid| |]; try discriminate.
  destruct (get data "tag") as [tag| |]; try discriminate.
  cbn [bind] in *. injection Hkey as <-.
  apply emit_key_either.
Qed.


(** X12: a reply that is dispatched on its action alone, a string other
    than [serverinfo], [userinfo], [raw], [server_event] and [error],
    settles every request that waits under that action: when two requests
    sent with [_send_command_no_response_id] for the same action are
    outstanding, the first reply fulfils both of them, and both waiters
    are gone. *)
Theorem unnamespaced_reply_settles_every_waiter raw data action s :
  consistent s -> JSON_parse raw = Some data ->
  get data "action" = Return (Str action) ->
  reply_key data = Return (Str action) ->
  action ∉ ["serverinfo"; "userinfo"; "raw"; "server_event"; "error"] ->
  exists s', _receive_message JSON_parse raw s = Return s'
    /\ consistent s'
    /\ forall p, ActionWaiter action p ∈ _eventer s ->
         promises s' !! p = Some (Fulfilled data)
         /\ (ActionWaiter action p ∉ _eventer s').
Proof.
  intros Hs Hparse Haction Hkey Hnot.
  pose proof (get_return_not_nullish _ _ _ Haction) as Hdata.
  assert (action <> "serverinfo" /\ action <> "userinfo" /\ action <> "raw"
          /\ action <> "server_event" /\ action <> "error")
    as (Hsi & Hui & Hraw_ne & Hev_ne & Herr).
  { repeat split; intros ->; apply Hnot; set_solver. }
  destruct (_receive_message_emits raw data (Str action) (Str action) s)
    as (s1 & s2 & Hraw & Hs1 & Hev & Hs2 & ->); try done.
  { simpl. by apply String.eqb_neq. }
  { simpl. by apply String.eqb_neq. }
  cbn [emit_key].
  destruct (emit_data_returns action data s2 Hdata Herr) as [s' Hemit].
  exists s'. split; [done|].
  split; [by destruct (emit_dispatch _ _ _ _ Hs2 Hemit)|].
  intros p Hp.
  destruct (proj2 (emit_listener _ _ _ _ _ p Hs Hraw Hp eq_refl)) as [_ Hp1];
    [simpl; congruence|].
  assert (ActionWaiter action p ∈ _eventer s2) as Hp2.
  { destruct (_ || _); [|by injection Hev as <-].
    destruct (proj2 (emit_listener _ _ _ _ _ p Hs1 Hev Hp1 eq_refl)) as [_ ?];
      [simpl; congruence|done]. }
  exact (proj1 (emit_listener _ _ _ _ _ p Hs2 Hemit Hp2 eq_refl) eq_refl).
Qed.

End Messages.

Lemma after_send_no_response_id_consistent data s :
  consistent s -> consistent (after_send_no_response_id data s).
Proof.
  intros Hs. unfold after_send_no_response_id.
  destruct (_send_command_no_response_id data s) as [[p s']| |] eqn:Hsend; [|done..].
  by eapply _send_command_no_response_id_consistent.
Qed.

Lemma three_subscribers_consistent : consistent three_subscribers.
Proof. do 3 apply listen_to_events_consistent. apply constructed_consistent. Qed.

Lemma two_unnamespaced_consistent : consistent two_unnamespaced.
Proof. do 2 apply after_send_no_response_id_consistent. apply constructed_consistent. Qed.


Lemma unnamespaced_reply_settles_every_waiter_witness :
  exists s', _receive_message two_messages [2] two_unnamespaced = Return s'
    /\ promises s' = [Fulfilled example_meshes; Fulfilled example_meshes].
Proof.
  destruct (unnamespaced_reply_settles_every_waiter two_messages [2] example_meshes
              "meshes" two_unnamespaced)
    as (s' & Hrun & _ & _).
  - exact two_unnamespaced_consistent.
  - reflexivity.
  - reflexivity.
  - reflexivity.
  - by apply (bool_decide_unpack _); vm_compute.
  - exists s'. split; [exact Hrun|].
    assert (Return (A:=session) s' = _receive_message two_messages [2] two_unnamespaced)
      as Heq by done.
    vm_compute in Heq. injection Heq as ->. by vm_compute.
Defined.

End EventFacts.

(** ** The session: construction *)

Module ConstructorFacts.
Import JS Session SessionFacts.

(** *** The constructor *)

Lemma prefix_length (a b : string) :
  String.prefix a b = true -> (String.length a <= String.length b)%nat.
Proof.
  revert b. induction a as [|c a IH]; intros b; [simpl; lia|].
  destruct b as [|d b]; simpl; [discriminate|].
  destruct (Ascii.ascii_dec c d); [|discriminate].
  intros H. apply IH in H. lia.
Qed.

(** The checks of the URL, of the credentials and of the login key are
    passed exactly when the URL starts with [ws://] or [wss://], a user is
    given, a password or a login key is given, and the login key is empty
    or absent. *)
Lemma constructor_url_returns readFileSync url user password loginkey u :
  constructor_url readFileSync url user password loginkey = Return u
  <-> (String.prefix "ws://" url = true \/ String.prefix "wss://" url = true)
      /\ nullish user = false
      /\ (nullish password = false \/ nullish loginkey = false)
      /\ truthy loginkey = false
      /\ u = (if ends_with_slash url then url else url +:+ "/") +:+ "control.ashx".
Proof.
  unfold constructor_url.
  destruct (String.prefix "wss://" url) eqn:Hwss;
    destruct (String.prefix "ws://" url) eqn:Hws; cbn [negb andb orb].
  4:{ rewrite orb_true_r. split; [discriminate|]. intros ([|] & _); discriminate. }
  all: assert ((String.length url <? 5)%nat = false) as ->
      by (apply Nat.ltb_ge;
          first [apply prefix_length in Hws | apply prefix_length in Hwss];
          simpl in *; lia).
  all: cbn [orb];
    destruct (nullish user); cbn [orb];
      [split; [discriminate|intros (_ & ? & _); discriminate]|];
    destruct (nullish password); cbn [andb];
      [destruct (nullish loginkey) eqn:Hkey;
         [split; [discriminate|intros (_ & _ & [|] & _); discriminate]|]|];
    (destruct (truthy loginkey) eqn:Htruthy;
      [split; [|intros (_ & _ & _ & ? & _); discriminate];
       destruct loginkey as [| | | |path| | |]; try discriminate;
       destruct (readFileSync path) as [bytes| |]; try discriminate;
       match goal with |- context [if ?c then _ else _] => destruct c end;
       discriminate|]);
    destruct (ends_with_slash url); cbn [Bool.eqb];
    (split; [intros [= <-]; repeat split; auto|intros (_ & _ & _ & _ & ->); done]).
Qed.

Section Construction.
Variable readFileSync : string -> file_read.
Variable base64 : string -> string.
Variable https_proxy_agent : value -> bool.
Variable ws : string -> socket_options -> bool.


End Construction.


Lemma fresh_id_sent name : forall fuel s id s1,
  fresh_id fuel name s = Some (id, s1) -> sent s1 = sent s.
Proof.
  induction fuel as [|fuel IH]; intros s id s1 Hfresh; [discriminate|].
  rewrite fresh_id_S in Hfresh. cbv zeta in Hfresh.
  destruct (decide _); [by rewrite (IH _ _ _ Hfresh)|].
  by injection Hfresh as <- <-.
Qed.

Lemma _send_command_wire data name s id p s' :
  _send_command data name s = Sent id p s' -> sent s' = sent s ++ [stamp data id].
Proof.
  unfold _send_command. destruct (negb (alive s)); [discriminate|].
  destruct (fresh_id _ _ _) as [[id' s1]|] eqn:Hfresh; [|discriminate].
  intros [= <- <- <-]. unfold set_sent, set_eventer, set_promises, set_inflight; fields.
  by rewrite (fresh_id_sent _ _ _ _ _ Hfresh).
Qed.

End ConstructorFacts.

(** ** The file tunnel: closing, simple requests, download control *)

Module RequestFacts.
Import JS Files FilesFacts.
Import EventFacts(loose_eq_str_unique).

(** *** Closing *)

Lemma run_chain_dead : forall pending t,
  alive t = false ->
  wire (run_chain pending t) = wire t
  /\ _request_queue (run_chain pending t) = _request_queue t
  /\ store (run_chain pending t) = store t
  /\ alive (run_chain pending t) = false.
Proof.
  induction pending as [|k rest IH]; intros t Hdead; simpl; [done|].
  destruct (blocked t); [done|].
  assert (run_thunk k t = set_awaiting None t) as ->
    by (unfold run_thunk; by rewrite Hdead).
  destruct (IH (set_awaiting None t) Hdead) as (Hw & Hq & Hs & Ha). done.
Qed.

Lemma run_chain_queue : forall pending t,
  _request_queue (run_chain pending t) = _request_queue t.
Proof.
  induction pending as [|k rest IH]; intros t; simpl; [done|].
  destruct (blocked t); [done|]. rewrite IH. unfold run_thunk.
  destruct (alive t); [|done]. by destruct (thunk_listen k).
Qed.

Lemma closed_out_idem r : closed_out (closed_out r) = closed_out r.
Proof. unfold closed_out, with_finished. simpl. by destruct (finished r). Qed.

Lemma reject_queue_spec (q : list nat) : forall (u : files),
  let u' := fold_left (fun t h => update h closed_out t) q u in
  wire u' = wire u /\ _request_queue u' = _request_queue u /\ alive u' = alive u
  /\ length (store u') = length (store u)
  /\ forall h, store u' !! h
       = (fun r => if bool_decide (h ∈ q) then closed_out r else r) <$> store u !! h.
Proof.
  induction q as [|h0 q IH]; intros u; simpl.
  - repeat split; try done. intros h. by destruct (store u !! h).
  - destruct (IH (update h0 closed_out u)) as (Hw & Hq & Ha & Hl & Hs).
    split; [done|]. split; [done|]. split; [done|].
    split; [rewrite Hl; apply length_alter|].
    intros h. rewrite Hs. unfold update; fields.
    destruct (decide (h0 = h)) as [->|Hne].
    + rewrite list_lookup_alter_eq. destruct (store u !! h) as [r|]; [|done].
      simpl. f_equal. rewrite (bool_decide_eq_true_2 (h ∈ h :: q)) by set_solver.
      destruct (bool_decide (h ∈ q)); [apply closed_out_idem|done].
    + rewrite list_lookup_alter_ne by done.
      destruct (store u !! h) as [r|]; [|done]. simpl. f_equal.
      destruct (decide (h ∈ q)) as [Hin|Hin].
      * rewrite !bool_decide_eq_true_2; [done|set_solver|done].
      * rewrite !bool_decide_eq_false_2; [done|set_solver|done].
Qed.

Section CloseFacts.
Variable JSON_parse : list Z -> option value.

(** X14: when the socket of an initialised file tunnel closes, the tunnel
    is no longer alive, the queue is emptied, and every request that was
    queued is rejected with ["Socket closed"] unless it had settled;
    requests that were not queued are left as they are, and nothing is
    sent. *)
Theorem socket_close_rejects_queued (t : files) :
  resolved (initialized t) = true ->
  exists t',
    step JSON_parse SocketClose t = Return t'
    /\ alive t' = false
    /\ _request_queue t' = []
    /\ wire t' = wire t
    /\ length (store t') = length (store t)
    /\ forall h r, store t !! h = Some r ->
         store t' !! h
         = Some (if bool_decide (h ∈ _request_queue t)
                 then with_finished (reject (Str "Socket closed") (finished r)) r
                 else r).
Proof.
  intros Hi. unfold step. cbn [handle bind].
  change (initialized (set_alive false t)) with (initialized t). rewrite Hi.
  eexists. split; [reflexivity|].
  unfold _on_close.
  change (fun t0 h => update h (fun r => with_finished
            (reject (Str "Socket closed") (finished r)) r) t0)
    with (fun t0 h => update h closed_out t0).
  destruct (reject_queue_spec (_request_queue (set_alive false t))
              (set_queue [] (set_alive false t))) as (Hw & Hq & Ha & Hl & Hs).
  cbv zeta in *.
  destruct (run_chain_dead
              (chain (fold_left (fun t0 h => update h closed_out t0)
                        (_request_queue (set_alive false t))
                        (set_queue [] (set_alive false t))))
              (fold_left (fun t0 h => update h closed_out t0)
                 (_request_queue (set_alive false t))
                 (set_queue [] (set_alive false t)))) as (Hw' & Hq' & Hs' & Ha').
  { by rewrite Ha. }
  unfold drain. rewrite Ha', Hq', Hw', Hs', Hq, Hw, Hl.
  repeat split; try done.
  intros h r Hr. rewrite Hs. fields. by rewrite Hr.
Qed.

End CloseFacts.

Lemma socket_close_rejects_queued_witness :
  exists t',
    step binary_only SocketClose example_downloading = Return t'
    /\ _request_queue t' = []
    /\ map finished (store t')
       = [Rejected (Str "Socket closed"); Rejected (Str "Socket closed")].
Proof.
  destruct (socket_close_rejects_queued binary_only example_downloading)
    as (t' & Hstep & _ & Hq & _).
  - reflexivity.
  - exists t'. split; [exact Hstep|]. split; [exact Hq|].
    assert (Return t' = step binary_only SocketClose example_downloading) as Heq by done.
    vm_compute in Heq. injection Heq as ->. reflexivity.
Defined.

(** *** Simple requests *)

Lemma type_not_transfer (ty : string) :
  ty <> "upload" /\ ty <> "download" ->
  String.eqb ty "upload" = false /\ String.eqb ty "download" = false.
Proof. intros [Hu Hd]. split; by apply String.eqb_neq. Qed.

Section ActionFacts.
Variable JSON_parse : list Z -> option value.

(** X15: while a simple request (a listing, for one) is the active
    request, a frame that starts with an opening brace and parses settles
    it: the request is resolved with the parsed frame, whatever ids the
    frame carries, and leaves the queue; in the same turn the frame of the
    next queued request, if there is one, goes out, and only that one. *)
Theorem action_reply_resolves_head_and_sends_next h req raw data t :
  acting h req t -> raw !! 0%nat = Some 123 -> JSON_parse raw = Some data ->
  exists t',
    step JSON_parse (Message raw) t = Return t'
    /\ store t' !! h = Some (with_finished (Resolved data) req)
    /\ _request_queue t' = tail (_request_queue t)
    /\ wire t'
       = wire t ++ match chain t with
                   | k :: _ => [(Dispatch (thunk_request k), Json (thunk_frame k))]
                   | [] => []
                   end
    /\ chain t' = tail (chain t)
    /\ awaiting t' = match chain t with
                     | k :: _ => Some (thunk_request k)
                     | [] => Some h
                     end.
Proof.
  intros [Hi Hal [q Hq] Hr Hty Hp Ha Hch] Hbyte Hparse.
  destruct (type_not_transfer _ Hty) as [Hu Hd].
  unfold step. cbn [handle]. unfold _receive_message. rewrite Hi. unfold receive. rewrite Hq, Hr.
  simpl (default _ _). rewrite Hu, Hd. unfold Buffer.byte_is. rewrite Hbyte.
  change (123 =? 123) with true. cbn [orb negb andb].
  unfold _handle_action. rewrite Hparse, Hq. cbn [bind].
  set (t1 := update h _ (set_queue q t)).
  assert (store t1 !! h = Some (with_finished (Resolved data) req)) as Hr1.
  { unfold t1, update; fields. etrans; [apply list_lookup_alter_eq|].
    rewrite Hr. simpl. by rewrite Hp. }
  assert (blocked t1 = false) as Hb1.
  { unfold blocked. unfold t1 at 1, update; fields. rewrite Ha, Hr1. done. }
  eexists. split; [reflexivity|]. unfold drain.
  assert (chain t1 = chain t) as -> by done.
  destruct (chain t) as [|k rest] eqn:Hchain.
  - simpl. fields. rewrite app_nil_r. repeat split; try done.
  - apply Forall_cons in Hch as [(Hne & rk & Hrk & Hpk) _].
    simpl. rewrite Hb1.
    assert (alive t1 = true) as Hal1 by done.
    set (t2 := run_thunk k t1).
    assert (blocked t2 = true) as Hb2.
    { unfold blocked. unfold t2. rewrite awaiting_run_thunk, store_run_thunk, Hal1.
      unfold t1, update; fields. rewrite list_lookup_alter_ne by done.
      by rewrite Hrk, Hpk. }
    assert (wire t2 = wire t ++ [(Dispatch (thunk_request k), Json (thunk_frame k))])
      as Hw2.
    { unfold t2, run_thunk. rewrite Hal1. by destruct (thunk_listen k). }
    assert (_request_queue t2 = q) as Hq2.
    { unfold t2, run_thunk. rewrite Hal1. by destruct (thunk_listen k). }
    assert (store t2 !! h = Some (with_finished (Resolved data) req)) as Hr2
      by (unfold t2; by rewrite store_run_thunk).
    assert (awaiting t2 = Some (thunk_request k)) as Ha2
      by (unfold t2; by rewrite awaiting_run_thunk, Hal1).
    destruct rest as [|k' rest]; simpl; rewrite ?Hb2; fields;
      repeat split; done.
Qed.

(** X16: while a simple request is the active request, a frame that does
    not start with an opening brace is dropped, and so is every frame that
    arrives while no request is queued: the handler leaves the tunnel as
    it is.  A frame that starts with an opening brace but is no JSON text
    makes the handler throw while a simple request is active. *)
Theorem stray_frame_is_dropped raw t :
  resolved (initialized t) = true ->
  (_request_queue t = [] -> _receive_message JSON_parse raw t = Return t)
  /\ (forall h req, acting h req t ->
        (raw !! 0%nat <> Some 123 -> _receive_message JSON_parse raw t = Return t)
        /\ (raw !! 0%nat = Some 123 -> JSON_parse raw = None ->
            _receive_message JSON_parse raw t = Throw)).
Proof.
  intros Hi. unfold _receive_message. rewrite Hi. unfold receive. split.
  - by intros ->.
  - intros h req [_ Hal [q Hq] Hr Hty Hp Ha Hch].
    destruct (type_not_transfer _ Hty) as [Hu Hd].
    rewrite Hq, Hr. simpl (default _ _). rewrite Hu, Hd. unfold Buffer.byte_is.
    split.
    + intros Hbyte. destruct (raw !! 0%nat) as [b|]; [|done].
      destruct (Z.eqb_spec b 123) as [->|]; done.
    + intros -> Hparse. change (123 =? 123) with true. cbn [orb negb andb].
      unfold _handle_action. by rewrite Hparse.
Qed.

End ActionFacts.

(** *** Control frames of a download *)

Section DownloadControl.
Variable JSON_parse : list Z -> option value.


End DownloadControl.

Lemma example_listing_acting :
  acting 0 (new_request "meshctrl_ls_0" "ls") example_listing.
Proof.
  assert (chain example_listing
          = [mk_thunk 1 (Obj [("action", Str "ls"); ("path", Str "/etc");
                              ("responseid", Str "meshctrl_ls_0")]) None]) as Hchain
    by (by vm_compute).
  split.
  - by vm_compute.
  - by vm_compute.
  - exists [1%nat]. by vm_compute.
  - by vm_compute.
  - split; discriminate.
  - reflexivity.
  - by vm_compute.
  - rewrite Hchain. repeat constructor; [discriminate|].
    exists (new_request "meshctrl_ls_0" "ls"). split; by vm_compute.
Qed.

Lemma action_reply_resolves_head_and_sends_next_witness :
  acting 0 (new_request "meshctrl_ls_0" "ls") example_listing
  /\ exists t',
       step example_replies (Message [123; 125]) example_listing = Return t'
       /\ map finished (store t') = [Resolved (Obj [("dir", Arr [])]); Pending]
       /\ _request_queue t' = [1%nat]
       /\ dispatched t' = [0%nat; 1%nat].
Proof.
  split; [exact example_listing_acting|].
  destruct (action_reply_resolves_head_and_sends_next example_replies 0
              (new_request "meshctrl_ls_0" "ls") [123; 125] (Obj [("dir", Arr [])])
              example_listing example_listing_acting)
    as (t' & Hstep & _).
  - reflexivity.
  - reflexivity.
  - exists t'. split; [exact Hstep|].
    assert (Return t' = step example_replies (Message [123; 125]) example_listing)
      as Heq by done.
    vm_compute in Heq. injection Heq as ->. repeat split.
Defined.


Lemma stray_frame_is_dropped_witness :
  _receive_message example_replies [13; 10] example_listing = Return example_listing
  /\ _receive_message example_replies [123; 13] example_listing = Throw.
Proof.
  destruct (stray_frame_is_dropped example_replies [13; 10] example_listing)
    as [_ Hdrop]; [reflexivity|].
  destruct (stray_frame_is_dropped example_replies [123; 13] example_listing)
    as [_ Hthrow]; [reflexivity|].
  split.
  - apply (Hdrop 0%nat _ example_listing_acting). discriminate.
  - apply (Hthrow 0%nat _ example_listing_acting); reflexivity.
Defined.

End RequestFacts.

(** ** The file tunnel: uploads *)

Module TransferFacts.
Import JS Files FilesFacts RequestFacts.
Import Upload UploadFacts StreamFacts.

(** *** Uploading *)

Lemma steady_refl t : steady t t.
Proof. by split. Qed.

Lemma steady_trans t1 t2 t3 : steady t1 t2 -> steady t2 t3 -> steady t1 t3.
Proof. intros [] []. split; congruence. Qed.

Lemma moved_on_refl r : moved_on 0 0 r r.
Proof. unfold moved_on. repeat split; lia. Qed.

Lemma moved_on_trans b1 f1 b2 f2 r1 r2 r3 :
  moved_on b1 f1 r1 r2 -> moved_on b2 f2 r2 r3 -> moved_on (b1 + b2) (f1 + f2) r1 r3.
Proof.
  unfold moved_on. intros (?&?&?&?&?&?&?&?&?) (?&?&?&?&?&?&?&?&?).
  repeat split; try congruence; lia.
Qed.

Lemma upload_frame_nil : upload_frame [] = None.
Proof. by vm_compute. Qed.

Lemma upload_frame_some c :
  c <> [] -> (length c <= UPLOAD_CHUNK_SIZE)%nat ->
  exists frame, upload_frame c = Some frame /\ unescaped frame = c.
Proof.
  intros Hne Hlen. destruct c as [|b rest]; [done|].
  rewrite upload_frame_cons by done. eexists. split; [done|].
  destruct (Z.eqb_spec b 0) as [->|Hb0]; simpl; [done|].
  destruct (Z.eqb_spec b 123) as [->|Hb123]; simpl; [done|].
  by destruct b.
Qed.

(** One chunk reaches the ["data"] listener. *)
Lemma on_chunk_spec h r c t :
  store t !! h = Some r -> (length c <= UPLOAD_CHUNK_SIZE)%nat ->
  exists r',
    steady t (on_chunk h c t)
    /\ store (on_chunk h c t) !! h = Some r'
    /\ moved_on (Z.of_nat (length c))
                (Z.of_nat (length (omap upload_frame [c]))) r r'
    /\ wire (on_chunk h c t)
       = wire t ++ map (fun f => (Handler, Binary f)) (omap upload_frame [c]).
Proof.
  intros Hr Hlen. unfold on_chunk. destruct c as [|b rest].
  - rewrite upload_frame_nil. simpl. rewrite app_nil_r. exists r.
    split; [apply steady_refl|]. split; [done|]. split; [apply moved_on_refl|done].
  - destruct (upload_frame_some (b :: rest)) as (frame & Hframe & _); [done|done|].
    cbn [omap list_omap]. rewrite Hframe. cbn [map length].
    eexists. split; [by split|]. split.
    + unfold update, send; fields.
      etrans; [apply list_lookup_alter_eq|].
      rewrite list_lookup_alter_eq, Hr. reflexivity.
    + split; [|done]. unfold moved_on. simpl. repeat split; lia.
Qed.

Lemma deliver_spec h : forall pushed r t,
  store t !! h = Some r ->
  Forall (fun c => (length c <= UPLOAD_CHUNK_SIZE)%nat) pushed ->
  exists r',
    steady t (deliver h 1 pushed t)
    /\ store (deliver h 1 pushed t) !! h = Some r'
    /\ moved_on (Z.of_nat (length (concat pushed)))
                (Z.of_nat (length (omap upload_frame pushed))) r r'
    /\ wire (deliver h 1 pushed t)
       = wire t ++ map (fun f => (Handler, Binary f)) (omap upload_frame pushed).
Proof.
  induction pushed as [|c pushed IH]; intros r t Hr Hall.
  - exists r. simpl. rewrite app_nil_r.
    split; [apply steady_refl|]. split; [done|]. split; [apply moved_on_refl|done].
  - apply Forall_cons in Hall as [Hc Hall].
    destruct (on_chunk_spec h r c t Hr Hc) as (r1 & Hs1 & Hr1 & Hm1 & Hw1).
    destruct (IH r1 (on_chunk h c t) Hr1 Hall) as (r' & Hs' & Hr' & Hm' & Hw').
    exists r'.
    change (deliver h 1 (c :: pushed) t) with (deliver h 1 pushed (on_chunk h c t)).
    split; [by eapply steady_trans|]. split; [done|]. split.
    + replace (Z.of_nat (length (concat (c :: pushed))))
        with (Z.of_nat (length c) + Z.of_nat (length (concat pushed)))
        by (simpl; rewrite length_app; lia).
      replace (Z.of_nat (length (omap upload_frame (c :: pushed))))
        with (Z.of_nat (length (omap upload_frame [c]))
              + Z.of_nat (length (omap upload_frame pushed)))
        by (change (c :: pushed) with ([c] ++ pushed); rewrite omap_app, length_app; lia).
      by eapply moved_on_trans.
    + rewrite Hw', Hw1, <- app_assoc, <- map_app. do 2 f_equal.
      change (c :: pushed) with ([c] ++ pushed). by rewrite omap_app.
Qed.

Lemma uploading_blocked h req t : uploading h req t -> blocked t = true.
Proof. intros [_ _ Hr _ Hp Ha _ _]. unfold blocked. by rewrite Ha, Hr, Hp. Qed.

Lemma uploading_moved h req req' t t' bytes frames :
  uploading h req t -> steady t t' -> store t' !! h = Some req' ->
  moved_on bytes frames req req' -> uploading h req' t'.
Proof.
  intros [Hi Hq Hr Ht Hp Ha Hl Hpi] [Sa Si Sq Sc Saw Se] Hr'
         (Mi & Mt & Mf & _ & _ & _ & _ & Mp & _).
  split; try congruence.
  - by rewrite Sq.
  - by rewrite Se, Mi.
Qed.

Section UploadFlow.
Variable JSON_parse : list Z -> option value.

(** The source delivers one chunk. *)
Lemma source_data_step h req chunk pushed buffer t :
  uploading h req t ->
  _transform UPLOAD_CHUNK_SIZE (chunker (up req)) chunk = Some (pushed, buffer) ->
  Forall (fun c => (length c <= UPLOAD_CHUNK_SIZE)%nat) pushed ->
  exists t' req',
    step JSON_parse (SourceData h chunk) t = Return t'
    /\ uploading h req' t'
    /\ id req' = id req
    /\ chunker (up req') = buffer
    /\ size req' = size req + Z.of_nat (length (concat pushed))
    /\ inflight (up req')
       = inflight (up req) + Z.of_nat (length (omap upload_frame pushed))
    /\ complete (up req') = complete (up req)
    /\ wire t' = wire t ++ map (fun f => (Handler, Binary f)) (omap upload_frame pushed).
Proof.
  intros Hup Htransform Hall.
  pose proof Hup as [Hi Hq Hr Ht Hp Ha Hl Hpi].
  unfold step. cbn [handle]. rewrite Hr, Hpi. cbn [source_data].
  rewrite Hr, Htransform, Hpi.
  set (t1 := update h _ t).
  set (r1 := with_up (mk_upload_state (complete (up req)) (inflight (up req))
                        (piped (up req)) buffer) req).
  assert (store t1 !! h = Some r1) as Hr1.
  { unfold t1, update; fields. etrans; [apply list_lookup_alter_eq|]. by rewrite Hr. }
  destruct (deliver_spec h pushed r1 t1 Hr1 Hall) as (r' & Hs & Hr' & Hm & Hw).
  assert (uploading h r1 t1) as Hup1.
  { by split. }
  pose proof (uploading_moved _ _ _ _ _ _ _ Hup1 Hs Hr' Hm) as Hup'.
  cbn [bind]. rewrite (drain_blocked _ (uploading_blocked _ _ _ Hup')).
  destruct Hm as (Mi & _ & _ & _ & Msz & Mfl & Mc & _ & Mch).
  exists (deliver h 1 pushed t1), r'.
  split; [done|]. split; [exact Hup'|]. split; [exact Mi|]. split; [exact Mch|].
  split; [exact Msz|]. split; [exact Mfl|]. split; [exact Mc|]. exact Hw.
Qed.

(** The source ends: the chunker flushes what it holds and ends. *)
Lemma source_end_step h req t :
  uploading h req t -> (length (chunker (up req)) <= UPLOAD_CHUNK_SIZE)%nat ->
  exists t' req',
    step JSON_parse (SourceEnd h) t = Return t'
    /\ uploading h req' t'
    /\ id req' = id req
    /\ size req' = size req + Z.of_nat (length (chunker (up req)))
    /\ inflight (up req')
       = inflight (up req) + Z.of_nat (length (omap upload_frame [chunker (up req)]))
    /\ complete (up req') = true
    /\ wire t'
       = wire t
         ++ map (fun f => (Handler, Binary f)) (omap upload_frame [chunker (up req)])
         ++ (if inflight (up req') =? 0 then [(Handler, uploaddone req)] else []).
Proof.
  intros Hup Hlen.
  pose proof Hup as [Hi Hq Hr Ht Hp Ha Hl Hpi].
  unfold step. cbn [handle]. unfold source_end. rewrite Hr, Hpi.
  change (0 <? 1)%nat with true. cbv iota. unfold _flush.
  destruct (deliver_spec h [chunker (up req)] req t Hr) as (r1 & Hs1 & Hr1 & Hm1 & Hw1).
  { by constructor. }
  set (t1 := deliver h 1 [chunker (up req)] t) in *.
  pose proof (uploading_moved _ _ _ _ _ _ _ Hup Hs1 Hr1 Hm1) as Hup1.
  cbn [repeat_on]. unfold on_chunker_end.
  set (t2 := update h _ t1).
  set (r2 := with_up (mk_upload_state true (inflight (up r1)) (piped (up r1))
                        (chunker (up r1))) r1).
  assert (store t2 !! h = Some r2) as Hr2.
  { unfold t2, update; fields. etrans; [apply list_lookup_alter_eq|]. by rewrite Hr1. }
  assert (uploading h r2 t2) as Hup2.
  { destruct Hup1 as [Hi1 Hq1 _ Ht1 Hp1 Ha1 Hl1 Hpi1]. by split. }
  rewrite Hr2.
  destruct Hm1 as (Mi & _ & _ & _ & Msz & Mfl & _ & _ & _).
  simpl concat in Msz. rewrite app_nil_r in Msz.
  assert (uploaddone r2 = uploaddone req) as Hdone.
  { unfold uploaddone, r2. simpl. by rewrite Mi. }
  cbn [bind].
  destruct (inflight (up r2) =? 0) eqn:Hzero.
  - assert (uploading h r2 (send Handler (uploaddone r2) t2)) as Hup3.
    { destruct Hup2 as [Hi2 Hq2 _ Ht2 Hp2 Ha2 Hl2 Hpi2]. by split. }
    rewrite (drain_blocked _ (uploading_blocked _ _ _ Hup3)).
    exists (send Handler (uploaddone r2) t2), r2.
    split; [done|]. split; [done|]. split; [done|]. split; [done|].
    split; [done|]. split; [done|].
    rewrite Hzero. unfold send, t2, update; fields. rewrite Hw1, Hdone.
    by rewrite <- app_assoc.
  - rewrite (drain_blocked _ (uploading_blocked _ _ _ Hup2)).
    exists t2, r2.
    split; [done|]. split; [done|]. split; [done|]. split; [done|].
    split; [done|]. split; [done|].
    rewrite Hzero. unfold t2, update; fields. by rewrite Hw1, app_nil_r.
Qed.

Lemma handler_frames_handlers w fs :
  handler_frames (w ++ map (fun f => (Handler, f)) fs) = handler_frames w ++ fs.
Proof.
  unfold handler_frames. rewrite omap_app. f_equal.
  induction fs as [|f fs IH]; [done|]. simpl. f_equal. exact IH.
Qed.

Lemma unescaped_frames out :
  Forall (fun c => (length c <= UPLOAD_CHUNK_SIZE)%nat) out ->
  concat (map unescaped (omap upload_frame out)) = concat out.
Proof.
  induction 1 as [|c out Hc _ IH]; [done|].
  destruct c as [|b rest].
  - cbn [omap list_omap]. rewrite upload_frame_nil. exact IH.
  - destruct (upload_frame_some (b :: rest)) as (frame & Hframe & Hun); [done|done|].
    cbn [omap list_omap]. rewrite Hframe. cbn [map concat]. rewrite Hun.
    f_equal. exact IH.
Qed.


(** The agent acknowledges one frame. *)
Lemma upload_ack_step h req raw cmd reqid t :
  uploading h req t -> JSON_parse raw = Some cmd ->
  get cmd "reqid" = Return reqid -> loose_eq_str reqid (id req) = true ->
  get cmd "action" = Return (Str "uploadack") ->
  exists t' req',
    step JSON_parse (Message raw) t = Return t'
    /\ uploading h req' t'
    /\ moved_on 0 (-1) req req'
    /\ wire t'
       = wire t ++ (if complete (up req) && (inflight (up req) - 1 =? 0)
                    then [(Handler, uploaddone req)] else []).
Proof.
  intros Hup Hparse Hreqid Hmatch Haction.
  pose proof Hup as [Hi [q Hq] Hr Ht Hp Ha Hl Hpi].
  unfold step. cbn [handle]. unfold _receive_message. rewrite Hi. unfold receive. rewrite Hq, Hr.
  simpl (default _ _). rewrite Ht.
  change (String.eqb "upload" "upload") with true.
  rewrite andb_false_r. cbv iota.
  unfold _handle_upload. rewrite Hparse, Hr, Hreqid. cbn [bind].
  rewrite (JSFacts.loose_eq_holds _ _ Hmatch). cbn [bind].
  rewrite Haction. cbn [bind].
  change (loose_eq (Str "uploadack") "uploaddone") with (@Return bool false).
  cbn [bind].
  change (strict_eq_str (Str "uploadack") "uploadstart") with false.
  change (strict_eq_str (Str "uploadack") "uploadack") with true.
  cbv iota.
  set (t1 := update h _ t).
  set (r1 := with_up (mk_upload_state (complete (up req)) (inflight (up req) - 1)
                        (piped (up req)) (chunker (up req))) req).
  assert (store t1 !! h = Some r1) as Hr1.
  { unfold t1, update; fields. etrans; [apply list_lookup_alter_eq|]. by rewrite Hr. }
  assert (moved_on 0 (-1) req r1) as Hm.
  { unfold moved_on, r1. simpl. repeat split; lia. }
  assert (uploading h r1 t1) as Hup1.
  { eapply (uploading_moved h req r1 t t1); [done|by split|done|exact Hm]. }
  destruct (complete (up req) && (inflight (up req) - 1 =? 0)).
  - assert (uploading h r1 (send Handler (uploaddone req) t1)) as Hup2.
    { destruct Hup1 as [Hi1 Hq1 _ Ht1 Hp1 Ha1 Hl1 Hpi1]. by split. }
    cbn [bind]. rewrite (drain_blocked _ (uploading_blocked _ _ _ Hup2)).
    exists (send Handler (uploaddone req) t1), r1.
    split; [done|]. split; [exact Hup2|]. split; [exact Hm|]. reflexivity.
  - cbn [bind]. rewrite (drain_blocked _ (uploading_blocked _ _ _ Hup1)).
    exists t1, r1.
    split; [done|]. split; [exact Hup1|]. split; [exact Hm|].
    unfold t1, update; fields. by rewrite app_nil_r.
Qed.


(** The listener of an upload or download is called with [data]. *)
Lemma emit_settles_head h q topic data result t :
  filter (fun l => l = topic) (_eventer t) = [topic] ->
  _request_queue t = h :: q -> get data "result" = Return result ->
  emit topic data t
  = Return (update h (fun r =>
              with_finished
                ((if loose_eq_str result "success" then resolve else reject)
                   data (finished r)) r)
              (set_queue q (set_eventer (remove_first topic (_eventer t)) t))).
Proof.
  intros Hl Hq Hres. unfold emit. rewrite Hl. cbn [length call_listeners].
  unfold settle_head. fields. rewrite Hq, Hres. cbn [bind].
  by destruct (loose_eq_str result "success").
Qed.


End UploadFlow.

Lemma example_uploading_ok :
  uploading 0 (mk_request "upload_0" "upload" Pending 0
                 (mk_upload_state false 0 1 []) (mk_sink [] false))
            example_uploading.
Proof. split; try reflexivity. by exists []. Qed.

Lemma example_streamed_ok :
  uploading 0 (mk_request "upload_0" "upload" Pending 3
                 (mk_upload_state true 1 1 [123; 1; 2]) (mk_sink [] false))
            example_streamed.
Proof. split; try reflexivity. by exists []. Qed.




End TransferFacts.

(** ** The file tunnel: the first frame *)

Module FirstFrameFacts.
Import JS Files FilesFacts.

(** *** The first frame *)

Lemma settled_in_refl t : settled_in t t.
Proof. split; try done. exists []. by rewrite app_nil_r. Qed.

Lemma settled_in_trans t1 t2 t3 : settled_in t1 t2 -> settled_in t2 t3 -> settled_in t1 t3.
Proof.
  intros [I1 R1 [w1 W1]] [I2 R2 [w2 W2]]. split; try congruence.
  exists (w1 ++ w2). by rewrite W2, W1, app_assoc.
Qed.

Lemma settled_in_same t u u' :
  settled_in t u -> initialized u' = initialized u -> recorded u' = recorded u ->
  wire u' = wire u -> settled_in t u'.
Proof. intros [I R [w W]] Hi Hr Hw. split; try congruence. exists w. congruence. Qed.

Lemma settled_in_send t u o f : settled_in t u -> settled_in t (send o f u).
Proof.
  intros [I R [w W]]. split; try done. exists (w ++ [(o, f)]).
  unfold send; fields. by rewrite W, app_assoc.
Qed.

Lemma settled_in_update t u h f : settled_in t u -> settled_in t (update h f u).
Proof. intros Hu. by apply (settled_in_same t u). Qed.
Lemma settled_in_set_queue t u q : settled_in t u -> settled_in t (set_queue q u).
Proof. intros Hu. by apply (settled_in_same t u). Qed.
Lemma settled_in_set_eventer t u e : settled_in t u -> settled_in t (set_eventer e u).
Proof. intros Hu. by apply (settled_in_same t u). Qed.
Lemma settled_in_set_awaiting t u a : settled_in t u -> settled_in t (set_awaiting a u).
Proof. intros Hu. by apply (settled_in_same t u). Qed.
Lemma settled_in_set_chain t u c : settled_in t u -> settled_in t (set_chain c u).
Proof. intros Hu. by apply (settled_in_same t u). Qed.
Lemma settled_in_set_alive t u a : settled_in t u -> settled_in t (set_alive a u).
Proof. intros Hu. by apply (settled_in_same t u). Qed.
Lemma settled_in_set_store t u s : settled_in t u -> settled_in t (set_store s u).
Proof. intros Hu. by apply (settled_in_same t u). Qed.
Lemma settled_in_set_request_id t u n :
  settled_in t u -> settled_in t (set_request_id n u).
Proof. intros Hu. by apply (settled_in_same t u). Qed.

Ltac same :=
  repeat first
    [ apply settled_in_send | apply settled_in_update | apply settled_in_set_queue
    | apply settled_in_set_eventer | apply settled_in_set_awaiting
    | apply settled_in_set_chain | apply settled_in_set_alive
    | apply settled_in_set_store | apply settled_in_set_request_id ];
  try done.

Lemma settled_in_settle_head t u data u' :
  settled_in t u -> settle_head data u = Return u' -> settled_in t u'.
Proof.
  intros Hu. unfold settle_head. destruct (_request_queue u) as [|h q]; [discriminate|].
  destruct (get data "result") as [res| |]; simpl; try discriminate.
  destruct (loose_eq_str res "success"); intros [= <-]; by same.
Qed.

Lemma settled_in_call_listeners topic data : forall n t u u',
  settled_in t u -> call_listeners n topic data u = Return u' -> settled_in t u'.
Proof.
  induction n as [|n IH]; intros t u u' Hu Hcall.
  - by injection Hcall as <-.
  - simpl in Hcall.
    destruct (settle_head data _) as [u1| |] eqn:Hhead; try discriminate.
    simpl in Hcall. eapply IH; [|exact Hcall].
    eapply settled_in_settle_head; [|exact Hhead]. by same.
Qed.

Lemma settled_in_emit topic data t u u' :
  settled_in t u -> emit topic data u = Return u' -> settled_in t u'.
Proof. apply settled_in_call_listeners. Qed.

Lemma settled_in_on_chunk h c t u : settled_in t u -> settled_in t (on_chunk h c u).
Proof.
  intros Hu. unfold on_chunk. destruct (Upload.upload_frame c); [|done].
  by same.
Qed.

Lemma settled_in_on_chunker_end h t u :
  settled_in t u -> settled_in t (on_chunker_end h u).
Proof.
  intros Hu. unfold on_chunker_end.
  match goal with |- context [store ?x !! h] => set (u1 := x) end.
  assert (settled_in t u1) as H1 by (subst u1; by same).
  destruct (store u1 !! h) as [r|]; [|done].
  destruct (inflight (up r) =? 0); [|done]. by apply settled_in_send.
Qed.

Lemma settled_in_repeat_on (f : files -> files) t :
  (forall u, settled_in t u -> settled_in t (f u)) ->
  forall n u, settled_in t u -> settled_in t (repeat_on n f u).
Proof.
  intros Hf. induction n as [|n IH]; intros u Hu; [done|]. simpl. by apply IH, Hf.
Qed.

Lemma settled_in_deliver h n t : forall pushed u,
  settled_in t u -> settled_in t (deliver h n pushed u).
Proof.
  unfold deliver. induction pushed as [|c pushed IH]; intros u Hu; [done|].
  simpl. apply IH. apply settled_in_repeat_on; [|done].
  intros. by apply settled_in_on_chunk.
Qed.

Lemma settled_in_source_data h chunk t : forall pipes u u',
  settled_in t u -> source_data pipes h chunk u = Return u' -> settled_in t u'.
Proof.
  induction pipes as [|pipes IH]; intros u u' Hu Hrun.
  - by injection Hrun as <-.
  - simpl in Hrun. destruct (store u !! h) as [r|]; [|by injection Hrun as <-].
    destruct (Upload._transform _ _ _) as [[pushed buffer]|]; [|discriminate].
    eapply IH; [|exact Hrun]. apply settled_in_deliver. by same.
Qed.

Lemma settled_in_source_end h t u : settled_in t u -> settled_in t (source_end h u).
Proof.
  intros Hu. unfold source_end. destruct (store u !! h) as [r|]; [|done].
  destruct (0 <? piped (up r))%nat; [|done].
  apply settled_in_repeat_on; [intros; by apply settled_in_on_chunker_end|].
  by apply settled_in_deliver.
Qed.

Lemma settled_in_on_close t u : settled_in t u -> settled_in t (_on_close u).
Proof.
  intros Hu. unfold _on_close.
  assert (forall q x, settled_in t x ->
            settled_in t (fold_left (fun t h => update h (fun r => with_finished
                          (reject (Str "Socket closed") (finished r)) r) t) q x)) as Hfold.
  { induction q as [|h q IH]; intros x Hx; [done|]. simpl. apply IH. by same. }
  apply Hfold. by same.
Qed.

Lemma settled_in_run_chain t : forall pending u,
  settled_in t u -> settled_in t (run_chain pending u).
Proof.
  induction pending as [|k rest IH]; intros u Hu; simpl; [by same|].
  destruct (blocked u); [by same|]. apply IH. unfold run_thunk.
  destruct (alive u); [|by same].
  destruct (thunk_listen k); by same.
Qed.

Section FirstFrame.
Variable JSON_parse : list Z -> option value.

Lemma settled_in_handle_upload raw h t u u' :
  settled_in t u -> _handle_upload JSON_parse raw h u = Return u' -> settled_in t u'.
Proof.
  intros Hu. unfold _handle_upload.
  destruct (JSON_parse raw) as [cmd|]; [|by intros [= <-]].
  destruct (store u !! h) as [req|]; [|by intros [= <-]].
  destruct (get cmd "reqid") as [reqid| |]; cbn [bind]; try discriminate.
  destruct (loose_eq reqid (id req)) as [[|]| |]; cbn [bind]; try discriminate; [|by intros [= <-]].
  destruct (get cmd "action") as [action| |]; cbn [bind]; try discriminate.
  destruct (loose_eq action "uploaddone") as [[|]| |]; cbn [bind]; try discriminate; [by apply settled_in_emit|].
  destruct (strict_eq_str action "uploadstart"); [intros [= <-]; by same|].
  destruct (strict_eq_str action "uploadack").
  - destruct (complete (up req) && _); intros [= <-]; by same.
  - destruct (loose_eq action "uploaderror") as [[|]| |]; cbn [bind]; try discriminate; [by apply settled_in_emit|].
    by intros [= <-].
Qed.

Lemma settled_in_handle_download raw h t u u' :
  settled_in t u -> _handle_download JSON_parse raw h u = Return u' -> settled_in t u'.
Proof.
  intros Hu. unfold _handle_download.
  destruct (store u !! h) as [req|]; [|by intros [= <-]].
  set (u1 := if (4 <? length raw)%nat
             then update h (fun r =>
                    with_size (size r + (Z.of_nat (length raw) - 4))
                      (with_target (mk_sink (written (target r) ++ Buffer.slice_from raw 4)
                                            (ended (target r))) r)) u
             else u).
  assert (settled_in t u1) as H1.
  { subst u1. destruct (4 <? length raw)%nat; by same. }
  assert (forall u',
    (if negb (end_flag raw =? 0)
     then match store (update h end_target u1) !! h with
          | Some req0 => emit (id req0) (outcome "success" req0) (update h end_target u1)
          | None => Return (update h end_target u1)
          end
     else Return (send Handler (download_ack req) u1)) = Return u' ->
    settled_in t u') as Hdata.
  { intros x. destruct (negb (end_flag raw =? 0)).
    - destruct (store (update h end_target u1) !! h) as [req0|].
      + apply settled_in_emit. by same.
      + intros [= <-]. by same.
    - intros [= <-]. by same. }
  assert (forall cmd,
    bind (get cmd "action") (fun action =>
      bind (loose_eq action "download") (fun is_download =>
      if is_download then
        bind (get cmd "id") (fun cid =>
        bind (loose_eq cid (id req)) (fun same_id =>
        if negb same_id then Return u
        else
          bind (get cmd "sub") (fun sub =>
          bind (loose_eq sub "start") (fun is_start =>
          if is_start then
            Return (send Handler (download_startack req) u)
          else
            bind (loose_eq sub "cancel") (fun is_cancel =>
            if is_cancel then
              emit (id req) (outcome "canceled" req) (update h end_target u)
            else Return u)))))
      else Return u)) = Return u' -> settled_in t u') as Hjson.
  { intros cmd.
    destruct (get cmd "action") as [action| |]; cbn [bind]; try discriminate.
    destruct (loose_eq action "download") as [[|]| |]; cbn [bind]; try discriminate; [|by intros [= <-]].
    destruct (get cmd "id") as [cid| |]; cbn [bind]; try discriminate.
    destruct (loose_eq cid (id req)) as [[|]| |]; cbn [bind negb]; try discriminate; [|by intros [= <-]].
    destruct (get cmd "sub") as [sub| |]; cbn [bind]; try discriminate.
    destruct (loose_eq sub "start") as [[|]| |]; cbn [bind]; try discriminate; [intros [= <-]; by same|].
    destruct (loose_eq sub "cancel") as [[|]| |]; cbn [bind]; try discriminate; [|by intros [= <-]].
    apply settled_in_emit. by same. }
  destruct (JSON_parse raw) as [cmd|]; [|apply Hdata].
  destruct cmd; first [apply Hdata | apply Hjson].
Qed.

Lemma settled_in_receive raw t u u' :
  settled_in t u -> receive JSON_parse true raw u = Return u' -> settled_in t u'.
Proof.
  intros Hu Hhandle. unfold receive in Hhandle.
  destruct (_request_queue u) as [|h q] eqn:Hq; [by injection Hhandle as <-|].
  destruct (_ && _).
  - unfold _handle_action in Hhandle.
    destruct (JSON_parse raw); [|discriminate]. rewrite Hq in Hhandle.
    injection Hhandle as <-. by same.
  - destruct (String.eqb _ "upload");
      [by eapply settled_in_handle_upload|].
    destruct (String.eqb _ "download");
      [by eapply settled_in_handle_download|].
    by injection Hhandle as <-.
Qed.

Lemma settled_in_receive_turn t : forall frames u u',
  settled_in t u -> receive_turn JSON_parse true frames u = Return u' -> settled_in t u'.
Proof.
  induction frames as [|raw frames IH]; intros u u' Hu; cbn [receive_turn].
  - by intros [= <-].
  - destruct (receive JSON_parse true raw u) as [u1| |] eqn:H1; cbn [bind]; try discriminate.
    apply IH. by eapply settled_in_receive.
Qed.

Lemma settled_in_step e t t' :
  resolved (initialized t) = true -> step JSON_parse e t = Return t' ->
  settled_in t t'.
Proof.
  intros Hi. unfold step.
  destruct (handle JSON_parse e t) as [t1| |] eqn:Hhandle; try discriminate.
  cbn [bind]. intros [= <-]. apply settled_in_run_chain.
  pose proof (settled_in_refl t) as Ht.
  destruct e; cbn [handle] in Hhandle.
  - unfold _send_command, _get_request_id, enqueue in Hhandle.
    destruct (negb (alive t)).
    + by injection Hhandle as <-.
    + injection Hhandle as <-. by same.
  - unfold upload, _get_request_id, enqueue in Hhandle. destruct readableEnded.
    + by injection Hhandle as <-.
    + injection Hhandle as <-. by same.
  - injection Hhandle as <-. unfold download, _get_request_id, enqueue. by same.
  - unfold _receive_message in Hhandle. rewrite Hi in Hhandle.
    by eapply settled_in_receive.
  - rewrite Hi in Hhandle. by eapply settled_in_receive_turn.
  - cbv zeta in Hhandle. injection Hhandle as <-.
    change (initialized (set_alive false t)) with (initialized t). rewrite Hi.
    apply settled_in_on_close. by same.
  - injection Hhandle as <-. by same.
  - unfold session_settles in Hhandle.
    destruct (_request_queue t) as [|h0 q]; [discriminate|].
    injection Hhandle as <-. by same.
  - destruct (store t !! h) as [r|]; [|by injection Hhandle as <-].
    by eapply settled_in_source_data.
  - injection Hhandle as <-. by apply settled_in_source_end.
Qed.

Lemma settled_in_run : forall es t t',
  resolved (initialized t) = true -> run JSON_parse es t = Return t' ->
  settled_in t t'.
Proof.
  induction es as [|e es IH]; intros t t' Hi Hrun.
  - injection Hrun as <-. apply settled_in_refl.
  - simpl in Hrun. destruct (step JSON_parse e t) as [t1| |] eqn:Hstep; try discriminate.
    simpl in Hrun. pose proof (settled_in_step _ _ _ Hi Hstep) as H1.
    eapply settled_in_trans; [exact H1|]. apply IH; [|done].
    destruct H1 as [-> _ _]. done.
Qed.

(** Frames that arrive while the flag is unset are handshakes. *)
Lemma receive_turn_unset : forall (frames : list (list Z)) (final : list Z) (t : files),
  receive_turn JSON_parse false (frames ++ [final]) t
  = Return (mk_files true (resolve Undefined (initialized t)) (Some (is_cr final))
              (_request_id t) (_request_queue t) (store t) (chain t) (awaiting t)
              (_eventer t)
              (wire t ++ map (fun _ => (Handler, Binary [53])) (frames ++ [final]))).
Proof.
  induction frames as [|raw frames IH]; intros final t.
  - cbn. by destruct (initialized t).
  - cbn [app receive_turn receive bind]. rewrite IH. unfold send; fields.
    rewrite <- app_assoc. by destruct (initialized t).
Qed.

(** X21: a file tunnel takes as handshakes the frames of the first turn
    in which frames arrive, all of them: [initialized.resolved] is set by
    a promise job, so a second frame that the socket hands over together
    with the first finds it unset.  The tunnel answers each of these
    frames with the protocol number 5 before it sends anything else, it is
    initialised from then on, and [recorded] says, for good, whether the
    last of them was the text [cr]; frames of later turns are traffic and
    change none of this. *)
Theorem first_turn_is_the_handshake (first : event) (frames : list (list Z))
    (final : list Z) (es : list event) (t : files) :
  frames_of first = frames ++ [final] ->
  run JSON_parse (first :: es) constructed = Return t ->
  exists w,
    wire t = map (fun _ => (Handler, Binary [53])) (frames ++ [final]) ++ w
    /\ recorded t = Some (is_cr final)
    /\ resolved (initialized t) = true.
Proof.
  intros Hfirst Hrun. cbn [run] in Hrun.
  destruct (step JSON_parse first constructed) as [t1| |] eqn:Hstep;
    try discriminate.
  cbn [bind] in Hrun.
  assert (t1 = mk_files true (Resolved Undefined) (Some (is_cr final)) 0 [] [] []
                        None []
                        (map (fun _ => (Handler, Binary [53])) (frames ++ [final])))
    as ->.
  { assert (handle JSON_parse first constructed
            = receive_turn JSON_parse false (frames ++ [final]) constructed) as Hhandle.
    { destruct first; cbn [frames_of] in Hfirst;
        try (by destruct frames; discriminate).
      - cbn [handle]. destruct frames as [|raw [|raw' frames]]; try discriminate.
        injection Hfirst as ->. cbn [app receive_turn].
        unfold _receive_message. change (resolved (initialized constructed)) with false.
        by destruct (receive JSON_parse false final constructed).
      - cbn [handle]. by rewrite Hfirst. }
    revert Hstep. unfold step. rewrite Hhandle, receive_turn_unset. cbn [bind].
    by intros [= <-]. }
  apply settled_in_run in Hrun as [Hi Hr [w Hw]]; [|done].
  exists w. rewrite Hw, Hr, Hi. done.
Qed.

End FirstFrame.

Lemma first_turn_is_the_handshake_witness :
  exists t w,
    run binary_only
        [Frames [[99; 114]; [99]]; CallDownload (Str "/tmp/a");
         Message [1; 0; 0; 1; 33]] constructed = Return t
    /\ wire t = (Handler, Binary [53]) :: (Handler, Binary [53]) :: w
    /\ recorded t = Some false.
Proof.
  assert (exists t,
            run binary_only
                [Frames [[99; 114]; [99]]; CallDownload (Str "/tmp/a");
                 Message [1; 0; 0; 1; 33]] constructed = Return t) as [t Hrun]
    by (eexists; by vm_compute).
  destruct (first_turn_is_the_handshake binary_only (Frames [[99; 114]; [99]])
              [[99; 114]] [99] _ t eq_refl Hrun) as (w & Hw & Hr & _).
  exists t, w. split; [exact Hrun|]. split; [exact Hw|exact Hr].
Defined.

End FirstFrameFacts.

(** ** The relay handshake, continued *)

Module RelayFacts.
Import JS Tunnel TunnelFacts.
Import ConstructorFacts(_send_command_wire).

(** *** The relay address *)

Lemma prefix_refl_app (a b : string) : String.prefix a (a +:+ b) = true.
Proof.
  induction a as [|c a IH]; [by destruct b|]. simpl.
  by destruct (Ascii.ascii_dec c c).
Qed.

Lemma substring_all (b : string) : String.substring 0 (String.length b) b = b.
Proof. induction b as [|d b IH]; [done|]. simpl. by rewrite IH. Qed.

Lemma substring_after (a b : string) :
  String.substring (String.length a) (String.length (a +:+ b) - String.length a) (a +:+ b)
  = b.
Proof.
  induction a as [|c a IH]; simpl.
  - rewrite Nat.sub_0_r. apply substring_all.
  - exact IH.
Qed.

Lemma append_nil_r (s : string) : s +:+ "" = s.
Proof.
  induction s as [|c s IH]; [done|].
  change (String c s +:+ "") with (String c (s +:+ "")). by rewrite IH.
Qed.

Lemma append_assoc (a b c : string) : (a +:+ b) +:+ c = a +:+ (b +:+ c).
Proof.
  induction a as [|x a IH]; [done|].
  change ((String x a +:+ b) +:+ c) with (String x ((a +:+ b) +:+ c)).
  by rewrite IH.
Qed.

(** A replacement without a dollar sign stands for itself. *)
Lemma get_substitution_plain (matched before after template : string) :
  no_dollar template = true ->
  get_substitution matched before after template = template.
Proof.
  induction template as [|c template IH]; [done|]. cbn [no_dollar get_substitution].
  intros [Hc Hrest]%andb_true_iff. rewrite Hc. by rewrite IH.
Qed.

(** [replace] on a text that has the pattern at its end and not
    before. *)
Lemma replace_from_at_end (pattern replacement : string) : forall base before : string,
  clear_before pattern base pattern = true ->
  replace_from pattern replacement before (base +:+ pattern)
  = base +:+ get_substitution pattern (before +:+ base) "" replacement.
Proof.
  induction base as [|c base IH]; intros before Hclear.
  - pose proof (prefix_refl_app pattern "") as Hp.
    pose proof (substring_after pattern "") as Hs.
    rewrite append_nil_r in Hp, Hs. rewrite append_nil_r.
    change ("" +:+ pattern) with pattern.
    change ("" +:+ get_substitution pattern before "" replacement)
      with (get_substitution pattern before "" replacement).
    destruct pattern as [|p pattern]; cbn [replace_from].
    + simpl. apply append_nil_r.
    + rewrite Hp, Hs. apply append_nil_r.
  - cbn [clear_before] in Hclear. apply andb_true_iff in Hclear as [Hhere Hclear].
    apply negb_true_iff in Hhere.
    change (String c base +:+ pattern) with (String c (base +:+ pattern)) in *.
    change (String c base +:+ get_substitution pattern (before +:+ String c base) "" replacement)
      with (String c (base +:+ get_substitution pattern (before +:+ String c base) ""
                                 replacement)).
    cbn [replace_from]. rewrite Hhere. f_equal.
    rewrite (IH _ Hclear). do 2 f_equal. by rewrite append_assoc.
Qed.

Lemma replace_first_at_end (pattern replacement base : string) :
  clear_before pattern base pattern = true ->
  replace_first pattern replacement (base +:+ pattern)
  = base +:+ get_substitution pattern base "" replacement.
Proof. intros Hclear. unfold replace_first. by rewrite replace_from_at_end. Qed.

Section HandshakeFacts.
Variable is_three : string -> bool.
Variable settings : session_settings.


End HandshakeFacts.

Lemma example_cookie_session_consistent : Session.consistent example_cookie_session.
Proof.
  unfold example_cookie_session.
  set (s := Session.on_open (Session.constructed [] [] [])).
  assert (Session.consistent (fst (_initialize s (constructed "abc" 1)))) as Hs.
  { unfold _initialize.
    destruct (Session._send_command_no_response_id _ s) as [[p s']| |] eqn:Hsend;
      [|apply SessionFacts.constructed_consistent..].
    eapply SessionFacts._send_command_no_response_id_consistent; [|exact Hsend].
    apply SessionFacts.constructed_consistent. }
  destruct (Session._receive_message example_parse [1] _) as [s'| |] eqn:Hrecv;
    [|apply SessionFacts.constructed_consistent..].
  by destruct (SessionFacts._receive_message_dispatch _ _ _ _ Hs Hrecv).
Qed.


End RelayFacts.

(** ** The shell, continued *)

Module TerminalFacts.
Import Shell ShellFacts.

(** *** Successful reads *)

Lemma slice_split (b : list Z) (n : Z) :
  Buffer.slice b 0 n ++ Buffer.slice_from b n = b.
Proof.
  destruct (Z.le_gt_cases 0 n) as [Hn|Hn].
  - rewrite slice_take, slice_from_drop by done. apply take_drop.
  - unfold Buffer.slice_from, Buffer.slice, Buffer.adjustOffset.
    change (0 <? 0) with false. cbv iota.
    destruct (Z.ltb_spec n 0); [|lia].
    destruct (Z.ltb_spec (Z.of_nat (length b)) 0); [lia|].
    rewrite Z.min_id, (Z.min_l 0) by lia. rewrite Z.sub_0_r.
    change (Z.to_nat 0) with O. rewrite drop_0.
    set (m := Z.to_nat (Z.max (n + Z.of_nat (length b)) 0)).
    replace (Z.to_nat (Z.of_nat (length b) - Z.max (n + Z.of_nat (length b)) 0))
      with (length b - m)%nat by lia.
    rewrite (take_ge (drop m b)) by (rewrite length_drop; lia).
    apply take_drop.
Qed.

(** One run of [check_data] that resolves. *)
Lemma read_check_resolves len timeout ri e rs buffer data buffer' :
  read_check len timeout ri e rs buffer = (Settled (Resolve data), buffer') ->
  data ++ buffer' = buffer
  /\ match len with
     | None => buffer' = []
     | Some n =>
         data = Buffer.slice buffer 0 n
         /\ (0 <= n -> Z.of_nat (length data) = n)
     end.
Proof.
  unfold read_check. destruct (gives_up timeout e rs).
  - destruct ri; discriminate.
  - destruct len as [n|].
    + destruct (Z.ltb_spec (Z.of_nat (List.length buffer)) n); [discriminate|].
      intros [= <- <-]. split; [apply slice_split|]. split; [done|].
      intros Hn. rewrite slice_take, length_take by done. lia.
    + intros [= <- <-]. split; [apply app_nil_r|done].
Qed.

Lemma read_check_short n timeout ri e rs buffer buffer' :
  read_check (Some n) timeout ri e rs buffer = (Again, buffer') ->
  Z.of_nat (length buffer) < n.
Proof.
  unfold read_check. destruct (gives_up timeout e rs).
  - destruct ri; discriminate.
  - destruct (Z.ltb_spec (Z.of_nat (List.length buffer)) n); [done|discriminate].
Qed.

(** X23: when [read(length)] resolves, it hands over a prefix of what
    the buffer held at the call followed by what arrived until then, and
    the buffer keeps the rest: no byte is lost or repeated.  Without a
    length it resolves at the first check with everything; with a length
    [n >= 0] it resolves with exactly [n] bytes, at the first check at
    which that many are there. *)
Theorem read_resolves_with_first_bytes (ticks : list tick) (len timeout : option Z)
    (return_intermediate : bool) :
  forall (_buffer data left : list Z),
  read ticks len timeout return_intermediate _buffer = Some (Resolve data, left) ->
  exists k, (1 <= k <= length ticks)%nat
    /\ let seen (j : nat) := _buffer ++ concat (map arrived (take j ticks)) in
       data ++ left = seen k
       /\ match len with
          | None => k = 1%nat /\ left = []
          | Some n =>
              data = Buffer.slice (seen k) 0 n
              /\ (0 <= n ->
                  Z.of_nat (length data) = n
                  /\ forall j, (1 <= j < k)%nat -> Z.of_nat (length (seen j)) < n)
          end.
Proof.
  induction ticks as [|t ticks IH]; intros buffer data left Hread; [discriminate|].
  cbn [read] in Hread.
  destruct (read_check len timeout return_intermediate (elapsed t) (readyState t)
              (buffer ++ arrived t)) as [[s|] b] eqn:Hcheck.
  - injection Hread as -> ->.
    apply read_check_resolves in Hcheck as [Hkeep Hlen].
    exists 1%nat. split; [simpl; lia|]. cbn [take map concat]. rewrite app_nil_r.
    split; [done|]. destruct len as [n|]; [|done].
    destruct Hlen as [Hdata Hn]. split; [done|]. intros H0. split; [auto|]. lia.
  - destruct len as [n|].
    2:{ exfalso. unfold read_check in Hcheck.
        destruct (gives_up timeout (elapsed t) (readyState t));
          [destruct return_intermediate|]; discriminate. }
    pose proof (read_check_again _ _ _ _ _ _ _ Hcheck) as ->.
    destruct (IH _ _ _ Hread) as (k & Hk & Hkeep & Hlen).
    exists (S k). split; [simpl; lia|]. cbn [take map concat].
    rewrite app_assoc. split; [done|].
    destruct Hlen as [Hdata Hn]. split; [done|]. intros H0.
    destruct (Hn H0) as [Hsize Hfirst]. split; [done|].
    intros j Hj. destruct j as [|j]; [lia|]. cbn [take map concat].
    rewrite app_assoc. destruct j as [|j].
    + simpl. rewrite app_nil_r. by eapply read_check_short.
    + apply Hfirst. lia.
Qed.

(** *** [expect] on a match *)

Lemma length_code_units cp : (length (code_units cp) <= 2)%nat.
Proof. unfold code_units. destruct (cp <? 65536); simpl; lia. Qed.

Lemma length_lead b :
  (length (fst (lead b))
   + match snd (lead b) with Some _ => 1 | None => 0 end <= 1)%nat.
Proof.
  unfold lead. repeat (match goal with |- context [if ?c then _ else _] =>
    destruct c end; simpl; try lia).
Qed.

(** The text of a buffer has at most as many code units as the buffer
    has bytes. *)
Lemma length_decode (bytes : list Z) : forall st,
  (length (decode bytes st)
   <= length bytes + match st with Some _ => 1 | None => 0 end)%nat.
Proof.
  induction bytes as [|b rest IH]; intros st.
  - destruct st; simpl; lia.
  - destruct st as [p|]; cbn [decode].
    + destruct ((lower p <=? b) && (b <=? upper p)).
      * destruct (needed p) as [|[|n]].
        -- rewrite length_app. pose proof (length_code_units
             (Z.lor (Z.shiftl (code_point p) 6) (Z.land b 63))).
           specialize (IH None). simpl in *. lia.
        -- rewrite length_app. pose proof (length_code_units
             (Z.lor (Z.shiftl (code_point p) 6) (Z.land b 63))).
           specialize (IH None). simpl in *. lia.
        -- specialize (IH (Some (mk_partial
             (Z.lor (Z.shiftl (code_point p) 6) (Z.land b 63)) (S n) 128 191))).
           simpl in *. lia.
      * pose proof (length_lead b) as Hlead. destruct (lead b) as [out st'].
        specialize (IH st'). simpl in *. rewrite length_app. lia.
    + pose proof (length_lead b) as Hlead. destruct (lead b) as [out st'].
      specialize (IH st'). simpl in *. rewrite length_app. lia.
Qed.

Lemma utf8_length_ascii (units : list Z) :
  Forall (fun u => 0 <= u <= 127) units -> utf8_length units = length units.
Proof.
  induction 1 as [|u units Hu _ IH]; [done|]. simpl.
  destruct (Z.ltb_spec u 128); [|lia]. by rewrite IH.
Qed.

(** X24: when [expect] finds a match of length [len] at [index] of the
    text of the buffer, its promise is resolved at once, with as many
    bytes from the front of the buffer as the text through the end of the
    match has characters, and the buffer keeps the rest: no byte is lost,
    and the promise never hangs on the inner [read].  On a buffer of 7-bit
    characters those bytes are the text through the end of the match. *)
Theorem expect_resolves_at_once (pattern : regex) (timeout : option Z)
    (return_intermediate : bool) (e rs : Z) (_buffer : list Z) (index len : nat) :
  gives_up timeout e rs = false ->
  pattern (toString _buffer) = Some (index, len) ->
  (index + len <= length (toString _buffer))%nat ->
  expect_check pattern timeout return_intermediate e rs _buffer
  = (ExpectSettled (Resolve (take (index + len) _buffer)), drop (index + len) _buffer)
  /\ length (take (index + len) _buffer) = (index + len)%nat
  /\ (Forall (fun b => 0 <= b <= 127) _buffer ->
      take (index + len) _buffer = through_match _buffer index len).
Proof.
  intros Hopen Hmatch Hlen.
  pose proof (length_decode _buffer None) as Hdecode. fold (toString _buffer) in Hdecode.
  simpl in Hdecode.
  split; [|split].
  - unfold expect_check. rewrite Hopen, Hmatch. unfold read_check.
    assert (gives_up None 0 rs = false) as ->.
    { destruct timeout; simpl in *; [|done]. by apply orb_false_iff in Hopen as [_ ?]. }
    destruct (Z.ltb_spec (Z.of_nat (length _buffer)) (Z.of_nat (index + len))); [lia|].
    rewrite slice_take, slice_from_drop by lia. by rewrite Nat2Z.id.
  - rewrite length_take. lia.
  - intros Hascii. unfold through_match. rewrite (decode_ascii _ Hascii).
    rewrite utf8_length_ascii by (by apply Forall_take).
    rewrite length_take. f_equal. rewrite (decode_ascii _ Hascii) in Hlen. lia.
Qed.

Lemma expect_resolves_at_once_witness :
  expect_check (literal READY) None false 0 1 e_acute_READY_bar
  = (ExpectSettled (Resolve (take 8 e_acute_READY_bar)), drop 8 e_acute_READY_bar)
  /\ expect_check (literal READY) (Some 500) true 100 1 foo_READY_bar
     = (ExpectSettled (Resolve (take 10 foo_READY_bar)), drop 10 foo_READY_bar).
Proof.
  split.
  - apply (expect_resolves_at_once (literal READY) None false 0 1 e_acute_READY_bar 2 6);
      reflexivity || (simpl; lia).
  - apply (expect_resolves_at_once (literal READY) (Some 500) true 100 1 foo_READY_bar 4 6);
      reflexivity || (simpl; lia).
Defined.

Lemma read_resolves_with_first_bytes_witness :
  read [mk_tick 0 1 []; mk_tick 100 1 [98; 99]; mk_tick 200 1 [100]] (Some 3) None false [97]
  = Some (Resolve [97; 98; 99], [])
  /\ exists k, (1 <= k <= 3)%nat
       /\ [97; 98; 99] ++ []
          = [97] ++ concat (map arrived
              (take k [mk_tick 0 1 []; mk_tick 100 1 [98; 99]; mk_tick 200 1 [100]])).
Proof.
  split; [reflexivity|].
  destruct (read_resolves_with_first_bytes
              [mk_tick 0 1 []; mk_tick 100 1 [98; 99]; mk_tick 200 1 [100]]
              (Some 3) None false [97] [97; 98; 99] [] eq_refl)
    as (k & Hk & Hkeep & _).
  exists k. split; [exact Hk|exact Hkeep].
Defined.

(** *** What the shell receives *)

Lemma encode_ascii (units : list Z) :
  Forall (fun u => 0 <= u <= 127) units -> encode units = units.
Proof.
  induction 1 as [|u units Hu _ IH]; [done|]. cbn [encode].
  destruct (Z.ltb_spec u 128); [|lia]. by rewrite IH.
Qed.

Section ReceiveFacts.
Variable JSON_parse : list Z -> option JS.value.

(** The check of a control command returns or throws. *)
Lemma is_control_ends raw :
  is_control JSON_parse raw <> JS.Throw -> exists b, is_control JSON_parse raw = JS.Return b.
Proof.
  unfold is_control. destruct (starts_with _ _); [|by eexists].
  destruct (JSON_parse raw) as [ctrlCmd|]; [|by eexists].
  destruct (JS.nullish ctrlCmd) eqn:Hnull; [by eexists|].
  destruct (FilterFacts.get_returns ctrlCmd "ctrlChannel" Hnull) as [channel ->].
  destruct (FilterFacts.get_returns ctrlCmd "type" Hnull) as [type ->].
  cbn [Session.bind].
  assert (loose_eq_102938 channel = JS.Throw \/ exists b, loose_eq_102938 channel = JS.Return b)
    as [->|[b ->]].
  { unfold loose_eq_102938. destruct channel; eauto; destruct (JS.unprintable _); eauto. }
  - done.
  - intros _. cbn [Session.bind]. destruct b; by eexists.
Qed.

(** Frames of 7-bit text that arrive while the flag is set. *)
Lemma receive_set_buffers : forall (frames : list (list Z)) (t : shell),
  Forall (Forall (fun b => 0 <= b <= 127)) frames ->
  Forall (fun raw => is_control JSON_parse raw <> JS.Throw) frames ->
  exists t',
    receive_frames JSON_parse true frames t = JS.Return t'
    /\ _buffer t'
       = _buffer t
         ++ concat (filter (fun raw => is_control JSON_parse raw = JS.Return false) frames)
    /\ sent t' = sent t /\ alive t' = alive t /\ initialized t' = initialized t
    /\ recorded t' = recorded t.
Proof.
  induction frames as [|raw frames IH]; intros t Hall Hends.
  - exists t. simpl. by rewrite app_nil_r.
  - apply Forall_cons in Hall as [Hraw Hall].
    apply Forall_cons in Hends as [Hend Hends].
    cbn [receive_frames]. unfold receive. rewrite (decode_ascii _ Hraw).
    destruct (is_control_ends raw Hend) as [control Hc]. rewrite Hc.
    cbn [Session.bind]. destruct control.
    + rewrite filter_cons_False by (by rewrite Hc). by apply IH.
    + rewrite filter_cons_True by done.
      destruct (IH (mk_shell (initialized t) (alive t) (recorded t) (_protocol t)
                      (_buffer t ++ encode raw) (sent t)) Hall Hends)
        as (t' & Hrun & Hb & Hs & Ha & Hin & Hr).
      exists t'. split; [exact Hrun|].
      rewrite Hb, Hs, Ha, Hin, Hr. cbn [_buffer sent alive initialized recorded].
      rewrite (encode_ascii _ Hraw). cbn [concat]. by rewrite app_assoc.
Qed.

(** The turns of an initialised shell. *)
Lemma receive_turns_buffers : forall (turns : list (list (list Z))) (t : shell),
  Session.resolved (initialized t) = true ->
  Forall (Forall (Forall (fun b => 0 <= b <= 127))) turns ->
  Forall (Forall (fun raw => is_control JSON_parse raw <> JS.Throw)) turns ->
  exists t',
    receive_turns JSON_parse turns t = JS.Return t'
    /\ _buffer t'
       = _buffer t
         ++ concat (filter (fun raw => is_control JSON_parse raw = JS.Return false)
                           (concat turns))
    /\ sent t' = sent t /\ alive t' = alive t /\ initialized t' = initialized t
    /\ recorded t' = recorded t.
Proof.
  induction turns as [|frames turns IH]; intros t Hi Hall Hends.
  - exists t. simpl. by rewrite app_nil_r.
  - apply Forall_cons in Hall as [Hframes Hall].
    apply Forall_cons in Hends as [Hend Hends].
    cbn [receive_turns]. unfold receive_turn. rewrite Hi.
    destruct (receive_set_buffers frames t Hframes Hend)
      as (t1 & Hrun1 & Hb1 & Hs1 & Ha1 & Hi1 & Hr1).
    rewrite Hrun1. cbn [Session.bind].
    destruct (IH t1) as (t' & Hrun & Hb & Hs & Ha & Hin & Hr);
      [by rewrite Hi1|done|done|].
    exists t'. split; [exact Hrun|].
    rewrite Hb, Hs, Ha, Hin, Hr, Hb1, Hs1, Ha1, Hi1, Hr1.
    cbn [concat]. by rewrite filter_app, concat_app, app_assoc.
Qed.

(** Frames that arrive while the flag is unset are handshakes. *)
Lemma receive_unset_handshakes : forall (frames : list (list Z)) (final : list Z) (t : shell),
  receive_frames JSON_parse false (frames ++ [final]) t
  = JS.Return
      (mk_shell (Session.resolve JS.Undefined (initialized t)) true
                (Some (bool_decide (toString final = units_of "cr")))
                (_protocol t) (_buffer t)
                (sent t ++ map (fun _ => encode (units_of (pretty (_protocol t))))
                               (frames ++ [final]))).
Proof.
  induction frames as [|raw frames IH]; intros final t.
  - cbn. by destruct (initialized t).
  - cbn [app receive_frames]. unfold receive at 1. cbn [Session.bind].
    rewrite IH. unfold write.
    cbn [initialized alive recorded _protocol _buffer sent map].
    rewrite <- app_assoc. by destruct (initialized t).
Qed.

(** X25: a shell keeps what arrives once it is initialised.  The frames
    of the first turn in which frames arrive are handshakes, all of them
    ([initialized.resolved] is set by a promise job, so a frame that the
    socket hands over together with the first finds it unset): none is
    buffered, the shell answers each with the protocol number, the last
    decides [recorded], and the shell is alive and initialised from then
    on.  Of the frames of 7-bit text of the turns that follow, none of
    which makes the check for a control command throw, those that the
    handler takes for control commands are dropped and all others are
    appended to the buffer unchanged and in order, so that a [read]
    without a length returns them joined and empties the buffer. *)
Theorem shell_buffers_what_arrives (firsts : list (list Z)) (final : list Z)
    (turns : list (list (list Z))) :
  Forall (Forall (Forall (fun b => 0 <= b <= 127))) turns ->
  Forall (Forall (fun raw => is_control JSON_parse raw <> JS.Throw)) turns ->
  exists t,
    receive_turns JSON_parse ((firsts ++ [final]) :: turns) constructed = JS.Return t
    /\ let text :=
         concat (filter (fun raw => is_control JSON_parse raw = JS.Return false)
                        (concat turns)) in
       sent t = map (fun _ => [49]) (firsts ++ [final])
       /\ alive t = true /\ Session.resolved (initialized t) = true
       /\ recorded t = Some (bool_decide (toString final = [99; 114]))
       /\ _buffer t = text
       /\ read [mk_tick 0 1 []] None None false (_buffer t) = Some (Resolve text, []).
Proof.
  intros Hall Hends. cbn [receive_turns]. unfold receive_turn at 1.
  change (Session.resolved (initialized constructed)) with false.
  rewrite receive_unset_handshakes. cbn [Session.bind].
  set (t1 := mk_shell _ _ _ _ _ _).
  destruct (receive_turns_buffers turns t1 eq_refl Hall Hends)
    as (t & Hrun & Hb & Hs & Ha & Hi & Hr).
  exists t. split; [exact Hrun|]. cbv zeta. rewrite Hb, Hs, Ha, Hi, Hr.
  split; [done|]. split; [done|]. split; [done|]. split; [done|].
  change (_buffer t1) with (@nil Z). cbn [app]. split; [done|].
  simpl. by rewrite app_nil_r.
Qed.

End ReceiveFacts.

(** *** The smart shell *)

Lemma starts_with_take pattern : forall text n,
  starts_with pattern (take n text) = true -> starts_with pattern text = true.
Proof.
  induction pattern as [|p pattern IH]; intros text n; [done|].
  destruct text as [|c text]; [by rewrite take_nil|].
  destruct n as [|n]; [done|]. simpl.
  destruct (p =? c); [apply IH|done].
Qed.

Lemma starts_with_enough pattern : forall text,
  starts_with pattern text = true ->
  starts_with pattern (take (length pattern) text) = true.
Proof.
  induction pattern as [|p pattern IH]; intros text; [done|].
  destruct text as [|c text]; [done|]. simpl.
  destruct (p =? c); [apply IH|done].
Qed.

Lemma search_from_index pattern : forall text index found len,
  search_from pattern text index = Some (found, len) ->
  (index <= found)%nat /\ len = length pattern.
Proof.
  induction text as [|c text IH]; intros index found len; simpl.
  - destruct (starts_with pattern []); [|done]. intros [= <- <-]. done.
  - destruct (starts_with pattern (c :: text)).
    + intros [= <- <-]. done.
    + intros Hs. apply IH in Hs. split; [lia|apply Hs].
Qed.

(** The first occurrence is also the first occurrence in the text up to
    its end. *)
Lemma search_from_take pattern : forall text index offset,
  search_from pattern text index = Some ((index + offset)%nat, length pattern) ->
  search_from pattern (take (offset + length pattern) text) index
  = Some ((index + offset)%nat, length pattern).
Proof.
  induction text as [|c text IH]; intros index offset.
  - rewrite take_nil. done.
  - cbn [search_from].
    destruct (starts_with pattern (c :: text)) eqn:Hstart.
    + intros [= Hoff]. assert (offset = 0)%nat as -> by lia.
      rewrite Nat.add_0_r. cbn [Nat.add].
      destruct pattern as [|p pattern]; [done|].
      cbn [length take search_from].
      change (c :: take (length pattern) text)
        with (take (length (p :: pattern)) (c :: text)).
      by rewrite (starts_with_enough _ _ Hstart).
    + intros Hs. pose proof (search_from_index _ _ _ _ _ Hs) as [Hle _].
      destruct offset as [|offset]; [lia|].
      cbn [Nat.add take search_from].
      destruct (starts_with pattern (c :: take (offset + length pattern) text)) eqn:Hs'.
      { change (c :: take (offset + length pattern) text)
          with (take (S (offset + length pattern)) (c :: text)) in Hs'.
        apply starts_with_take in Hs'. congruence. }
      replace (index + S offset)%nat with (S index + offset)%nat in * by lia.
      by apply IH.
Qed.

(** X26: on a shell whose buffer holds 7-bit text in which the prompt
    first occurs right after [output], [send_command] on an open socket
    writes the command, with a line feed added unless it ends with one,
    and is settled at once: it returns [output], and the buffer keeps what
    followed the prompt. *)
Theorem send_command_returns_output_before_prompt
    (prompt command output more : list Z) (t : shell) :
  _buffer t = output ++ prompt ++ more ->
  Forall (fun b => 0 <= b <= 127) (_buffer t) ->
  literal prompt (_buffer t) = Some (length output, length prompt) ->
  send_command (literal prompt) command 1 t
  = (Some (JS.Return output),
     mk_shell (initialized t) (alive t) (recorded t) (_protocol t) more
              (sent t ++ [encode (command_line command)])).
Proof.
  intros Hbuffer Hascii Hfound. unfold send_command.
  cbn [write _buffer initialized alive recorded _protocol sent].
  rewrite (expect_ascii (literal prompt) None false 0 1 (_buffer t)
             (length output) (length prompt) Hascii eq_refl Hfound).
  2:{ rewrite Hbuffer, !length_app. lia. }
  rewrite Hbuffer in *.
  replace (take (length output + length prompt) (output ++ prompt ++ more))
    with (output ++ prompt)
    by (rewrite app_assoc, take_app_length'; [done|by rewrite length_app]).
  replace (drop (length output + length prompt) (output ++ prompt ++ more))
    with more
    by (rewrite app_assoc, drop_app_length'; [done|by rewrite length_app]).
  unfold before_prompt.
  assert (Forall (fun b => 0 <= b <= 127) (output ++ prompt)) as Hascii'.
  { rewrite app_assoc in Hascii. by apply Forall_app in Hascii as [? _]. }
  rewrite (decode_ascii _ Hascii').
  pose proof (search_from_take prompt (output ++ prompt ++ more) 0 (length output) Hfound)
    as Hsearch.
  rewrite app_assoc, take_app_length' in Hsearch by (by rewrite length_app).
  unfold literal at 1. rewrite Hsearch. cbn [Nat.add].
  rewrite slice_take by lia. rewrite Nat2Z.id. by rewrite take_app_length.
Qed.

Lemma shell_buffers_what_arrives_witness :
  exists t,
    receive_turns (fun _ => None)
      [[[99; 114]; [108; 115; 10]]; [[47; 116; 109; 112; 10]; [36; 32]]]
      constructed = JS.Return t
    /\ sent t = [[49]; [49]] /\ recorded t = Some false
    /\ _buffer t = [47; 116; 109; 112; 10; 36; 32].
Proof.
  destruct (shell_buffers_what_arrives (fun _ => None) [[99; 114]] [108; 115; 10]
              [[[47; 116; 109; 112; 10]; [36; 32]]])
    as (t & Hrun & Hs & _ & _ & Hr & Hb & _).
  - repeat constructor; lia.
  - repeat constructor; discriminate.
  - exists t. split; [exact Hrun|]. split; [exact Hs|]. split; [exact Hr|]. exact Hb.
Defined.

Lemma send_command_returns_output_before_prompt_witness :
  send_command (literal PROMPT) [112; 119; 100] 1
    (receive_all (fun _ => None) example_terminal constructed)
  = (Some (JS.Return [47; 116; 109; 112; 10]),
     mk_shell (Session.Resolved JS.Undefined) true (Some true) 1 []
              [[49]; [112; 119; 100; 10]]).
Proof.
  apply (send_command_returns_output_before_prompt PROMPT [112; 119; 100]
           [47; 116; 109; 112; 10] []
           (receive_all (fun _ => None) example_terminal constructed)).
  - reflexivity.
  - repeat constructor; lia.
  - reflexivity.
Defined.

End TerminalFacts.

